(** * Verification of core/syncx: Limit, SingleFlight and ResourceManager

    A shallow embedding of the three concurrency primitives of package
    [syncx] and the proofs of their specification.

    - [Limit] (limit.go) is a buffered Go channel used as a counting
      semaphore.  The channel is modelled with its capacity, the number of
      buffered elements and the queue of goroutines parked in a blocking
      send.
    - [flightGroup] (singleflight.go) and [ResourceManager]
      (resourcemanager.go) are modelled as an interleaving semantics: every
      call of [Do], [DoEx] or [GetResource] is a caller with a program
      counter, and [step t s] executes the next statement of caller [t] on
      the shared state [s]. *)

From stdpp Require Import gmap strings list fin_maps.

#[local] Set Warnings "-clear-no-such-hyp".

(** Go's [error] interface: [None] is the nil error. *)
Definition error := option string.

(* ===================================================================== *)
(** * limit.go *)
(* ===================================================================== *)

Module Limit.

(** [ErrLimitReturn] (limit.go, line 18). *)
Definition ErrLimitReturn : error :=
  Some "discarding limited token, resource pool is full, someone returned multiple times"%string.

(** Goroutine identifiers, used to name the callers parked in [Borrow]. *)
Definition gid := nat.

(** [type Limit struct { pool chan lang.PlaceholderType }].  All elements of
    the channel are the placeholder, so the buffer is the number of
    buffered elements.  [sendq] is the runtime's queue of goroutines parked
    in a blocking send ([Borrow]) in arrival order.  No goroutine ever parks
    in a receive: the only receive is the non-blocking [select] of
    [Return]. *)
Record Limit := mkLimit {
  cap : nat;          (* cap(l.pool), fixed by make *)
  qcount : nat;       (* len(l.pool) *)
  sendq : list gid    (* goroutines blocked in l.pool <- lang.Placeholder *)
}.

(** [NewLimit(n)]: [make(chan T, n)] panics for a negative size. *)
Definition NewLimit (n : Z) : option Limit :=
  if (n <? 0)%Z then None
  else Some {| cap := Z.to_nat n; qcount := 0; sendq := [] |}.

(** [Borrow()], called by goroutine [g]: [l.pool <- lang.Placeholder].
    The send completes at once when the buffer has room; otherwise the
    goroutine parks in [sendq].  The boolean tells whether [Borrow] has
    returned. *)
Definition Borrow (g : gid) (l : Limit) : Limit * bool :=
  if qcount l <? cap l
  then ({| cap := cap l; qcount := S (qcount l); sendq := sendq l |}, true)
  else ({| cap := cap l; qcount := qcount l; sendq := sendq l ++ [g] |}, false).

(** [Return()]: [select { case <-l.pool: return nil; default: return
    ErrLimitReturn }].  The receive case is ready when a sender is parked
    (its element is taken directly on an unbuffered channel, or the head of
    the buffer is taken and the sender's element enters the buffer: the
    count is unchanged and the sender is woken, its [Borrow] returns) or
    when the buffer is not empty.  The third component is the goroutine
    whose [Borrow] is completed by this receive. *)
Definition Return (l : Limit) : Limit * error * option gid :=
  match sendq l with
  | g :: q => ({| cap := cap l; qcount := qcount l; sendq := q |}, None, Some g)
  | [] =>
      if 0 <? qcount l
      then ({| cap := cap l; qcount := pred (qcount l); sendq := [] |}, None, None)
      else (l, ErrLimitReturn, None)
  end.

(** [TryBorrow()]: [select { case l.pool <- lang.Placeholder: return true;
    default: return false }].  No receiver is ever parked, so the send case
    is ready exactly when the buffer has room. *)
Definition TryBorrow (l : Limit) : Limit * bool :=
  if qcount l <? cap l
  then ({| cap := cap l; qcount := S (qcount l); sendq := sendq l |}, true)
  else (l, false).

(** ** Sequences of operations, with the ledger of tokens *)

Inductive op :=
  | OBorrow (g : gid)
  | OTryBorrow
  | OReturn.

(** The channel together with two counters kept for the specification: how
    many borrows have completed ([Borrow] returned, or [TryBorrow] returned
    true) and how many returns have been accepted ([Return] returned nil). *)
Record ledger := mkLedger {
  lim : Limit;
  borrowed : nat;
  returned : nat
}.

Definition start (l : Limit) : ledger :=
  {| lim := l; borrowed := 0; returned := 0 |}.

Definition bump (b : bool) (n : nat) : nat := if b then S n else n.

Definition apply_op (o : op) (s : ledger) : ledger :=
  match o with
  | OBorrow g =>
      let '(l', ok) := Borrow g (lim s) in
      {| lim := l'; borrowed := bump ok (borrowed s); returned := returned s |}
  | OTryBorrow =>
      let '(l', ok) := TryBorrow (lim s) in
      {| lim := l'; borrowed := bump ok (borrowed s); returned := returned s |}
  | OReturn =>
      let '(l', e, woken) := Return (lim s) in
      {| lim := l';
         borrowed := bump (bool_decide (is_Some woken)) (borrowed s);
         returned := bump (bool_decide (e = None)) (returned s) |}
  end.

Definition run (ops : list op) (s : ledger) : ledger :=
  foldl (λ s o, apply_op o s) s ops.

(** Tokens borrowed and not yet returned. *)
Definition outstanding (s : ledger) : Z :=
  (Z.of_nat (borrowed s) - Z.of_nat (returned s))%Z.

(** The invariant of the channel: the ledger agrees with the buffer, the
    buffer never exceeds its capacity, and senders are parked only while the
    buffer is full. *)
Definition ledger_ok (n : nat) (s : ledger) : Prop :=
  cap (lim s) = n ∧
  borrowed s = returned s + qcount (lim s) ∧
  qcount (lim s) ≤ n ∧
  (sendq (lim s) ≠ [] → qcount (lim s) = n).

Lemma apply_op_ok n o s : ledger_ok n s → ledger_ok n (apply_op o s).
Proof.
  intros (Hc & Hb & Hq & Hs).
  destruct s as [[c q w] b r]; simpl in *; subst c.
  destruct o as [g| |]; unfold apply_op, Borrow, TryBorrow, Return; simpl.
  - destruct (Nat.ltb_spec q n); unfold ledger_ok; simpl;
      (split; [done|]); (split; [lia|]); (split; [lia|]); intros Hw.
    + specialize (Hs Hw). lia.
    + lia.
  - destruct (Nat.ltb_spec q n); unfold ledger_ok; simpl;
      (split; [done|]); (split; [lia|]); (split; [lia|]); intros Hw.
    + specialize (Hs Hw). lia.
    + auto.
  - destruct w as [|g w]; simpl.
    + destruct (Nat.ltb_spec 0 q); unfold ledger_ok; simpl;
        (split; [done|]); (split; [lia|]); (split; [lia|]); intros Hw; done.
    + unfold ledger_ok; simpl.
      (split; [done|]); (split; [lia|]); (split; [lia|]); intros _.
      by apply Hs.
Qed.

Lemma run_ok n ops s : ledger_ok n s → ledger_ok n (run ops s).
Proof.
  revert s. induction ops as [|o ops IH]; intros s Hs; simpl; [done|].
  apply IH, apply_op_ok, Hs.
Qed.

Lemma NewLimit_ok n l : NewLimit n = Some l → ledger_ok (Z.to_nat n) (start l).
Proof.
  unfold NewLimit. destruct (n <? 0)%Z; [done|]. intros [= <-].
  unfold ledger_ok; simpl. repeat split; try lia. done.
Qed.

Lemma NewLimit_nonneg n l : NewLimit n = Some l → (0 ≤ n)%Z.
Proof. unfold NewLimit. destruct (Z.ltb_spec n 0); [done|lia]. Qed.

Lemma ledger_eta (s : ledger) :
  s = {| lim := lim s; borrowed := borrowed s; returned := returned s |}.
Proof. by destruct s. Qed.

Lemma reached_ok n l0 ops :
  NewLimit n = Some l0 → ledger_ok (Z.to_nat n) (run ops (start l0)).
Proof. intros H. by apply run_ok, NewLimit_ok. Qed.

(** [TryBorrow] on a pool with room, and on a full pool. *)
Lemma TryBorrow_room l :
  qcount l < cap l →
  TryBorrow l = ({| cap := cap l; qcount := S (qcount l); sendq := sendq l |}, true).
Proof. intros H. unfold TryBorrow. by destruct (Nat.ltb_spec (qcount l) (cap l)); [|lia]. Qed.

Lemma TryBorrow_full l : cap l ≤ qcount l → TryBorrow l = (l, false).
Proof. intros H. unfold TryBorrow. by destruct (Nat.ltb_spec (qcount l) (cap l)); [lia|]. Qed.

(** [Return] when no sender is parked. *)
Lemma Return_empty l :
  sendq l = [] → qcount l = 0 → Return l = (l, ErrLimitReturn, None).
Proof. intros Hw Hq. unfold Return. by rewrite Hw, Hq. Qed.

Lemma Return_buffered l :
  sendq l = [] → 0 < qcount l →
  Return l = ({| cap := cap l; qcount := pred (qcount l); sendq := [] |}, None, None).
Proof.
  intros Hw Hq. unfold Return. rewrite Hw.
  by destruct (Nat.ltb_spec 0 (qcount l)); [|lia].
Qed.

(** [Return] when a sender is parked: the receive succeeds. *)
Lemma Return_parked l g q :
  sendq l = g :: q →
  Return l = ({| cap := cap l; qcount := qcount l; sendq := q |}, None, Some g).
Proof. intros Hw. unfold Return. by rewrite Hw. Qed.

(** C8: for a Limit made with capacity [n], after any sequence of [Borrow],
    [TryBorrow] and [Return] the number of outstanding tokens is at most
    [n]; with exactly [n] outstanding [TryBorrow] returns false and changes
    nothing; with fewer than [n] outstanding it returns true and the number
    of outstanding tokens grows by one. *)
Theorem outstanding_bounded (n : Z) (l0 : Limit) (ops : list op) :
  NewLimit n = Some l0 →
  let s := run ops (start l0) in
  (outstanding s ≤ n)%Z ∧
  (outstanding s = n →
     TryBorrow (lim s) = (lim s, false) ∧ apply_op OTryBorrow s = s) ∧
  ((outstanding s < n)%Z →
     (TryBorrow (lim s)).2 = true ∧
     outstanding (apply_op OTryBorrow s) = (outstanding s + 1)%Z).
Proof.
  intros Hnew s.
  pose proof (NewLimit_nonneg _ _ Hnew) as Hn.
  destruct (reached_ok n l0 ops Hnew) as (Hc & Hb & Hq & Hs). fold s in Hc, Hb, Hq, Hs.
  unfold outstanding. split; [lia|]. split.
  - intros Hfull. assert (cap (lim s) ≤ qcount (lim s)) as Hle by lia.
    split; [by apply TryBorrow_full|].
    unfold apply_op. rewrite (TryBorrow_full _ Hle). simpl. symmetry. apply ledger_eta.
  - intros Hroom. assert (qcount (lim s) < cap (lim s)) as Hlt by lia.
    unfold apply_op. rewrite (TryBorrow_room _ Hlt). simpl. split; [done|lia].
Qed.

Lemma outstanding_bounded_witness :
  ∃ l0, NewLimit 2 = Some l0 ∧
    let s := run [OTryBorrow; OBorrow 1; OBorrow 2; OReturn] (start l0) in
    (outstanding s ≤ 2)%Z ∧
    (outstanding s = 2%Z →
       TryBorrow (lim s) = (lim s, false) ∧ apply_op OTryBorrow s = s) ∧
    ((outstanding s < 2)%Z →
       (TryBorrow (lim s)).2 = true ∧
       outstanding (apply_op OTryBorrow s) = (outstanding s + 1)%Z).
Proof.
  eexists. split; [reflexivity|].
  apply (outstanding_bounded 2 _ [OTryBorrow; OBorrow 1; OBorrow 2; OReturn]).
  reflexivity.
Defined.

(** C7 as stated fails on a Limit of capacity zero on which a goroutine is
    parked in [Borrow]: no token is borrowed, yet [Return] receives from the
    parked sender, returns nil and changes the channel. *)
Lemma Return_over_release_counterexample :
  ∃ l0, NewLimit 0 = Some l0 ∧
    let s := run [OBorrow 7] (start l0) in
    outstanding s = 0%Z ∧
    Return (lim s) = ({| cap := 0; qcount := 0; sendq := [] |}, None, Some 7) ∧
    (Return (lim s)).1.2 ≠ ErrLimitReturn ∧
    (Return (lim s)).1.1 ≠ lim s.
Proof. eexists. split; [reflexivity|]. simpl. repeat split; discriminate. Qed.

(** C7 (amended): on a Limit on which no [Borrow] call is blocked, which is
    always so for a positive capacity with zero tokens borrowed, [Return]
    with zero tokens borrowed returns [ErrLimitReturn] and leaves the state
    unchanged, so whatever follows behaves as without the over-release;
    [Return] with at least one token borrowed and no [Borrow] blocked
    returns nil and decreases the number of outstanding tokens by one. *)
Theorem Return_over_release (n : Z) (l0 : Limit) (ops : list op) :
  NewLimit n = Some l0 →
  let s := run ops (start l0) in
  (outstanding s = 0%Z → sendq (lim s) = [] ∨ (0 < n)%Z →
     sendq (lim s) = [] ∧
     Return (lim s) = (lim s, ErrLimitReturn, None) ∧
     apply_op OReturn s = s ∧
     ∀ rest, run (OReturn :: rest) s = run rest s) ∧
  ((0 < outstanding s)%Z → sendq (lim s) = [] →
     (Return (lim s)).1.2 = None ∧
     outstanding (apply_op OReturn s) = (outstanding s - 1)%Z).
Proof.
  intros Hnew s.
  destruct (reached_ok n l0 ops Hnew) as (Hc & Hb & Hq & Hs). fold s in Hc, Hb, Hq, Hs.
  unfold outstanding. split.
  - intros Hzero Hfree. assert (qcount (lim s) = 0) as Hq0 by lia.
    assert (sendq (lim s) = []) as Hw.
    { destruct Hfree as [|Hpos]; [done|].
      destruct (sendq (lim s)) as [|g q] eqn:E; [done|].
      assert (qcount (lim s) = Z.to_nat n) by (apply Hs; done). lia. }
    assert (apply_op OReturn s = s) as Hid.
    { unfold apply_op. rewrite (Return_empty _ Hw Hq0). simpl.
      symmetry. apply ledger_eta. }
    split; [done|]. split; [by apply Return_empty|]. split; [done|].
    intros rest.
    change (run (OReturn :: rest) s) with (run rest (apply_op OReturn s)).
    by rewrite Hid.
  - intros Hpos Hw. assert (0 < qcount (lim s)) as Hq1 by lia.
    unfold apply_op. rewrite (Return_buffered _ Hw Hq1). simpl. split; [done|lia].
Qed.

Lemma Return_over_release_witness :
  ∃ l0, NewLimit 1 = Some l0 ∧
    let s := run [OTryBorrow; OReturn] (start l0) in
    (outstanding s = 0%Z → sendq (lim s) = [] ∨ (0 < 1)%Z →
       sendq (lim s) = [] ∧
       Return (lim s) = (lim s, ErrLimitReturn, None) ∧
       apply_op OReturn s = s ∧
       ∀ rest, run (OReturn :: rest) s = run rest s) ∧
    ((0 < outstanding s)%Z → sendq (lim s) = [] →
       (Return (lim s)).1.2 = None ∧
       outstanding (apply_op OReturn s) = (outstanding s - 1)%Z).
Proof.
  eexists. split; [reflexivity|].
  apply (Return_over_release 1 _ [OTryBorrow; OReturn]). reflexivity.
Defined.

(** C9 as stated fails in the state of a zero-capacity Limit with a
    goroutine parked in [Borrow]: [Return] returns nil there. *)
Lemma zero_capacity_Return_counterexample :
  ∃ l0, NewLimit 0 = Some l0 ∧
    (Return (lim (run [OBorrow 3] (start l0)))).1.2 = None ∧
    (Return (lim (run [OBorrow 3] (start l0)))).1.2 ≠ ErrLimitReturn.
Proof. eexists. split; [reflexivity|]. simpl. split; [done|discriminate]. Qed.

(** C9 (amended): on a Limit of capacity zero, in every state, [TryBorrow]
    returns false and changes nothing; [Return] returns [ErrLimitReturn]
    whenever no [Borrow] call is blocked, and returns nil, completing the
    oldest blocked [Borrow], otherwise. *)
Theorem zero_capacity (l0 : Limit) (ops : list op) :
  NewLimit 0 = Some l0 →
  let s := run ops (start l0) in
  TryBorrow (lim s) = (lim s, false) ∧
  (sendq (lim s) = [] → Return (lim s) = (lim s, ErrLimitReturn, None)) ∧
  (∀ g q, sendq (lim s) = g :: q →
     Return (lim s) = ({| cap := 0; qcount := 0; sendq := q |}, None, Some g)).
Proof.
  intros Hnew s.
  destruct (reached_ok 0 l0 ops Hnew) as (Hc & Hb & Hq & Hs). fold s in Hc, Hb, Hq, Hs.
  simpl in Hc, Hq. assert (qcount (lim s) = 0) as Hq0 by lia.
  split; [apply TryBorrow_full; lia|]. split.
  - intros Hw. by apply Return_empty.
  - intros g q Hw. rewrite (Return_parked _ _ _ Hw). by rewrite Hc, Hq0.
Qed.

Lemma zero_capacity_witness :
  ∃ l0, NewLimit 0 = Some l0 ∧
    let s := run [OBorrow 1; OTryBorrow; OReturn; OReturn] (start l0) in
    TryBorrow (lim s) = (lim s, false) ∧
    (sendq (lim s) = [] → Return (lim s) = (lim s, ErrLimitReturn, None)) ∧
    (∀ g q, sendq (lim s) = g :: q →
       Return (lim s) = ({| cap := 0; qcount := 0; sendq := q |}, None, Some g)).
Proof.
  eexists. split; [reflexivity|].
  apply (zero_capacity _ [OBorrow 1; OTryBorrow; OReturn; OReturn]). reflexivity.
Defined.

(** ** Further properties of Limit *)

Lemma TryBorrow_ledger n s :
  ledger_ok n s →
  ledger_ok n (apply_op OTryBorrow s) ∧
  outstanding (apply_op OTryBorrow s) =
    Z.min (outstanding s + 1) (Z.of_nat n).
Proof.
  intros Hok. split; [by apply apply_op_ok|].
  destruct Hok as (Hc & Hb & Hq & Hs). unfold outstanding, apply_op.
  destruct (decide (qcount (lim s) < n)) as [Hlt|Hge].
  - rewrite TryBorrow_room by lia. simpl. lia.
  - rewrite TryBorrow_full by lia. simpl. lia.
Qed.

Lemma TryBorrow_repeated n k : ∀ s,
  ledger_ok n s →
  ledger_ok n (run (replicate k OTryBorrow) s) ∧
  outstanding (run (replicate k OTryBorrow) s) =
    Z.min (outstanding s + Z.of_nat k) (Z.of_nat n).
Proof.
  induction k as [|k IH]; intros s Hok.
  - split; [done|]. destruct Hok as (Hc & Hb & Hq & Hs).
    unfold outstanding. simpl. lia.
  - destruct (TryBorrow_ledger n s Hok) as (Hok1 & Ho1).
    destruct (IH _ Hok1) as (Hok2 & Ho2).
    change (run (replicate (S k) OTryBorrow) s)
      with (run (replicate k OTryBorrow) (apply_op OTryBorrow s)).
    split; [done|]. rewrite Ho2, Ho1. lia.
Qed.

(** X1: A fresh Limit of capacity [n] lends exactly [n] tokens: after [k] calls
    of [TryBorrow] and nothing else, [min k n] tokens are outstanding, and
    the next call succeeds exactly when [k < n]. *)
Theorem fresh_Limit_lends_capacity (n : Z) (l0 : Limit) (k : nat) :
  NewLimit n = Some l0 →
  let s := run (replicate k OTryBorrow) (start l0) in
  outstanding s = Z.min (Z.of_nat k) n ∧
  (TryBorrow (lim s)).2 = bool_decide (Z.of_nat k < n)%Z.
Proof.
  intros Hnew s. pose proof (NewLimit_nonneg _ _ Hnew) as Hn.
  destruct (TryBorrow_repeated (Z.to_nat n) k (start l0) (NewLimit_ok _ _ Hnew))
    as ((Hc & Hb & Hq & Hs) & Ho).
  fold s in Hc, Hb, Hq, Hs, Ho.
  assert (outstanding s = Z.min (Z.of_nat k) n) as Hout.
  { rewrite Ho. unfold outstanding. simpl. lia. }
  split; [done|]. unfold outstanding in Hout.
  destruct (decide (Z.of_nat k < n)%Z) as [Hlt|Hge].
  - rewrite bool_decide_eq_true_2 by done. rewrite TryBorrow_room; [done|lia].
  - rewrite bool_decide_eq_false_2 by done. rewrite TryBorrow_full; [done|lia].
Qed.

Lemma fresh_Limit_lends_capacity_witness :
  ∃ l0, NewLimit 3 = Some l0 ∧
    let s := run (replicate 5 OTryBorrow) (start l0) in
    outstanding s = Z.min 5 3 ∧
    (TryBorrow (lim s)).2 = bool_decide (5 < 3)%Z.
Proof.
  eexists. split; [reflexivity|].
  apply (fresh_Limit_lends_capacity 3 _ 5). reflexivity.
Defined.

(** X2: [Borrow] returns at once, with one more token outstanding, when fewer
    than [n] are outstanding; when [n] are outstanding the caller is parked
    behind the callers already blocked, and the number of outstanding
    tokens stays [n]. *)
Theorem Borrow_blocks_when_full (n : Z) (l0 : Limit) (ops : list op) (g : gid) :
  NewLimit n = Some l0 →
  let s := run ops (start l0) in
  let s' := apply_op (OBorrow g) s in
  ((outstanding s < n)%Z →
     (Borrow g (lim s)).2 = true ∧ outstanding s' = (outstanding s + 1)%Z ∧
     sendq (lim s) = [] ∧ sendq (lim s') = []) ∧
  (outstanding s = n →
     (Borrow g (lim s)).2 = false ∧ outstanding s' = n ∧
     qcount (lim s') = qcount (lim s) ∧
     sendq (lim s') = sendq (lim s) ++ [g]).
Proof.
  intros Hnew s s'. pose proof (NewLimit_nonneg _ _ Hnew) as Hn.
  destruct (reached_ok n l0 ops Hnew) as (Hc & Hb & Hq & Hs).
  fold s in Hc, Hb, Hq, Hs. unfold s', outstanding, apply_op, Borrow.
  split.
  - intros Hlt. destruct (Nat.ltb_spec (qcount (lim s)) (cap (lim s))); [|lia].
    simpl. assert (sendq (lim s) = []) as Hw.
    { destruct (sendq (lim s)) eqn:E; [done|]. assert (qcount (lim s) = Z.to_nat n) by (by apply Hs). lia. }
    repeat split; (done || lia).
  - intros Hfull. destruct (Nat.ltb_spec (qcount (lim s)) (cap (lim s))); [lia|].
    simpl. repeat split; (done || lia).
Qed.

Lemma Borrow_blocks_when_full_witness :
  ∃ l0, NewLimit 1 = Some l0 ∧
    let s := run [OTryBorrow] (start l0) in
    let s' := apply_op (OBorrow 4) s in
    ((outstanding s < 1)%Z →
       (Borrow 4 (lim s)).2 = true ∧ outstanding s' = (outstanding s + 1)%Z ∧
       sendq (lim s) = [] ∧ sendq (lim s') = []) ∧
    (outstanding s = 1%Z →
       (Borrow 4 (lim s)).2 = false ∧ outstanding s' = 1%Z ∧
       qcount (lim s') = qcount (lim s) ∧
       sendq (lim s') = sendq (lim s) ++ [4]).
Proof.
  eexists. split; [reflexivity|].
  apply (Borrow_blocks_when_full 1 _ [OTryBorrow] 4). reflexivity.
Defined.

(** X3: While a [Borrow] call is blocked, all [n] tokens are outstanding, and
    [Return] returns nil and completes the blocked call that has waited
    longest: the token passes from the caller of [Return] to that
    borrower, and [n] tokens are outstanding afterwards. *)
Theorem Return_completes_blocked_Borrow (n : Z) (l0 : Limit) (ops : list op)
    (g : gid) (q : list gid) :
  NewLimit n = Some l0 →
  let s := run ops (start l0) in
  sendq (lim s) = g :: q →
  outstanding s = n ∧
  Return (lim s) =
    ({| cap := cap (lim s); qcount := qcount (lim s); sendq := q |}, None, Some g) ∧
  outstanding (apply_op OReturn s) = n ∧
  borrowed (apply_op OReturn s) = S (borrowed s) ∧
  returned (apply_op OReturn s) = S (returned s).
Proof.
  intros Hnew s Hw. pose proof (NewLimit_nonneg _ _ Hnew) as Hn.
  destruct (reached_ok n l0 ops Hnew) as (Hc & Hb & Hq & Hs).
  fold s in Hc, Hb, Hq, Hs.
  assert (qcount (lim s) = Z.to_nat n) as Hfull by (apply Hs; by rewrite Hw).
  unfold outstanding, apply_op. rewrite (Return_parked _ _ _ Hw). simpl.
  repeat split; (done || lia).
Qed.

Lemma Return_completes_blocked_Borrow_witness :
  ∃ l0, NewLimit 1 = Some l0 ∧
    let s := run [OBorrow 1; OBorrow 2; OBorrow 3] (start l0) in
    sendq (lim s) = [2; 3] ∧
    outstanding s = 1%Z ∧
    Return (lim s) =
      ({| cap := cap (lim s); qcount := qcount (lim s); sendq := [3] |},
       None, Some 2) ∧
    outstanding (apply_op OReturn s) = 1%Z ∧
    borrowed (apply_op OReturn s) = S (borrowed s) ∧
    returned (apply_op OReturn s) = S (returned s).
Proof.
  eexists. split; [reflexivity|]. split; [reflexivity|].
  apply (Return_completes_blocked_Borrow 1 _ [OBorrow 1; OBorrow 2; OBorrow 3] 2 [3]);
    reflexivity.
Defined.

(** X4: On a Limit on which no call is blocked, [Borrow] followed by [Return]
    gives back the Limit as it was, and [Return] returns nil: either the
    token lent is taken back, or, on a full Limit, the blocked [Borrow] is
    completed with the token of the caller of [Return]. *)
Theorem Borrow_Return_restores (l : Limit) (g : gid) :
  sendq l = [] →
  Return (Borrow g l).1 =
    (l, None, if qcount l <? cap l then None else Some g).
Proof.
  intros Hw. destruct l as [c n w]. simpl in Hw. subst w.
  unfold Borrow, Return. simpl. by destruct (n <? c).
Qed.

Lemma Borrow_Return_restores_witness :
  let l := {| cap := 2; qcount := 2; sendq := [] |} in
  sendq l = [] ∧ Return (Borrow 9 l).1 = (l, None, Some 9).
Proof.
  intros l. split; [reflexivity|].
  apply (Borrow_Return_restores l 9). reflexivity.
Defined.

End Limit.

(* ===================================================================== *)
(** * singleflight.go and resourcemanager.go *)
(* ===================================================================== *)

Module Flight.

(** ** Values *)

(** A concrete closeable resource (a value of a type with a [Close]
    method), named by its identity. *)
Definition Closer := nat.

(** A value of interface type [io.Closer]: [None] is the nil interface. *)
Definition io_Closer := option Closer.

(** A value of type [any]: the nil interface, a dynamic value whose type
    implements [io.Closer], or a dynamic value of another type. *)
Inductive any :=
  | any_nil
  | any_closer (r : Closer)
  | any_other (z : Z).

(** Conversion of an [io.Closer] to [any] at [return resource, nil]
    (resourcemanager.go, lines 208 and 220): a nil interface stays nil. *)
Definition to_any (r : io_Closer) : any :=
  match r with
  | None => any_nil
  | Some c => any_closer c
  end.

(** The type assertion [val.(io.Closer)] (line 226): it panics ([None]) on
    the nil interface and on a dynamic type without [Close]. *)
Definition assert_Closer (v : any) : option io_Closer :=
  match v with
  | any_closer c => Some (Some c)
  | any_nil | any_other _ => None
  end.

(** Caller identifiers: one per call of [Do], [DoEx] or [GetResource]. *)
Abbreviation tid := nat.

(** [*call]: the index of a call record in the heap. *)
Abbreviation ptr := nat.

(** [call] (singleflight.go, lines 32-36).  [wg] is the counter of the
    WaitGroup.  [owner] is not a field of the source: it records which
    caller allocated the record and is never read by [step]. *)
Record call := mkCall {
  wg : nat;
  val : any;
  err : error;
  owner : tid
}.

(** What a caller has returned. *)
Inductive result :=
  | RDo (v : any) (e : error)
  | RDoEx (v : any) (fresh : bool) (e : error)
  | RGetResource (r : io_Closer) (e : error).

(** Program points of a caller, with the live local variables.  The line
    numbers are those of singleflight.go ([CreateCall_], [MakeCall_],
    [Return_]) and of resourcemanager.go ([Fn_], the closure passed to [Do]
    by [GetResource], and [Get_Check]). *)
Inductive PC :=
  | CreateCall_Lock                       (* 97: g.lock.Lock() *)
  | CreateCall_Lookup                     (* 98: c, ok := g.calls[key] *)
  | CreateCall_UnlockFound (c : ptr)      (* 99: g.lock.Unlock() *)
  | CreateCall_Wait (c : ptr)             (* 100: c.wg.Wait() *)
  | CreateCall_New                        (* 104-106: new, Add(1), g.calls[key] = c *)
  | CreateCall_UnlockNew (c : ptr)        (* 107: g.lock.Unlock() *)
  | MakeCall_Fn (c : ptr)                 (* 123: fn() of Do and DoEx *)
  | Fn_RLock (c : ptr)                    (* 204: manager.lock.RLock() *)
  | Fn_Lookup (c : ptr)                   (* 205: resource, ok := manager.resources[key] *)
  | Fn_RUnlock (c : ptr) (found : option io_Closer)  (* 206: RUnlock(); 207: if ok *)
  | Fn_Create (c : ptr)                   (* 211: resource, err := create() *)
  | Fn_Lock (c : ptr) (r : io_Closer)     (* 216: manager.lock.Lock() *)
  | Fn_Store (c : ptr) (r : io_Closer)    (* 218: manager.resources[key] = resource *)
  | Fn_Unlock (c : ptr) (r : io_Closer)   (* 217/220: deferred Unlock(), return resource, nil *)
  | MakeCall_Assign (c : ptr) (v : any) (e : error)  (* 123: c.val, c.err = ... *)
  | MakeCall_DeferLock (c : ptr)          (* 117: g.lock.Lock() *)
  | MakeCall_Delete (c : ptr)             (* 118: delete(g.calls, key) *)
  | MakeCall_DeferUnlock (c : ptr)        (* 119: g.lock.Unlock() *)
  | MakeCall_Done (c : ptr)               (* 120: c.wg.Done() *)
  | Return_ (c : ptr) (done : bool)       (* 65/69, 79/83: return c.val, ..., c.err *)
  | Get_Check (v : any) (e : error)       (* 222-226 *)
  | Finished (r : result)
  | Panicked.

Section machine.

(** The world outside the package, on which the work functions and the
    create functions act. *)
Context {W : Type}.

(** A call: which entry point, with which key and function.  A work
    function [fn func() (any, error)] is a function of the world returning
    the new world and its two results. *)
Inductive Op :=
  | OpDo (key : string) (fn : W → W * (any * error))
  | OpDoEx (key : string) (fn : W → W * (any * error))
  | OpGetResource (key : string) (create : W → W * (io_Closer * error)).

Definition key_of (o : Op) : string :=
  match o with
  | OpDo k _ | OpDoEx k _ | OpGetResource k _ => k
  end.

(** A caller.  [invoked] and [created] log the results of the invocations
    of the work function and of the create function made by this caller;
    [used] is the call record it obtained from [createCall].  The three are
    kept for the specification and never read by [step]. *)
Record caller := mkCaller {
  op : Op;
  pc : PC;
  invoked : list (any * error);
  created : list (io_Closer * error);
  used : option ptr
}.

(** The shared state: the world, the [flightGroup] ([calls] and [lock],
    lines 43-46), the heap of call records, the [ResourceManager]
    ([resources] and [lock], lines 155-159 of the second file) and the
    callers.  A mutex is [None] when unlocked; the identity of the holder
    is kept for the specification only.  The table [resources] is a map
    that has not been set to nil: the machine covers the life of a manager
    before [Close]. *)
Record state := mkState {
  world : W;
  g_lock : option tid;
  g_calls : gmap string ptr;
  heap : list call;
  m_readers : gset tid;
  m_writer : option tid;
  resources : gmap string io_Closer;
  callers : list caller
}.

Arguments key_of : simpl never.

Definition goto (p : PC) (th : caller) : caller :=
  {| op := op th; pc := p; invoked := invoked th; created := created th;
     used := used th |}.

Definition set_used (c : ptr) (th : caller) : caller :=
  {| op := op th; pc := pc th; invoked := invoked th; created := created th;
     used := Some c |}.

Definition log_invoked (r : any * error) (th : caller) : caller :=
  {| op := op th; pc := pc th; invoked := invoked th ++ [r];
     created := created th; used := used th |}.

Definition log_created (r : io_Closer * error) (th : caller) : caller :=
  {| op := op th; pc := pc th; invoked := invoked th;
     created := created th ++ [r]; used := used th |}.

Definition set_caller (t : tid) (th : caller) (s : state) : state :=
  {| world := world s; g_lock := g_lock s; g_calls := g_calls s;
     heap := heap s; m_readers := m_readers s; m_writer := m_writer s;
     resources := resources s; callers := <[t := th]> (callers s) |}.

Definition set_world (w : W) (s : state) : state :=
  {| world := w; g_lock := g_lock s; g_calls := g_calls s;
     heap := heap s; m_readers := m_readers s; m_writer := m_writer s;
     resources := resources s; callers := callers s |}.

Definition set_g_lock (l : option tid) (s : state) : state :=
  {| world := world s; g_lock := l; g_calls := g_calls s;
     heap := heap s; m_readers := m_readers s; m_writer := m_writer s;
     resources := resources s; callers := callers s |}.

Definition set_g_calls (m : gmap string ptr) (s : state) : state :=
  {| world := world s; g_lock := g_lock s; g_calls := m;
     heap := heap s; m_readers := m_readers s; m_writer := m_writer s;
     resources := resources s; callers := callers s |}.

Definition set_heap (h : list call) (s : state) : state :=
  {| world := world s; g_lock := g_lock s; g_calls := g_calls s;
     heap := h; m_readers := m_readers s; m_writer := m_writer s;
     resources := resources s; callers := callers s |}.

Definition set_m_readers (r : gset tid) (s : state) : state :=
  {| world := world s; g_lock := g_lock s; g_calls := g_calls s;
     heap := heap s; m_readers := r; m_writer := m_writer s;
     resources := resources s; callers := callers s |}.

Definition set_m_writer (l : option tid) (s : state) : state :=
  {| world := world s; g_lock := g_lock s; g_calls := g_calls s;
     heap := heap s; m_readers := m_readers s; m_writer := l;
     resources := resources s; callers := callers s |}.

Definition set_resources (m : gmap string io_Closer) (s : state) : state :=
  {| world := world s; g_lock := g_lock s; g_calls := g_calls s;
     heap := heap s; m_readers := m_readers s; m_writer := m_writer s;
     resources := m; callers := callers s |}.

(** The writes to a call record. *)
Definition assign (v : any) (e : error) (r : call) : call :=
  {| wg := wg r; val := v; err := e; owner := owner r |}.

Definition wg_done (r : call) : call :=
  {| wg := pred (wg r); val := val r; err := err r; owner := owner r |}.

(** Where a leader goes after [createCall] returned [(c, false)]: to the
    call of its work function (line 123), which for [GetResource] is the
    closure of lines 203-221. *)
Definition enter_fn (o : Op) (c : ptr) : PC :=
  match o with
  | OpDo _ _ | OpDoEx _ _ => MakeCall_Fn c
  | OpGetResource _ _ => Fn_RLock c
  end.

(** The last statements of [GetResource] (lines 222-226). *)
Definition check (v : any) (e : error) : PC :=
  match e with
  | Some _ => Finished (RGetResource None e)
  | None =>
      match assert_Closer v with
      | Some r => Finished (RGetResource r None)
      | None => Panicked
      end
  end.

(** The return statement of [Do] (lines 65, 69) and of [DoEx] (lines 79,
    83); for [GetResource] the results of [Do] are assigned to [val, err]
    (line 203). *)
Definition ret (o : Op) (done : bool) (r : call) : PC :=
  match o with
  | OpDo _ _ => Finished (RDo (val r) (err r))
  | OpDoEx _ _ => Finished (RDoEx (val r) (negb done) (err r))
  | OpGetResource _ _ => Get_Check (val r) (err r)
  end.

(** [step t s]: caller [t] executes its next statement.  [None] when the
    caller does not exist, has returned, or is blocked (on a held lock or
    on the WaitGroup of a call still running). *)
Definition step (t : tid) (s : state) : option state :=
  th ← callers s !! t;
  let k := key_of (op th) in
  match pc th with
  | CreateCall_Lock =>
      match g_lock s with
      | Some _ => None
      | None => Some (set_caller t (goto CreateCall_Lookup th) (set_g_lock (Some t) s))
      end
  | CreateCall_Lookup =>
      match g_calls s !! k with
      | Some c => Some (set_caller t (goto (CreateCall_UnlockFound c) (set_used c th)) s)
      | None => Some (set_caller t (goto CreateCall_New th) s)
      end
  | CreateCall_UnlockFound c =>
      match g_lock s with
      | None => None
      | Some _ => Some (set_caller t (goto (CreateCall_Wait c) th) (set_g_lock None s))
      end
  | CreateCall_Wait c =>
      r ← heap s !! c;
      if decide (wg r = 0)
      then Some (set_caller t (goto (Return_ c true) th) s)
      else None
  | CreateCall_New =>
      let c := length (heap s) in
      let r := {| wg := 1; val := any_nil; err := None; owner := t |} in
      Some (set_caller t (goto (CreateCall_UnlockNew c) (set_used c th))
              (set_g_calls (<[k := c]> (g_calls s)) (set_heap (heap s ++ [r]) s)))
  | CreateCall_UnlockNew c =>
      match g_lock s with
      | None => None
      | Some _ => Some (set_caller t (goto (enter_fn (op th) c) th) (set_g_lock None s))
      end
  | MakeCall_Fn c =>
      match op th with
      | OpDo _ fn | OpDoEx _ fn =>
          let '(w', r) := fn (world s) in
          Some (set_caller t (goto (MakeCall_Assign c r.1 r.2) (log_invoked r th))
                  (set_world w' s))
      | OpGetResource _ _ => None
      end
  | Fn_RLock c =>
      match m_writer s with
      | Some _ => None
      | None => Some (set_caller t (goto (Fn_Lookup c) th)
                        (set_m_readers ({[t]} ∪ m_readers s) s))
      end
  | Fn_Lookup c =>
      Some (set_caller t (goto (Fn_RUnlock c (resources s !! k)) th) s)
  | Fn_RUnlock c found =>
      let p := match found with
               | Some r => MakeCall_Assign c (to_any r) None
               | None => Fn_Create c
               end in
      Some (set_caller t (goto p th) (set_m_readers (m_readers s ∖ {[t]}) s))
  | Fn_Create c =>
      match op th with
      | OpGetResource _ create =>
          let '(w', r) := create (world s) in
          let p := match r.2 with
                   | Some e => MakeCall_Assign c any_nil (Some e)
                   | None => Fn_Lock c r.1
                   end in
          Some (set_caller t (goto p (log_created r th)) (set_world w' s))
      | OpDo _ _ | OpDoEx _ _ => None
      end
  | Fn_Lock c r =>
      match m_writer s with
      | Some _ => None
      | None =>
          if decide (m_readers s = ∅)
          then Some (set_caller t (goto (Fn_Store c r) th) (set_m_writer (Some t) s))
          else None
      end
  | Fn_Store c r =>
      Some (set_caller t (goto (Fn_Unlock c r) th)
              (set_resources (<[k := r]> (resources s)) s))
  | Fn_Unlock c r =>
      match m_writer s with
      | None => None
      | Some _ => Some (set_caller t (goto (MakeCall_Assign c (to_any r) None) th)
                          (set_m_writer None s))
      end
  | MakeCall_Assign c v e =>
      r ← heap s !! c;
      Some (set_caller t (goto (MakeCall_DeferLock c) th)
              (set_heap (<[c := assign v e r]> (heap s)) s))
  | MakeCall_DeferLock c =>
      match g_lock s with
      | Some _ => None
      | None => Some (set_caller t (goto (MakeCall_Delete c) th) (set_g_lock (Some t) s))
      end
  | MakeCall_Delete c =>
      Some (set_caller t (goto (MakeCall_DeferUnlock c) th)
              (set_g_calls (delete k (g_calls s)) s))
  | MakeCall_DeferUnlock c =>
      match g_lock s with
      | None => None
      | Some _ => Some (set_caller t (goto (MakeCall_Done c) th) (set_g_lock None s))
      end
  | MakeCall_Done c =>
      r ← heap s !! c;
      if decide (wg r = 0) then None
      else Some (set_caller t (goto (Return_ c false) th)
                   (set_heap (<[c := wg_done r]> (heap s)) s))
  | Return_ c done =>
      r ← heap s !! c;
      Some (set_caller t (goto (ret (op th) done r) th) s)
  | Get_Check v e =>
      Some (set_caller t (goto (check v e) th) s)
  | Finished _ | Panicked => None
  end.

(** A schedule is the list of the callers that run, in order; a caller that
    cannot run when its turn comes is skipped. *)
Definition exec_step (s : state) (t : tid) : state :=
  default s (step t s).

Definition exec (sched : list tid) (s : state) : state :=
  foldl exec_step s sched.

(** [caller t] runs [n] statements on its own. *)
Definition solo (t : tid) (n : nat) (s : state) : state :=
  exec (replicate n t) s.

(** The state after [NewSingleFlight()] and [NewResourceManager()], with
    the table [tbl] (the resources injected so far), and one caller per
    call, none of which has started. *)
Definition spawn (o : Op) : caller :=
  {| op := o; pc := CreateCall_Lock; invoked := []; created := []; used := None |}.

Definition init (w : W) (tbl : gmap string io_Closer) (ops : list Op) : state :=
  {| world := w; g_lock := None; g_calls := ∅; heap := [];
     m_readers := ∅; m_writer := None; resources := tbl;
     callers := spawn <$> ops |}.

Inductive reachable (s0 : state) : state → Prop :=
  | reachable_refl : reachable s0 s0
  | reachable_step s t s' :
      reachable s0 s → step t s = Some s' → reachable s0 s'.

(** ** The invariant of the machine *)

(** Program points at which [g.lock], the read lock and the write lock of
    [manager.lock] are held. *)
Definition holds_g (p : PC) : Prop :=
  match p with
  | CreateCall_Lookup | CreateCall_UnlockFound _ | CreateCall_New
  | CreateCall_UnlockNew _ | MakeCall_Delete _ | MakeCall_DeferUnlock _ => True
  | _ => False
  end.

Definition holds_r (p : PC) : Prop :=
  match p with
  | Fn_Lookup _ | Fn_RUnlock _ _ => True
  | _ => False
  end.

Definition holds_w (p : PC) : Prop :=
  match p with
  | Fn_Store _ _ | Fn_Unlock _ _ => True
  | _ => False
  end.

(** Program points before [createCall] has obtained a call record. *)
Definition pre (p : PC) : Prop :=
  match p with
  | CreateCall_Lock | CreateCall_Lookup | CreateCall_New => True
  | _ => False
  end.

(** The call record a program point works on, and whether the caller
    joined it ([done] of [createCall]). *)
Definition pc_call (p : PC) : option (ptr * bool) :=
  match p with
  | CreateCall_UnlockFound c | CreateCall_Wait c => Some (c, true)
  | Return_ c d => Some (c, d)
  | CreateCall_UnlockNew c | MakeCall_Fn c | Fn_RLock c | Fn_Lookup c
  | Fn_RUnlock c _ | Fn_Create c | Fn_Lock c _ | Fn_Store c _ | Fn_Unlock c _
  | MakeCall_Assign c _ _ | MakeCall_DeferLock c | MakeCall_Delete c
  | MakeCall_DeferUnlock c | MakeCall_Done c => Some (c, false)
  | _ => None
  end.

(** The life of a call record, seen from the caller that created it: the
    work function is [Running]; its results are [Assigned] to the record;
    the key is [Removed] from the registry; the WaitGroup is [Signalled]. *)
Inductive phase := Running | Assigned | Removed | Signalled.

Definition phase_of (p : PC) : option phase :=
  match p with
  | CreateCall_UnlockNew _ | MakeCall_Fn _ | Fn_RLock _ | Fn_Lookup _
  | Fn_RUnlock _ _ | Fn_Create _ | Fn_Lock _ _ | Fn_Store _ _ | Fn_Unlock _ _
  | MakeCall_Assign _ _ _ => Some Running
  | MakeCall_DeferLock _ | MakeCall_Delete _ => Some Assigned
  | MakeCall_DeferUnlock _ | MakeCall_Done _ => Some Removed
  | Return_ _ false | Get_Check _ _ | Finished _ | Panicked => Some Signalled
  | _ => None
  end.

Definition registered (ph : phase) : Prop :=
  match ph with
  | Running | Assigned => True
  | Removed | Signalled => False
  end.

Definition wg_of (ph : phase) : nat :=
  match ph with
  | Signalled => 0
  | _ => 1
  end.

Definition is_get (o : Op) : Prop :=
  match o with
  | OpGetResource _ _ => True
  | _ => False
  end.

(** Where a caller can be once it has read the record [r] at its return
    statement. *)
Definition returned_from (th : caller) (done : bool) (r : call) : Prop :=
  pc th = ret (op th) done r ∨ (is_get (op th) ∧ pc th = check (val r) (err r)).

(** The log of work function results of the creator of [r], for [Do] and
    [DoEx]: empty until the function has run, then its one result, which is
    what the record holds once assigned. *)
Definition own_log (th : caller) (r : call) (ph : phase) : Prop :=
  match op th with
  | OpGetResource _ _ => True
  | _ =>
      match pc th with
      | MakeCall_Assign _ v e => invoked th = [(v, e)]
      | _ =>
          match ph with
          | Running => invoked th = []
          | _ => invoked th = [(val r, err r)]
          end
      end
  end.

Definition own_pc (th : caller) (c : ptr) (r : call) (ph : phase) : Prop :=
  match ph with
  | Signalled => pc th = Return_ c false ∨ returned_from th false r
  | _ => pc_call (pc th) = Some (c, false)
  end.

Record Inv (s : state) : Prop := mkInv {
  inv_lock_g : ∀ t th, callers s !! t = Some th →
    (g_lock s = Some t ↔ holds_g (pc th));
  inv_lock_w : ∀ t th, callers s !! t = Some th →
    (m_writer s = Some t ↔ holds_w (pc th));
  inv_lock_r : ∀ t th, callers s !! t = Some th →
    (t ∈ m_readers s ↔ holds_r (pc th));
  inv_lock_live :
    (∀ t, g_lock s = Some t → is_Some (callers s !! t)) ∧
    (∀ t, m_writer s = Some t → is_Some (callers s !! t) ∧ m_readers s = ∅) ∧
    (∀ t, t ∈ m_readers s → is_Some (callers s !! t));
  inv_pre : ∀ t th, callers s !! t = Some th →
    (pre (pc th) ↔ used th = None) ∧
    (pre (pc th) → invoked th = [] ∧ created th = []);
  inv_new : ∀ t th, callers s !! t = Some th →
    pc th = CreateCall_New → g_calls s !! key_of (op th) = None;
  inv_used : ∀ t th c j, callers s !! t = Some th →
    pc_call (pc th) = Some (c, j) → used th = Some c;
  inv_logs : ∀ t th, callers s !! t = Some th →
    match op th with
    | OpGetResource _ _ => invoked th = []
    | _ => created th = []
    end;
  inv_fnpc : ∀ t th, callers s !! t = Some th →
    match pc th with
    | MakeCall_Fn _ => ¬ is_get (op th)
    | Fn_RLock _ | Fn_Lookup _ | Fn_RUnlock _ _ | Fn_Create _ | Fn_Lock _ _
    | Fn_Store _ _ | Fn_Unlock _ _ | Get_Check _ _ | Panicked => is_get (op th)
    | _ => True
    end;
  inv_rec : ∀ t th c, callers s !! t = Some th → used th = Some c →
    ∃ r tho, heap s !! c = Some r ∧ callers s !! owner r = Some tho ∧
             key_of (op tho) = key_of (op th);
  inv_role : ∀ t th c j r, callers s !! t = Some th →
    pc_call (pc th) = Some (c, j) → heap s !! c = Some r →
    if j then owner r ≠ t else owner r = t;
  inv_join : ∀ t th c r, callers s !! t = Some th → used th = Some c →
    heap s !! c = Some r → owner r ≠ t →
    invoked th = [] ∧ created th = [] ∧
    (pc th = CreateCall_UnlockFound c ∨ pc th = CreateCall_Wait c ∨
     (wg r = 0 ∧ (pc th = Return_ c true ∨ returned_from th true r)));
  inv_own : ∀ c r, heap s !! c = Some r →
    ∃ th ph, callers s !! owner r = Some th ∧ used th = Some c ∧
             phase_of (pc th) = Some ph ∧ wg r = wg_of ph ∧
             (registered ph → g_calls s !! key_of (op th) = Some c) ∧
             own_pc th c r ph ∧ own_log th r ph;
  inv_reg : ∀ k c, g_calls s !! k = Some c →
    ∃ r th ph, heap s !! c = Some r ∧ callers s !! owner r = Some th ∧
               key_of (op th) = k ∧ phase_of (pc th) = Some ph ∧ registered ph
}.

(** *** Tools *)

Lemma callers_insert (l : list caller) (t t' : tid) (th th' : caller) :
  l !! t = Some th →
  <[t := th']> l !! t' = if decide (t = t') then Some th' else l !! t'.
Proof.
  intros H. destruct (decide (t = t')) as [<-|Hne].
  - apply list_lookup_insert_eq. by eapply lookup_lt_Some.
  - by apply list_lookup_insert_ne.
Qed.

Lemma heap_insert (h : list call) (c c' : ptr) (r r' : call) :
  h !! c = Some r →
  <[c := r']> h !! c' = if decide (c = c') then Some r' else h !! c'.
Proof.
  intros H. destruct (decide (c = c')) as [<-|Hne].
  - apply list_lookup_insert_eq. by eapply lookup_lt_Some.
  - by apply list_lookup_insert_ne.
Qed.

Lemma heap_snoc (h : list call) (c : ptr) (r : call) :
  (h ++ [r]) !! c =
  if decide (c = length h) then Some r else h !! c.
Proof.
  destruct (decide (c = length h)) as [->|Hne].
  - by rewrite lookup_app_r, Nat.sub_diag.
  - destruct (decide (c < length h)).
    + by rewrite lookup_app_l.
    + rewrite !lookup_ge_None_2; [done| |]; [|rewrite length_app; simpl]; lia.
Qed.

(** Inversion of a step: one case per statement and branch, with the state
    after. *)
Ltac step_cases H :=
  let th := fresh "th" in
  let Hth := fresh "Hth" in
  let Hpc := fresh "Hpc" in
  unfold step in H;
  match type of H with
  | (?o ≫= _) = Some _ =>
      destruct o as [th|] eqn:Hth; simpl in H; [|discriminate H]
  end;
  destruct (pc th) eqn:Hpc;
  repeat match type of H with
    | None = Some _ => discriminate H
    | context [enter_fn ?o _] => destruct o eqn:?; simpl in H
    | context [ret ?o _ _] => destruct o eqn:?; simpl in H
    | context [check ?v ?e] => destruct e; [|destruct v]; simpl in H
    | context [match ?p.2 with _ => _ end] => destruct p as [? [?|]]; simpl in H
    | (if decide ?P then _ else _) = Some _ => destruct (decide P); simpl in H
    | match ?x with _ => _ end = Some _ => destruct x eqn:?; simpl in H
    | (?o ≫= _) = Some _ => destruct o eqn:?; simpl in H
    | (let '(_, _) := ?x in _) = Some _ => destruct x eqn:?; simpl in H
    | context [match ?x with Some _ => _ | None => _ end] =>
        is_var x; destruct x; simpl in H
    | Some _ = Some _ => injection H as <-
    end.

Lemma init_Inv w tbl ops : Inv (init w tbl ops).
Proof.
  assert (∀ t th, (spawn <$> ops) !! t = Some th → ∃ o, th = spawn o) as Hsp.
  { intros t th H. apply list_lookup_fmap_Some in H as (o & ? & ?); eauto. }
  split; simpl.
  - intros t th (o & ->)%Hsp. simpl. split; [done|tauto].
  - intros t th (o & ->)%Hsp. simpl. split; [done|tauto].
  - intros t th (o & ->)%Hsp. simpl. split; [set_solver|tauto].
  - split; [done|]. split; [done|set_solver].
  - intros t th (o & ->)%Hsp. simpl. tauto.
  - intros t th (o & ->)%Hsp. simpl. done.
  - intros t th c j (o & ->)%Hsp. simpl. done.
  - intros t th (o & ->)%Hsp. simpl. by destruct o.
  - intros t th (o & ->)%Hsp. simpl. done.
  - intros t th c (o & ->)%Hsp. simpl. done.
  - intros t th c j r (o & ->)%Hsp. simpl. done.
  - intros t th c r (o & ->)%Hsp. simpl. done.
  - intros c r H. done.
  - intros k c H. by rewrite lookup_empty in H.
Qed.

(** *** Preservation: locks and caller-local facts *)

Ltac know HI H :=
  pose proof (inv_lock_g _ HI _ _ H);
  pose proof (inv_lock_w _ HI _ _ H);
  pose proof (inv_lock_r _ HI _ _ H);
  pose proof (inv_pre _ HI _ _ H);
  pose proof (inv_new _ HI _ _ H);
  pose proof (inv_logs _ HI _ _ H);
  pose proof (inv_fnpc _ HI _ _ H).

(** Splits on whether the caller looked up is the one that stepped. *)
Ltac who Hth Hpc HI :=
  let Ht' := fresh "Ht'" in
  let Hne := fresh "Hne" in
  rewrite (callers_insert _ _ _ _ _ Hth);
  know HI Hth; rewrite ?Hpc in *;
  match goal with
  | |- context [decide (?a = ?b)] => destruct (decide (a = b)) as [Hne|Hne]
  end;
  intros Ht';
  [subst; injection Ht' as <-|know HI Ht'];
  simpl in *.

Lemma step_lock_g s t s' :
  Inv s → step t s = Some s' →
  ∀ t' th', callers s' !! t' = Some th' → (g_lock s' = Some t' ↔ holds_g (pc th')).
Proof.
  intros HI Hstep. step_cases Hstep.
  all: simpl; intros t' th'; who Hth Hpc HI.
  all: intuition congruence.
Qed.

Lemma step_lock_w s t s' :
  Inv s → step t s = Some s' →
  ∀ t' th', callers s' !! t' = Some th' → (m_writer s' = Some t' ↔ holds_w (pc th')).
Proof.
  intros HI Hstep. step_cases Hstep.
  all: simpl; intros t' th'; who Hth Hpc HI.
  all: intuition congruence.
Qed.

Lemma step_lock_r s t s' :
  Inv s → step t s = Some s' →
  ∀ t' th', callers s' !! t' = Some th' → (t' ∈ m_readers s' ↔ holds_r (pc th')).
Proof.
  intros HI Hstep. step_cases Hstep.
  all: simpl; intros t' th'; who Hth Hpc HI.
  all: try (intuition congruence).
  all: set_solver.
Qed.

Lemma step_lock_live s t s' :
  Inv s → step t s = Some s' →
  (∀ t, g_lock s' = Some t → is_Some (callers s' !! t)) ∧
  (∀ t, m_writer s' = Some t → is_Some (callers s' !! t) ∧ m_readers s' = ∅) ∧
  (∀ t, t ∈ m_readers s' → is_Some (callers s' !! t)).
Proof.
  intros HI Hstep.
  destruct (inv_lock_live _ HI) as (Hg & Hw & Hr).
  step_cases Hstep.
  all: know HI Hth; rewrite ?Hpc in *; simpl in *.
  all: (split; [|split]); intros t'; rewrite (callers_insert _ _ _ _ _ Hth);
    case_decide; try (by eauto); try (intuition congruence).
  all: try (intros; split; [by apply Hw|]).
  all: try (intros [= <-]; done).
  all: set_solver.
Qed.

Lemma step_pre s t s' :
  Inv s → step t s = Some s' →
  ∀ t' th', callers s' !! t' = Some th' →
    (pre (pc th') ↔ used th' = None) ∧
    (pre (pc th') → invoked th' = [] ∧ created th' = []).
Proof.
  intros HI Hstep. step_cases Hstep.
  all: simpl; intros t' th'; who Hth Hpc HI.
  all: try (intuition congruence).
Qed.

Lemma step_new s t s' :
  Inv s → step t s = Some s' →
  ∀ t' th', callers s' !! t' = Some th' →
    pc th' = CreateCall_New → g_calls s' !! key_of (op th') = None.
Proof.
  intros HI Hstep. step_cases Hstep.
  all: simpl; intros t' th'; who Hth Hpc HI.
  all: try (intuition congruence).
  - intros Hn. rewrite Hn in *. simpl in *. intuition congruence.
  - intros Hn. rewrite lookup_delete_None. auto.
Qed.

Lemma step_used s t s' :
  Inv s → step t s = Some s' →
  ∀ t' th' c j, callers s' !! t' = Some th' →
    pc_call (pc th') = Some (c, j) → used th' = Some c.
Proof.
  intros HI Hstep. step_cases Hstep.
  all: simpl; intros t' th' c' j'; who Hth Hpc HI.
  all: try (by eapply (inv_used _ HI)).
  all: try (intros [= <- <-]; eapply (inv_used _ HI _ _ _ _ Hth); by rewrite Hpc).
  all: try (intros [= <- <-]; done).
  all: try done.
Qed.

Lemma step_logs s t s' :
  Inv s → step t s = Some s' →
  ∀ t' th', callers s' !! t' = Some th' →
    match op th' with
    | OpGetResource _ _ => invoked th' = []
    | _ => created th' = []
    end.
Proof.
  intros HI Hstep. step_cases Hstep.
  all: simpl; intros t' th'; who Hth Hpc HI.
  all: try done.
  all: repeat match goal with H : op _ = _ |- _ => rewrite H in *; clear H end.
  all: try done.
Qed.

Lemma step_fnpc s t s' :
  Inv s → step t s = Some s' →
  ∀ t' th', callers s' !! t' = Some th' →
    match pc th' with
    | MakeCall_Fn _ => ¬ is_get (op th')
    | Fn_RLock _ | Fn_Lookup _ | Fn_RUnlock _ _ | Fn_Create _ | Fn_Lock _ _
    | Fn_Store _ _ | Fn_Unlock _ _ | Get_Check _ _ | Panicked => is_get (op th')
    | _ => True
    end.
Proof.
  intros HI Hstep. step_cases Hstep.
  all: simpl; intros t' th'; who Hth Hpc HI.
  all: try done.
  all: repeat match goal with H : op _ = _ |- _ => rewrite H in *; clear H end.
  all: try done; simpl; auto.
Qed.
(** *** What a step does to the shared structures *)

Lemma step_callers s t s' :
  step t s = Some s' →
  ∃ th th', callers s !! t = Some th ∧ callers s' = <[t := th']> (callers s) ∧
            op th' = op th.
Proof.
  intros Hstep. step_cases Hstep; simpl; by eauto.
Qed.

Lemma step_callers_other s t s' t' :
  step t s = Some s' → t ≠ t' → callers s' !! t' = callers s !! t'.
Proof.
  intros (th & th' & Hth & -> & _)%step_callers Hne.
  by apply list_lookup_insert_ne.
Qed.

Lemma step_op s t s' t' th' :
  step t s = Some s' → callers s' !! t' = Some th' →
  ∃ th, callers s !! t' = Some th ∧ op th = op th' ∧ (t ≠ t' → th = th').
Proof.
  intros (th & th1 & Hth & Hcs & Hop)%step_callers. rewrite Hcs.
  rewrite (callers_insert _ _ _ _ _ Hth). case_decide as Hd.
  - subst. intros [= <-]. exists th. split; [done|]. split; [done|]. done.
  - intros H. exists th'. split; [done|]. split; [done|]. done.
Qed.

(** The heap is unchanged, or grows by a record made by the caller at
    [CreateCall_New], or is written at the record of the caller at
    [MakeCall_Assign] or [MakeCall_Done]. *)
Inductive heap_effect (s : state) (t : tid) (th : caller) (s' : state) : Prop :=
  | heap_same : heap s' = heap s → heap_effect s t th s'
  | heap_new :
      pc th = CreateCall_New →
      heap s' = heap s ++ [{| wg := 1; val := any_nil; err := None; owner := t |}] →
      heap_effect s t th s'
  | heap_assign c v e r :
      pc th = MakeCall_Assign c v e → heap s !! c = Some r →
      heap s' = <[c := assign v e r]> (heap s) →
      heap_effect s t th s'
  | heap_done c r :
      pc th = MakeCall_Done c → heap s !! c = Some r → wg r ≠ 0 →
      heap s' = <[c := wg_done r]> (heap s) →
      heap_effect s t th s'.

Lemma step_heap s t s' th :
  step t s = Some s' → callers s !! t = Some th → heap_effect s t th s'.
Proof.
  intros Hstep Hth0. step_cases Hstep.
  all: assert (th0 = th) as -> by congruence.
  all: try (by apply heap_same).
  - by apply heap_new.
  - by eapply heap_assign.
  - by eapply heap_done.
Qed.

(** The registry is unchanged, or gets the new record of the caller at
    [CreateCall_New], or loses the key of the caller at [MakeCall_Delete]. *)
Inductive calls_effect (s : state) (t : tid) (th : caller) (s' : state) : Prop :=
  | calls_same : g_calls s' = g_calls s → calls_effect s t th s'
  | calls_new :
      pc th = CreateCall_New →
      g_calls s' = <[key_of (op th) := length (heap s)]> (g_calls s) →
      calls_effect s t th s'
  | calls_delete c :
      pc th = MakeCall_Delete c →
      g_calls s' = delete (key_of (op th)) (g_calls s) →
      calls_effect s t th s'.

Lemma step_calls s t s' th :
  step t s = Some s' → callers s !! t = Some th → calls_effect s t th s'.
Proof.
  intros Hstep Hth0. step_cases Hstep.
  all: assert (th0 = th) as -> by congruence.
  all: try (by apply calls_same).
  - by apply calls_new.
  - by eapply calls_delete.
Qed.

(** The table is unchanged, or written by the caller at [Fn_Store]. *)
Lemma step_resources s t s' th :
  step t s = Some s' → callers s !! t = Some th →
  resources s' = resources s ∨
  ∃ c r, pc th = Fn_Store c r ∧
         resources s' = <[key_of (op th) := r]> (resources s).
Proof.
  intros Hstep Hth0. step_cases Hstep.
  all: assert (th0 = th) as -> by congruence.
  all: try (by left).
  right. eauto.
Qed.

(** Records persist, with their owner; a record with a fired WaitGroup is
    never written again. *)
Lemma step_heap_fwd s t s' c r :
  Inv s → step t s = Some s' → heap s !! c = Some r →
  ∃ r', heap s' !! c = Some r' ∧ owner r' = owner r ∧
        (owner r ≠ t → r' = r) ∧ (wg r = 0 → r' = r).
Proof.
  intros HI Hstep Hc.
  destruct (step_callers _ _ _ Hstep) as (th & th' & Hth & _ & _).
  destruct (step_heap _ _ _ _ Hstep Hth) as [->| Hpc -> |c' v e r0 Hpc Hc' ->|c' r0 Hpc Hc' Hwg ->].
  - eauto.
  - rewrite lookup_app_l by (by eapply lookup_lt_Some). eauto.
  - rewrite (heap_insert _ _ _ _ _ Hc'). case_decide; [subst c'|by eauto].
    assert (r0 = r) as -> by congruence.
    destruct (inv_own _ HI _ _ Hc) as (tho & ph & Ho & Hu & Hph & Hwg & _).
    pose proof (inv_role _ HI t th c false r Hth) as Hr. rewrite Hpc in Hr.
    specialize (Hr eq_refl Hc). simpl in Hr.
    eexists. split; [done|]. split; [done|]. split; [done|].
    intros Hz. rewrite Hr, Hth in Ho. injection Ho as <-.
    rewrite Hpc in Hph. simpl in Hph. injection Hph as <-. simpl in Hwg. congruence.
  - rewrite (heap_insert _ _ _ _ _ Hc'). case_decide; [subst c'|by eauto].
    assert (r0 = r) as -> by congruence.
    pose proof (inv_role _ HI t th c false r Hth) as Hr. rewrite Hpc in Hr.
    specialize (Hr eq_refl Hc). simpl in Hr.
    eexists. split; [done|]. split; [done|]. split; [done|]. done.
Qed.

(** A record of the new heap is an old one, or the one just made. *)
Lemma step_heap_bwd s t s' c r' :
  step t s = Some s' → heap s' !! c = Some r' →
  (∃ r, heap s !! c = Some r ∧ owner r = owner r') ∨
  (c = length (heap s) ∧ owner r' = t ∧
   ∃ th, callers s !! t = Some th ∧ pc th = CreateCall_New).
Proof.
  intros Hstep Hc.
  destruct (step_callers _ _ _ Hstep) as (th & th' & Hth & _ & _).
  destruct (step_heap _ _ _ _ Hstep Hth) as [Hh| Hpc Hh |c' v e r0 Hpc Hc' Hh|c' r0 Hpc Hc' Hwg Hh];
    rewrite Hh in Hc.
  - eauto.
  - rewrite heap_snoc in Hc. case_decide.
    + injection Hc as <-. right. eauto.
    + eauto.
  - rewrite (heap_insert _ _ _ _ _ Hc') in Hc. case_decide; [subst c'|by eauto].
    injection Hc as <-. eauto.
  - rewrite (heap_insert _ _ _ _ _ Hc') in Hc. case_decide; [subst c'|by eauto].
    injection Hc as <-. eauto.
Qed.
(** *** Preservation: call records and the registry *)

(** How a step changes the record a caller uses. *)
Lemma step_used_effect s t s' th th' :
  step t s = Some s' → callers s !! t = Some th → callers s' !! t = Some th' →
  used th' = used th ∨
  (pc th = CreateCall_Lookup ∧
   ∃ c, g_calls s !! key_of (op th) = Some c ∧ used th' = Some c ∧
        pc th' = CreateCall_UnlockFound c) ∨
  (pc th = CreateCall_New ∧ used th' = Some (length (heap s))).
Proof.
  intros Hstep Hth0 Hth'. step_cases Hstep.
  all: assert (th0 = th) as -> by congruence.
  all: simpl in Hth'; rewrite (callers_insert _ _ _ _ _ Hth) in Hth';
    case_decide; [|done]; injection Hth' as <-; simpl.
  all: try (by left).
  - right; left. eauto.
  - right; right. eauto.
Qed.

Lemma step_transfer s t s' c r0 tho0 :
  Inv s → step t s = Some s' →
  heap s !! c = Some r0 → callers s !! owner r0 = Some tho0 →
  ∃ r tho, heap s' !! c = Some r ∧ callers s' !! owner r = Some tho ∧
           op tho = op tho0 ∧ owner r = owner r0.
Proof.
  intros HI Hstep Hc Ho.
  destruct (step_heap_fwd _ _ _ _ _ HI Hstep Hc) as (r & Hr & Hor & _).
  destruct (step_callers _ _ _ Hstep) as (th & th' & Hth & Hcs & Hop).
  exists r. rewrite Hor, Hcs, (callers_insert _ _ _ _ _ Hth). case_decide.
  - subst t. exists th'. repeat split; try done. congruence.
  - exists tho0. done.
Qed.

Lemma step_rec s t s' :
  Inv s → step t s = Some s' →
  ∀ t' th' c, callers s' !! t' = Some th' → used th' = Some c →
    ∃ r tho, heap s' !! c = Some r ∧ callers s' !! owner r = Some tho ∧
             key_of (op tho) = key_of (op th').
Proof.
  intros HI Hstep t' th' c Ht' Hu.
  destruct (step_op _ _ _ _ _ Hstep Ht') as (th0 & Hth0 & Hop & Hsame).
  assert (∀ r0 tho0, heap s !! c = Some r0 → callers s !! owner r0 = Some tho0 →
            key_of (op tho0) = key_of (op th0) →
            ∃ r tho, heap s' !! c = Some r ∧ callers s' !! owner r = Some tho ∧
                     key_of (op tho) = key_of (op th')) as Hgo.
  { intros r0 tho0 Hc Ho Hk.
    destruct (step_transfer _ _ _ _ _ _ HI Hstep Hc Ho) as (r & tho & ? & ? & Hop' & _).
    exists r, tho. repeat split; try done. congruence. }
  destruct (decide (t = t')) as [<-|Hne].
  - destruct (step_used_effect _ _ _ _ _ Hstep Hth0 Ht') as [Hsm|[(Hpc & c' & Hg & Hu' & _)|(Hpc & Hu')]].
    + rewrite Hsm in Hu.
      destruct (inv_rec _ HI _ _ _ Hth0 Hu) as (r0 & tho0 & ? & ? & ?). eauto.
    + assert (c' = c) as -> by congruence.
      destruct (inv_reg _ HI _ _ Hg) as (r0 & tho0 & ph & ? & ? & ? & _). eauto.
    + assert (c = length (heap s)) as -> by congruence.
      destruct (step_heap _ _ _ _ Hstep Hth0) as [Hh| _ Hh |c' v e r0 Hpc' _ _|c' r0 Hpc' _ _ _];
        try congruence.
      * exfalso. revert Hstep. unfold step. rewrite Hth0. simpl. rewrite Hpc.
        intros [= <-]. simpl in Hh. apply (f_equal length) in Hh.
        rewrite length_app in Hh. simpl in Hh. lia.
      * rewrite Hh, heap_snoc. case_decide; [|done]. simpl.
        exists {| wg := 1; val := any_nil; err := None; owner := t |}, th'.
        simpl. done.
  - rewrite <- (Hsame Hne) in Hu.
    destruct (inv_rec _ HI _ _ _ Hth0 Hu) as (r0 & tho0 & ? & ? & ?). eauto.
Qed.

(** How a step changes the record named by the program point. *)
Lemma step_pc_call_effect s t s' th th' c j :
  step t s = Some s' → callers s !! t = Some th → callers s' !! t = Some th' →
  pc_call (pc th') = Some (c, j) →
  pc_call (pc th) = Some (c, j) ∨
  (pc th = CreateCall_Lookup ∧ g_calls s !! key_of (op th) = Some c ∧ j = true) ∨
  (pc th = CreateCall_New ∧ c = length (heap s) ∧ j = false).
Proof.
  intros Hstep Hth0 Hth'. step_cases Hstep.
  all: assert (th0 = th) as -> by congruence.
  all: simpl in Hth'; rewrite (callers_insert _ _ _ _ _ Hth) in Hth';
    case_decide; [|done]; injection Hth' as <-; simpl.
  all: rewrite ?Hpc; simpl.
  all: try (intros [= <- <-]; by left).
  all: try done.
  - intros [= <- <-]. right; left. done.
  - intros [= <- <-]. right; right. done.
Qed.

Lemma used_in_heap s t th c :
  Inv s → callers s !! t = Some th → used th = Some c → c < length (heap s).
Proof.
  intros HI Hth Hu. destruct (inv_rec _ HI _ _ _ Hth Hu) as (r & _ & Hr & _).
  by eapply lookup_lt_Some.
Qed.

Lemma step_role s t s' :
  Inv s → step t s = Some s' →
  ∀ t' th' c j r, callers s' !! t' = Some th' →
    pc_call (pc th') = Some (c, j) → heap s' !! c = Some r →
    if j then owner r ≠ t' else owner r = t'.
Proof.
  intros HI Hstep t' th' c j r Ht' Hpcc Hc.
  destruct (step_op _ _ _ _ _ Hstep Ht') as (th0 & Hth0 & Hop & Hsame).
  destruct (decide (t = t')) as [<-|Hne].
  - destruct (step_pc_call_effect _ _ _ _ _ _ _ Hstep Hth0 Ht' Hpcc)
      as [Hold|[(Hpc & Hg & ->)|(Hpc & -> & ->)]].
    + pose proof (inv_used _ HI _ _ _ _ Hth0 Hold) as Hu.
      pose proof (used_in_heap _ _ _ _ HI Hth0 Hu) as Hlt.
      destruct (step_heap_bwd _ _ _ _ _ Hstep Hc) as [(r0 & Hr0 & Ho)|(-> & _)]; [|lia].
      rewrite <- Ho. by eapply (inv_role _ HI).
    + destruct (inv_reg _ HI _ _ Hg) as (r0 & tho & ph & Hr0 & Htho & _ & Hph & _).
      destruct (step_heap_bwd _ _ _ _ _ Hstep Hc) as [(r1 & Hr1 & Ho)|(-> & _)].
      * assert (r1 = r0) as -> by congruence. rewrite <- Ho. intros Heq.
        rewrite Heq, Hth0 in Htho. injection Htho as <-.
        rewrite Hpc in Hph. done.
      * apply lookup_lt_Some in Hr0. lia.
    + destruct (step_heap_bwd _ _ _ _ _ Hstep Hc) as [(r1 & Hr1 & Ho)|(_ & ? & _)]; [|done].
      apply lookup_lt_Some in Hr1. lia.
  - specialize (Hsame Hne). subst th0.
    pose proof (inv_used _ HI _ _ _ _ Hth0 Hpcc) as Hu.
    pose proof (used_in_heap _ _ _ _ HI Hth0 Hu) as Hlt.
    destruct (step_heap_bwd _ _ _ _ _ Hstep Hc) as [(r0 & Hr0 & Ho)|(-> & _)]; [|lia].
    rewrite <- Ho. by eapply (inv_role _ HI).
Qed.

Lemma step_join s t s' :
  Inv s → step t s = Some s' →
  ∀ t' th' c r, callers s' !! t' = Some th' → used th' = Some c →
    heap s' !! c = Some r → owner r ≠ t' →
    invoked th' = [] ∧ created th' = [] ∧
    (pc th' = CreateCall_UnlockFound c ∨ pc th' = CreateCall_Wait c ∨
     (wg r = 0 ∧ (pc th' = Return_ c true ∨ returned_from th' true r))).
Proof.
  intros HI Hstep t' th' c r Ht' Hu Hc Hown.
  destruct (step_op _ _ _ _ _ Hstep Ht') as (th0 & Hth0 & Hop & Hsame).
  destruct (decide (t = t')) as [<-|Hne].
  - destruct (step_used_effect _ _ _ _ _ Hstep Hth0 Ht')
      as [Hsm|[(Hpc & c' & Hg & Hu' & Hpc')|(Hpc & Hu')]].
    + rewrite Hsm in Hu.
      destruct (inv_rec _ HI _ _ _ Hth0 Hu) as (r0 & _ & Hr0 & _).
      destruct (step_heap_fwd _ _ _ _ _ HI Hstep Hr0) as (r1 & Hr1 & Ho & Hfr & _).
      assert (r1 = r) as -> by congruence.
      rewrite Ho in Hown. rewrite (Hfr Hown) in *. clear Hfr Hr1 Ho.
      destruct (inv_join _ HI _ _ _ _ Hth0 Hu Hr0 Hown) as (Hi & Hcr & Hpc).
      pose proof (inv_fnpc _ HI _ _ Hth0) as Hfn.
      revert Hstep. unfold step. rewrite Hth0. simpl.
      destruct Hpc as [Hpc|[Hpc|(Hwg & [Hpc|[Hpc|(Hget & Hpc)]])]].
      * rewrite Hpc. destruct (g_lock s); [|done]. intros [= <-].
        simpl in Ht'. rewrite (callers_insert _ _ _ _ _ Hth0) in Ht'.
        case_decide; [|done]. injection Ht' as <-. simpl.
        split; [done|]. split; [done|]. tauto.
      * rewrite Hpc. simpl. rewrite Hr0. simpl. case_decide; [|done].
        intros [= <-].
        simpl in Ht'. rewrite (callers_insert _ _ _ _ _ Hth0) in Ht'.
        case_decide; [|done]. injection Ht' as <-. simpl.
        split; [done|]. split; [done|]. tauto.
      * rewrite Hpc. simpl. rewrite Hr0. simpl. intros [= <-].
        simpl in Ht'. rewrite (callers_insert _ _ _ _ _ Hth0) in Ht'.
        case_decide; [|done]. injection Ht' as <-. simpl.
        split; [done|]. split; [done|]. right; right. split; [done|].
        right. left. done.
      * rewrite Hpc. destruct (op th0) eqn:Hop0; simpl; try done.
        intros [= <-].
        simpl in Ht'. rewrite (callers_insert _ _ _ _ _ Hth0) in Ht'.
        case_decide; [|done]. injection Ht' as <-. simpl.
        split; [done|]. split; [done|]. right; right. split; [done|].
        right. right. simpl. rewrite Hop0. done.
      * rewrite Hpc. unfold check. destruct (err _); [done|].
        destruct (assert_Closer _); done.
    + assert (c' = c) as -> by congruence.
      destruct (inv_pre _ HI _ _ Hth0) as (_ & Hlogs). rewrite Hpc in Hlogs.
      destruct (Hlogs I) as (Hi & Hcr).
      revert Hstep. unfold step. rewrite Hth0. simpl. rewrite Hpc, Hg.
      intros [= <-].
      simpl in Ht'. rewrite (callers_insert _ _ _ _ _ Hth0) in Ht'.
      case_decide; [|done]. injection Ht' as <-. simpl.
      split; [done|]. split; [done|]. tauto.
    + assert (c = length (heap s)) as -> by congruence.
      destruct (step_heap_bwd _ _ _ _ _ Hstep Hc) as [(r1 & Hr1 & Ho)|(_ & ? & _)]; [|done].
      apply lookup_lt_Some in Hr1. lia.
  - specialize (Hsame Hne). subst th0.
    destruct (inv_rec _ HI _ _ _ Hth0 Hu) as (r0 & _ & Hr0 & _).
    destruct (step_heap_fwd _ _ _ _ _ HI Hstep Hr0) as (r1 & Hr1 & Ho & _ & Hfz).
    assert (r1 = r) as -> by congruence.
    rewrite Ho in Hown.
    destruct (inv_join _ HI _ _ _ _ Hth0 Hu Hr0 Hown) as (Hi & Hcr & Hpc).
    split; [done|]. split; [done|].
    destruct Hpc as [Hpc|[Hpc|(Hwg & Hpc)]]; [by left|by right; left|].
    right; right. rewrite (Hfz Hwg). done.
Qed.

Lemma step_own_other s t s' c r :
  Inv s → step t s = Some s' → heap s' !! c = Some r → owner r ≠ t →
  ∃ th ph, callers s' !! owner r = Some th ∧ used th = Some c ∧
           phase_of (pc th) = Some ph ∧ wg r = wg_of ph ∧
           (registered ph → g_calls s' !! key_of (op th) = Some c) ∧
           own_pc th c r ph ∧ own_log th r ph.
Proof.
  intros HI Hstep Hc Hown.
  destruct (step_heap_bwd _ _ _ _ _ Hstep Hc) as [(r0 & Hr0 & Ho)|(_ & ? & _)]; [|done].
  destruct (step_heap_fwd _ _ _ _ _ HI Hstep Hr0) as (r1 & Hr1 & _ & Hfr & _).
  assert (r1 = r) as -> by congruence.
  rewrite <- Ho in Hown. rewrite (Hfr Hown) in *. clear Hfr Hr1 Ho.
  destruct (inv_own _ HI _ _ Hr0) as (th & ph & Hth & Hu & Hph & Hwg & Hreg & Hopc & Hlog).
  exists th, ph. rewrite (step_callers_other _ _ _ _ Hstep) by done.
  repeat (split; [done|]). split; [|done].
  intros Hrg. specialize (Hreg Hrg).
  destruct (step_callers _ _ _ Hstep) as (tht & _ & Htht & _ & _).
  destruct (step_calls _ _ _ _ Hstep Htht) as [->|Hpc ->|c' Hpc ->]; [done| |].
  - rewrite lookup_insert_ne; [done|]. intros Hk.
    pose proof (inv_new _ HI _ _ Htht Hpc) as Hn. congruence.
  - rewrite lookup_delete_ne; [done|]. intros Hk.
    assert (pc_call (pc tht) = Some (c', false)) as Hpcc by (by rewrite Hpc).
    pose proof (inv_used _ HI _ _ _ _ Htht Hpcc) as Hu'.
    destruct (inv_rec _ HI _ _ _ Htht Hu') as (r' & _ & Hr' & _).
    pose proof (inv_role _ HI _ _ _ _ _ Htht Hpcc Hr') as Hrole. simpl in Hrole.
    destruct (inv_own _ HI _ _ Hr') as (th2 & ph2 & Hth2 & _ & Hph2 & _ & Hreg2 & _).
    rewrite Hrole, Htht in Hth2. injection Hth2 as <-.
    rewrite Hpc in Hph2. simpl in Hph2. injection Hph2 as <-.
    specialize (Hreg2 I). rewrite Hk, Hreg in Hreg2. injection Hreg2 as ->.
    congruence.
Qed.

Lemma step_own_self s t s' c r :
  Inv s → step t s = Some s' → heap s' !! c = Some r → owner r = t →
  ∃ th ph, callers s' !! t = Some th ∧ used th = Some c ∧
           phase_of (pc th) = Some ph ∧ wg r = wg_of ph ∧
           (registered ph → g_calls s' !! key_of (op th) = Some c) ∧
           own_pc th c r ph ∧ own_log th r ph.
Proof.
  intros HI Hstep Hc Hown.
  destruct (step_heap_bwd _ _ _ _ _ Hstep Hc) as [(r0 & Hr0 & Ho)|(-> & _ & th & Hth & Hpc)].
  - destruct (inv_own _ HI _ _ Hr0) as (th & ph & Hth & Hu & Hph & Hwg & Hreg & Hopc & Hlog).
    rewrite Ho, Hown in Hth.
    pose proof (inv_logs _ HI _ _ Hth) as Hlogs.
    pose proof (inv_fnpc _ HI _ _ Hth) as Hfn.
    destruct (op th) eqn:Hop.
    all: step_cases Hstep.
    all: assert (th0 = th) as -> by congruence.
    all: rewrite ?Hop in *; simplify_eq.
    all: try match type of Hpc with pc _ = Return_ _ ?d => destruct d end.
    all: rewrite Hpc in Hph; simpl in Hph; try discriminate Hph.
    all: try (injection Hph as <-).
    all: unfold own_pc, returned_from in Hopc; rewrite ?Hpc, ?Hop in Hopc; simpl in Hopc.
    all: try (injection Hopc as ->).
    all: try (destruct Hopc as [Hopc|[Hopc|[Hget Hopc]]]).
    all: simpl in *; simplify_eq.
    all: try match type of Hc with
             | <[?c' := _]> _ !! _ = _ =>
                 match goal with
                 | Hx : heap _ !! c' = Some _ |- _ =>
                     rewrite (heap_insert _ _ _ _ _ Hx), decide_True in Hc by done;
                     injection Hc as <-
                 end
             end.
    all: rewrite (callers_insert _ _ _ _ _ Hth0), decide_True by done.
    all: eexists _, _; split; [reflexivity|]; simpl.
    all: split; [done|].
    all: try (split; [reflexivity|]; simpl).
    all: try (split; [done|]).
    all: unfold own_log, returned_from in *; simpl in *; rewrite ?Hpc, ?Hop in *; simpl in *.
    all: simplify_eq.
    all: try (intuition congruence).
    all: try (rewrite Hlog; destruct p; simpl; intuition congruence).
    all: try (rewrite Hwg; simpl; intuition congruence).
    all: unfold check;
      repeat match goal with
        | H : _ = err _ |- _ => rewrite <- H
        | H : _ = val _ |- _ => rewrite <- H
        end; simpl.
    all: try (intuition congruence).
    all: exfalso; unfold check in Hopc; destruct (err r);
      [|destruct (assert_Closer (val r))]; discriminate.
  - revert Hstep Hc. unfold step. rewrite Hth. simpl. rewrite Hpc.
    intros [= <-]. simpl. rewrite heap_snoc, decide_True by done.
    intros [= <-].
    rewrite (callers_insert _ _ _ _ _ Hth), decide_True by done.
    destruct (inv_pre _ HI _ _ Hth) as (_ & Hlogs). rewrite Hpc in Hlogs.
    destruct (Hlogs I) as (Hi & Hcr).
    eexists _, Running. split; [reflexivity|]. simpl.
    split; [done|]. split; [done|]. split; [done|].
    split; [intros _; by rewrite lookup_insert_eq|]. split; [done|].
    unfold own_log. simpl. by destruct (op th).
Qed.

Lemma step_own s t s' :
  Inv s → step t s = Some s' →
  ∀ c r, heap s' !! c = Some r →
    ∃ th ph, callers s' !! owner r = Some th ∧ used th = Some c ∧
             phase_of (pc th) = Some ph ∧ wg r = wg_of ph ∧
             (registered ph → g_calls s' !! key_of (op th) = Some c) ∧
             own_pc th c r ph ∧ own_log th r ph.
Proof.
  intros HI Hstep c r Hc. destruct (decide (owner r = t)) as [Ho|Ho].
  - rewrite Ho. by eapply step_own_self.
  - by eapply step_own_other.
Qed.

(** A creator leaves the registered phases only by deleting its key. *)
Lemma step_phase s t s' th th' ph :
  step t s = Some s' → callers s !! t = Some th → callers s' !! t = Some th' →
  phase_of (pc th) = Some ph → registered ph →
  (∃ c, pc th = MakeCall_Delete c) ∨
  (∃ ph', phase_of (pc th') = Some ph' ∧ registered ph').
Proof.
  intros Hstep Hth0 Hth' Hph Hreg. step_cases Hstep.
  all: assert (th0 = th) as -> by congruence.
  all: simpl in Hth'; rewrite (callers_insert _ _ _ _ _ Hth) in Hth';
    case_decide; [|done]; injection Hth' as <-; simpl.
  all: rewrite Hpc in Hph; simpl in Hph; simplify_eq.
  all: try (by left; eauto).
  all: try (by right; eexists; split; [reflexivity|]).
  all: try done.
  all: destruct done; simplify_eq; done.
Qed.

Lemma step_reg s t s' :
  Inv s → step t s = Some s' →
  ∀ k c, g_calls s' !! k = Some c →
    ∃ r th ph, heap s' !! c = Some r ∧ callers s' !! owner r = Some th ∧
               key_of (op th) = k ∧ phase_of (pc th) = Some ph ∧ registered ph.
Proof.
  intros HI Hstep k c Hk.
  destruct (step_callers _ _ _ Hstep) as (tht & tht' & Htht & Hcs & Hop).
  assert (callers s' !! t = Some tht') as Htht'.
  { rewrite Hcs, (callers_insert _ _ _ _ _ Htht). by rewrite decide_True. }
  assert (∀ r0 th0 ph0, heap s !! c = Some r0 → callers s !! owner r0 = Some th0 →
            key_of (op th0) = k → phase_of (pc th0) = Some ph0 → registered ph0 →
            (owner r0 = t → ∀ c', pc tht ≠ MakeCall_Delete c') →
            ∃ r th ph, heap s' !! c = Some r ∧ callers s' !! owner r = Some th ∧
               key_of (op th) = k ∧ phase_of (pc th) = Some ph ∧ registered ph) as Hold.
  { intros r0 th0 ph0 Hr0 Hth0 Hk0 Hph0 Hrg0 Hnd.
    destruct (step_heap_fwd _ _ _ _ _ HI Hstep Hr0) as (r & Hr & Ho & _).
    exists r. rewrite Ho. destruct (decide (owner r0 = t)) as [Heq|Hne].
    - rewrite Heq in *. assert (th0 = tht) as -> by congruence.
      destruct (step_phase _ _ _ _ _ _ Hstep Htht Htht' Hph0 Hrg0) as [(c' & Hpc)|(ph' & Hph' & Hrg')].
      + by destruct (Hnd eq_refl c').
      + exists tht', ph'. repeat split; try done. congruence.
    - exists th0, ph0. rewrite (step_callers_other _ _ _ _ Hstep) by done. done. }
  destruct (step_calls _ _ _ _ Hstep Htht) as [Hg|Hpc Hg|c' Hpc Hg]; rewrite Hg in Hk.
  - destruct (inv_reg _ HI _ _ Hk) as (r0 & th0 & ph0 & Hr0 & Hth0 & Hk0 & Hph0 & Hrg0).
    eapply Hold; try done. intros Heq c' Hpc.
    rewrite Heq in Hth0. assert (th0 = tht) as -> by congruence.
    revert Hstep Hg. unfold step. rewrite Htht. simpl. rewrite Hpc.
    intros [= <-]. simpl. intros Hg.
    rewrite <- Hg, Hk0, lookup_delete_eq in Hk. done.
  - destruct (decide (key_of (op tht) = k)) as [Heq|Hne].
    + rewrite Heq, lookup_insert_eq in Hk. injection Hk as <-.
      clear Hold Htht' Hcs Hg.
      revert Hstep. unfold step. rewrite Htht. simpl. rewrite Hpc.
      intros [= <-]. simpl.
      eexists _, _, Running. rewrite heap_snoc, decide_True by done.
      split; [reflexivity|]. simpl.
      rewrite (callers_insert _ _ _ _ _ Htht), decide_True by done.
      split; [reflexivity|]. simpl. done.
    + rewrite lookup_insert_ne in Hk by done.
      destruct (inv_reg _ HI _ _ Hk) as (r0 & th0 & ph0 & Hr0 & Hth0 & Hk0 & Hph0 & Hrg0).
      eapply Hold; try done. intros Heq. rewrite Heq in Hth0. congruence.
  - destruct (decide (key_of (op tht) = k)) as [Heq|Hne].
    + by rewrite Heq, lookup_delete_eq in Hk.
    + rewrite lookup_delete_ne in Hk by done.
      destruct (inv_reg _ HI _ _ Hk) as (r0 & th0 & ph0 & Hr0 & Hth0 & Hk0 & Hph0 & Hrg0).
      eapply Hold; try done. intros Heq. rewrite Heq in Hth0. congruence.
Qed.

Theorem step_Inv s t s' : Inv s → step t s = Some s' → Inv s'.
Proof.
  intros HI Hstep. split.
  - by eapply step_lock_g.
  - by eapply step_lock_w.
  - by eapply step_lock_r.
  - by eapply step_lock_live.
  - by eapply step_pre.
  - by eapply step_new.
  - by eapply step_used.
  - by eapply step_logs.
  - by eapply step_fnpc.
  - by eapply step_rec.
  - by eapply step_role.
  - by eapply step_join.
  - by eapply step_own.
  - by eapply step_reg.
Qed.

Lemma reachable_Inv s0 s : Inv s0 → reachable s0 s → Inv s.
Proof. intros H0 Hr. induction Hr; [done|]. by eapply step_Inv. Qed.

Lemma reachable_trans s0 s1 s2 :
  reachable s0 s1 → reachable s1 s2 → reachable s0 s2.
Proof. intros H1 H2. induction H2; [done|]. by eapply reachable_step. Qed.

Lemma exec_reachable sched s : reachable s (exec sched s).
Proof.
  revert s. induction sched as [|t sched IH]; intros s; simpl.
  - apply reachable_refl.
  - eapply reachable_trans; [|apply IH].
    unfold exec_step. destruct (step t s) as [s1|] eqn:E; simpl.
    + eapply reachable_step; [apply reachable_refl|done].
    + apply reachable_refl.
Qed.

Lemma exec_app sched1 sched2 s :
  exec (sched1 ++ sched2) s = exec sched2 (exec sched1 s).
Proof. unfold exec. by rewrite foldl_app. Qed.

Lemma init_reachable_Inv w tbl ops s : reachable (init w tbl ops) s → Inv s.
Proof. apply reachable_Inv, init_Inv. Qed.
(** ** Every call returns *)

(** A caller that has returned from its call ([Panicked]: by the panic of
    the type assertion of line 226). *)
Definition terminal (p : PC) : Prop :=
  match p with
  | Finished _ | Panicked => True
  | _ => False
  end.

Definition all_returned (s : state) : Prop :=
  ∀ t th, callers s !! t = Some th → terminal (pc th).

(** When the next statement of a caller can run. *)
Lemma can_step s t th :
  Inv s → callers s !! t = Some th →
  match pc th with
  | CreateCall_Lock | MakeCall_DeferLock _ => g_lock s = None → is_Some (step t s)
  | Fn_RLock _ => m_writer s = None → is_Some (step t s)
  | Fn_Lock _ _ => m_writer s = None → m_readers s = ∅ → is_Some (step t s)
  | CreateCall_Wait c => (∀ r, heap s !! c = Some r → wg r = 0) → is_Some (step t s)
  | Finished _ | Panicked => True
  | _ => is_Some (step t s)
  end.
Proof.
  intros HI Hth.
  pose proof (inv_lock_g _ HI _ _ Hth) as Hg.
  pose proof (inv_lock_w _ HI _ _ Hth) as Hw.
  pose proof (inv_fnpc _ HI _ _ Hth) as Hfn.
  assert (∀ c j, pc_call (pc th) = Some (c, j) → ∃ r, heap s !! c = Some r) as Hheap.
  { intros c j Hpcc. pose proof (inv_used _ HI _ _ _ _ Hth Hpcc) as Hu.
    destruct (inv_rec _ HI _ _ _ Hth Hu) as (r & _ & Hr & _). eauto. }
  unfold step. rewrite Hth. simpl.
  destruct (pc th) eqn:Hpc; simpl in *; try done.
  all: try (rewrite (proj2 Hg I); done).
  all: try (rewrite (proj2 Hw I); done).
  all: try (by intros ->).
  all: try (intros -> ->; by rewrite decide_True).
  all: try (by destruct (g_calls s !! _)).
  all: try (destruct (op th); simpl in *; try done; by destruct (fn _)).
  all: try (destruct (op th); simpl in *; try done; by destruct (create _)).
  - intros Hz. destruct (Hheap c true eq_refl) as (r & Hr). rewrite Hr. simpl.
    rewrite decide_True by eauto. done.
  - destruct (Hheap c false eq_refl) as (r & Hr). by rewrite Hr.
  - destruct (Hheap c false eq_refl) as (r & Hr). rewrite Hr. simpl.
    destruct (inv_own _ HI _ _ Hr) as (tho & ph & Htho & _ & Hph & Hwg & _).
    pose proof (inv_role _ HI t th c false r Hth) as Hrole. rewrite Hpc in Hrole.
    specialize (Hrole eq_refl Hr). simpl in Hrole.
    rewrite Hrole, Hth in Htho. injection Htho as <-.
    rewrite Hpc in Hph. injection Hph as <-. simpl in Hwg.
    rewrite decide_False by lia. done.
  - destruct (Hheap c done eq_refl) as (r & Hr). by rewrite Hr.
Qed.

(** Some caller can run as long as one has not returned: the machine has
    no deadlock. *)
Lemma no_deadlock s t th :
  Inv s → callers s !! t = Some th → ¬ terminal (pc th) →
  ∃ t', is_Some (step t' s).
Proof.
  intros HI Hth Hnt.
  destruct (inv_lock_live _ HI) as (Hlg & Hlw & Hlr).
  destruct (g_lock s) as [tg|] eqn:Hg.
  { destruct (Hlg tg eq_refl) as (thg & Hthg).
    pose proof (proj1 (inv_lock_g _ HI _ _ Hthg) Hg) as Hh.
    pose proof (can_step _ _ _ HI Hthg) as Hc.
    exists tg. by destruct (pc thg). }
  destruct (m_writer s) as [tw|] eqn:Hw.
  { destruct (Hlw tw eq_refl) as ((thw & Hthw) & _).
    pose proof (proj1 (inv_lock_w _ HI _ _ Hthw) Hw) as Hh.
    pose proof (can_step _ _ _ HI Hthw) as Hc.
    exists tw. by destruct (pc thw). }
  destruct (set_choose_or_empty (m_readers s)) as [(tr & Hr)|He].
  { destruct (Hlr tr Hr) as (thr & Hthr).
    pose proof (proj1 (inv_lock_r _ HI _ _ Hthr) Hr) as Hh.
    pose proof (can_step _ _ _ HI Hthr) as Hc.
    exists tr. by destruct (pc thr). }
  apply leibniz_equiv in He.
  assert (∀ t1 th1, callers s !! t1 = Some th1 → ¬ terminal (pc th1) →
            (∀ c, pc th1 ≠ CreateCall_Wait c) → is_Some (step t1 s)) as Hfree.
  { intros t1 th1 Hth1 Hnt1 Hnw.
    pose proof (can_step _ _ _ HI Hth1) as Hc.
    destruct (pc th1) eqn:Hpc1; try done; try (by apply Hc).
    by destruct (Hnw c). }
  destruct (pc th) eqn:Hpc;
    try (exists t; apply (Hfree _ _ Hth); rewrite Hpc; [done|intros ?; discriminate]).
  - (* waiting on c *)
    assert (pc_call (pc th) = Some (c, true)) as Hpcc by (by rewrite Hpc).
    pose proof (inv_used _ HI _ _ _ _ Hth Hpcc) as Hu.
    destruct (inv_rec _ HI _ _ _ Hth Hu) as (r & _ & Hr & _).
    destruct (decide (wg r = 0)) as [Hz|Hnz].
    + exists t. pose proof (can_step _ _ _ HI Hth) as Hc. rewrite Hpc in Hc.
      apply Hc. intros r' Hr'. congruence.
    + destruct (inv_own _ HI _ _ Hr) as (tho & ph & Htho & _ & Hph & Hwg & _ & Hopc & _).
      exists (owner r). apply (Hfree _ _ Htho).
      * destruct (pc tho); try done; by destruct ph.
      * intros c' Hpc'. rewrite Hpc' in Hph. done.
Qed.

(** The number of statements a caller has still to run, at most. *)
Definition rank (p : PC) : nat :=
  match p with
  | Finished _ | Panicked => 0
  | Get_Check _ _ => 1
  | Return_ _ _ => 2
  | MakeCall_Done _ => 3
  | MakeCall_DeferUnlock _ => 4
  | MakeCall_Delete _ => 5
  | MakeCall_DeferLock _ => 6
  | MakeCall_Assign _ _ _ => 7
  | Fn_Unlock _ _ => 8
  | Fn_Store _ _ => 9
  | Fn_Lock _ _ => 10
  | Fn_Create _ => 11
  | Fn_RUnlock _ _ => 12
  | Fn_Lookup _ => 13
  | Fn_RLock _ => 14
  | MakeCall_Fn _ => 8
  | CreateCall_UnlockNew _ => 15
  | CreateCall_New => 16
  | CreateCall_Wait _ => 3
  | CreateCall_UnlockFound _ => 4
  | CreateCall_Lookup => 17
  | CreateCall_Lock => 18
  end.

Definition remaining (s : state) : nat :=
  sum_list_with (λ th, rank (pc th)) (callers s).

Lemma sum_list_with_insert {A} (f : A → nat) (l : list A) i x y :
  l !! i = Some x →
  sum_list_with f (<[i := y]> l) + f x = sum_list_with f l + f y.
Proof.
  revert i. induction l as [|a l IH]; intros [|i] H; simpl in *; try done.
  - injection H as ->. lia.
  - specialize (IH _ H). lia.
Qed.

Lemma sum_list_with_pos {A} (f : A → nat) (l : list A) :
  0 < sum_list_with f l → ∃ i x, l !! i = Some x ∧ 0 < f x.
Proof.
  induction l as [|a l IH]; simpl; [lia|]. intros H.
  destruct (decide (0 < f a)).
  - exists 0, a. done.
  - destruct IH as (i & x & ? & ?); [lia|]. exists (S i), x. done.
Qed.

Lemma sum_list_with_zero {A} (f : A → nat) (l : list A) i x :
  sum_list_with f l = 0 → l !! i = Some x → f x = 0.
Proof.
  revert i. induction l as [|a l IH]; intros [|i] H0 H; simpl in *; try done.
  - injection H as ->. lia.
  - eapply IH; [lia|done].
Qed.

Lemma step_remaining s t s' :
  step t s = Some s' → remaining s' < remaining s.
Proof.
  intros Hstep. unfold remaining.
  assert (∃ th th', callers s !! t = Some th ∧
            callers s' = <[t := th']> (callers s) ∧ rank (pc th') < rank (pc th))
    as (th & th' & Hth & -> & Hlt).
  { step_cases Hstep; simpl; eexists _, _; (split; [done|]); (split; [done|]);
      rewrite Hpc; simpl; lia. }
  pose proof (sum_list_with_insert (λ th, rank (pc th)) _ _ _ th' Hth). simpl in *. lia.
Qed.

Lemma rank_terminal p : rank p = 0 ↔ terminal p.
Proof. destruct p; simpl; split; (done || lia). Qed.

(** From a state satisfying the invariant some schedule makes every caller
    return. *)
Theorem all_return s :
  Inv s → ∃ sched, all_returned (exec sched s) ∧ reachable s (exec sched s).
Proof.
  remember (remaining s) as n eqn:Hn. revert s Hn.
  induction (lt_wf n) as [n _ IH]. intros s -> HI.
  destruct (decide (remaining s = 0)) as [Hz|Hnz].
  - exists []. split; [|apply reachable_refl]. intros t th Hth.
    apply rank_terminal. by eapply (sum_list_with_zero (λ th, rank (pc th))).
  - destruct (sum_list_with_pos (λ th, rank (pc th)) (callers s)) as (t & th & Hth & Hpos);
      [unfold remaining in Hnz; lia|].
    assert (¬ terminal (pc th)) as Hnt.
    { intros Ht%rank_terminal. simpl in *. lia. }
    destruct (no_deadlock _ _ _ HI Hth Hnt) as (t' & s' & Hstep).
    destruct (IH (remaining s') (step_remaining _ _ _ Hstep) s' eq_refl
                (step_Inv _ _ _ HI Hstep)) as (sched & Hall & Hreach).
    exists (t' :: sched).
    change (exec (t' :: sched) s) with (exec sched (exec_step s t')).
    assert (exec_step s t' = s') as -> by (unfold exec_step; by rewrite Hstep).
    split; [done|]. eapply reachable_trans; [|done].
    eapply reachable_step; [apply reachable_refl|done].
Qed.
(** ** The invariant of GetResource *)

(** What the closure of [GetResource] has computed, for the caller [th] that
    ran it with key [k]: on success the value is the conversion of the
    [io.Closer] that the table holds for [k], found there or just created;
    on failure the value is nil, the error is the one of [create], and the
    table has no entry for [k] as long as the call is registered. *)
Definition get_final (s : state) (th : caller) (v : any) (e : error)
    (reg : Prop) : Prop :=
  match e with
  | None =>
      ∃ ro, v = to_any ro ∧ resources s !! key_of (op th) = Some ro ∧
            (created th = [] ∨ created th = [(ro, None)])
  | Some _ =>
      v = any_nil ∧ (∃ x, created th = [(x, e)]) ∧
      (reg → resources s !! key_of (op th) = None)
  end.

Definition get_at (s : state) (th : caller) (r : call) : Prop :=
  match pc th with
  | CreateCall_UnlockNew _ | Fn_RLock _ | Fn_Lookup _ => created th = []
  | Fn_RUnlock _ found =>
      created th = [] ∧ resources s !! key_of (op th) = found
  | Fn_Create _ => created th = [] ∧ resources s !! key_of (op th) = None
  | Fn_Lock _ x | Fn_Store _ x =>
      created th = [(x, None)] ∧ resources s !! key_of (op th) = None
  | Fn_Unlock _ x =>
      created th = [(x, None)] ∧ resources s !! key_of (op th) = Some x
  | MakeCall_Assign _ v e => get_final s th v e True
  | MakeCall_DeferLock _ | MakeCall_Delete _ =>
      get_final s th (val r) (err r) True
  | MakeCall_DeferUnlock _ | MakeCall_Done _ | Return_ _ _ | Get_Check _ _
  | Finished _ | Panicked => get_final s th (val r) (err r) False
  | _ => True
  end.

Definition GInv (s : state) : Prop :=
  ∀ t th c r, callers s !! t = Some th → is_get (op th) →
    used th = Some c → heap s !! c = Some r → owner r = t → get_at s th r.

(** The record of a caller at a creator's program point. *)
Lemma creator_record s t th c :
  Inv s → callers s !! t = Some th → pc_call (pc th) = Some (c, false) →
  ∃ r, used th = Some c ∧ heap s !! c = Some r ∧ owner r = t.
Proof.
  intros HI Hth Hpcc.
  pose proof (inv_used _ HI _ _ _ _ Hth Hpcc) as Hu.
  destruct (inv_rec _ HI _ _ _ Hth Hu) as (r & _ & Hr & _).
  pose proof (inv_role _ HI _ _ _ _ _ Hth Hpcc Hr) as Hrole. eauto.
Qed.

(** At most one call is registered per key. *)
Lemma registered_unique s t1 t2 th1 th2 ph1 ph2 :
  Inv s → callers s !! t1 = Some th1 → callers s !! t2 = Some th2 →
  phase_of (pc th1) = Some ph1 → registered ph1 →
  phase_of (pc th2) = Some ph2 → registered ph2 →
  key_of (op th1) = key_of (op th2) → t1 = t2.
Proof.
  intros HI Hth1 Hth2 Hph1 Hr1 Hph2 Hr2 Hk.
  assert (∀ t th ph, callers s !! t = Some th → phase_of (pc th) = Some ph →
            registered ph →
            ∃ c r, g_calls s !! key_of (op th) = Some c ∧ heap s !! c = Some r ∧
                   owner r = t) as Hone.
  { intros t th ph Hth Hph Hrg.
    assert (∃ c, pc_call (pc th) = Some (c, false)) as (c & Hpcc).
    { destruct (pc th) as [| | | | | | | | | | | | | | | | | | |? []| | |];
        simpl in Hph; simplify_eq; try done; by eexists. }
    destruct (creator_record _ _ _ _ HI Hth Hpcc) as (r & Hu & Hr & Ho).
    destruct (inv_own _ HI _ _ Hr) as (th' & ph' & Hth' & _ & Hph' & _ & Hreg & _).
    rewrite Ho, Hth in Hth'. injection Hth' as <-.
    assert (ph' = ph) as -> by congruence.
    exists c, r. split; [by apply Hreg|done]. }
  destruct (Hone _ _ _ Hth1 Hph1 Hr1) as (c1 & r1 & Hg1 & Hc1 & Ho1).
  destruct (Hone _ _ _ Hth2 Hph2 Hr2) as (c2 & r2 & Hg2 & Hc2 & Ho2).
  rewrite Hk in Hg1. congruence.
Qed.

Lemma init_GInv w tbl ops : GInv (init w tbl ops).
Proof. intros t th c r _ _ _ Hr. done. Qed.

Lemma get_at_frame s s' th r :
  resources s' = resources s → get_at s th r → get_at s' th r.
Proof.
  unfold get_at, get_final. intros ->. done.
Qed.

Lemma step_GInv_other s t s' t' th' c r :
  Inv s → GInv s → step t s = Some s' → t ≠ t' →
  callers s' !! t' = Some th' → is_get (op th') →
  used th' = Some c → heap s' !! c = Some r → owner r = t' → get_at s' th' r.
Proof.
  intros HI HG Hstep Hne Ht' Hget Hu Hc Ho.
  rewrite (step_callers_other _ _ _ _ Hstep) in Ht' by done.
  destruct (step_heap_bwd _ _ _ _ _ Hstep Hc) as [(r0 & Hr0 & Ho0)|(_ & ? & _)];
    [|congruence].
  destruct (step_heap_fwd _ _ _ _ _ HI Hstep Hr0) as (r1 & Hr1 & _ & Hfr & _).
  assert (r1 = r) as -> by congruence.
  assert (r = r0) as -> by (apply Hfr; congruence). clear Hfr Hr1 Ho0.
  pose proof (HG _ _ _ _ Ht' Hget Hu Hr0 Ho) as Hat.
  destruct (step_callers _ _ _ Hstep) as (tht & _ & Htht & _ & _).
  destruct (step_resources _ _ _ _ Hstep Htht) as [Hres|(ct & x & Hpc & Hres)].
  { by eapply get_at_frame. }
  pose proof (inv_fnpc _ HI _ _ Htht) as Hfn. rewrite Hpc in Hfn.
  destruct (creator_record _ _ _ _ HI Htht ltac:(by rewrite Hpc)) as (rt & Hut & Hrt & Hot).
  pose proof (HG _ _ _ _ Htht Hfn Hut Hrt Hot) as Hatt.
  unfold get_at in Hatt. rewrite Hpc in Hatt. destruct Hatt as (_ & Hnone).
  destruct (decide (key_of (op tht) = key_of (op th'))) as [Hk|Hk].
  - assert (∀ ph, phase_of (pc th') = Some ph → registered ph → False) as Hnr.
    { intros ph Hph Hrg. apply Hne.
      eapply (registered_unique _ _ _ _ _ Running ph HI Htht Ht'); try done.
      by rewrite Hpc. }
    rewrite Hk in Hnone.
    unfold get_at, get_final in *. rewrite Hres, Hk, lookup_insert_eq.
    destruct (pc th') eqn:Hpc'; try done;
      try (by destruct (Hnr Running eq_refl I));
      try (by destruct (Hnr Assigned eq_refl I)).
    all: destruct (err r0); [tauto|].
    all: destruct Hat as (ro & _ & Hro & _); congruence.
  - unfold get_at, get_final in *. rewrite Hres, lookup_insert_ne by done. done.
Qed.

Lemma step_GInv_self s t s' th' c r :
  Inv s → GInv s → step t s = Some s' →
  callers s' !! t = Some th' → is_get (op th') →
  used th' = Some c → heap s' !! c = Some r → owner r = t → get_at s' th' r.
Proof.
  intros HI HG Hstep Ht' Hget Hu Hc Ho.
  destruct (step_heap_bwd _ _ _ _ _ Hstep Hc) as [(r0 & Hr0 & Ho0)|(-> & _ & th & Hth & Hpc)].
  - destruct (inv_own _ HI _ _ Hr0) as (th & ph & Hth & Hu0 & Hph & _).
    rewrite Ho0, Ho in Hth.
    destruct (step_op _ _ _ _ _ Hstep Ht') as (th1 & Hth1 & Hop & _).
    assert (th1 = th) as -> by congruence.
    rewrite <- Hop in Hget.
    pose proof (HG _ _ _ _ Hth Hget Hu0 Hr0 ltac:(congruence)) as Hat.
    clear Hop Hth1 Ho0.
    step_cases Hstep.
    all: assert (th0 = th) as -> by congruence.
    all: rewrite Hpc in Hph; simpl in Hph; try discriminate Hph.
    all: unfold get_at in Hat; rewrite Hpc in Hat.
    all: simpl in Ht', Hc; rewrite (callers_insert _ _ _ _ _ Hth0), decide_True in Ht' by done;
      injection Ht' as <-.
    all: simpl in Hu.
    all: try match type of Hpc with
             | pc _ = ?p =>
                 match eval simpl in (pc_call p) with
                 | Some (?c', ?j) =>
                     let H := fresh in
                     assert (used th = Some c') as H
                       by (apply (inv_used _ HI _ _ c' j Hth0); by rewrite Hpc);
                     assert (c' = c) as -> by congruence; clear H
                 end
             end.
    all: try match type of Hc with
             | <[?c' := _]> _ !! _ = _ =>
                 match goal with
                 | Hx : heap _ !! c' = Some _ |- _ =>
                     rewrite (heap_insert _ _ _ _ _ Hx), decide_True in Hc by done;
                     injection Hc as <-
                 end
             end.
    all: simplify_eq.
    all: unfold get_at, get_final in *; simpl in *.
    all: try done.
    all: try (match goal with H : op _ = _ |- _ => rewrite H in Hget; done end).
    all: destruct_and?;
      repeat match goal with
        | H : created _ = _ |- _ => rewrite H
        end; simpl.
    all: rewrite ?lookup_insert_eq.
    all: try (by eauto 8).
    all: try (destruct (err r); naive_solver).
  - destruct (inv_pre _ HI _ _ Hth) as (_ & Hlogs). rewrite Hpc in Hlogs.
    destruct (Hlogs I) as (_ & Hcr).
    revert Hstep Ht'. unfold step. rewrite Hth. simpl. rewrite Hpc.
    intros [= <-]. simpl.
    rewrite (callers_insert _ _ _ _ _ Hth), decide_True by done.
    intros [= <-]. unfold get_at. simpl. done.
Qed.

Theorem step_GInv s t s' : Inv s → GInv s → step t s = Some s' → GInv s'.
Proof.
  intros HI HG Hstep t' th' c r Ht' Hget Hu Hc Ho.
  destruct (decide (t = t')) as [<-|Hne].
  - by eapply step_GInv_self.
  - by eapply step_GInv_other.
Qed.

Lemma reachable_GInv s0 s : Inv s0 → GInv s0 → reachable s0 s → Inv s ∧ GInv s.
Proof.
  intros H0 G0 Hr. induction Hr as [|s t s' _ [IH1 IH2] Hstep]; [done|].
  split; [by eapply step_Inv|by eapply step_GInv].
Qed.
(** ** Results of the callers that have returned *)

(** A caller past its return statement has read a record whose WaitGroup
    has fired; it either created the record, and then ran the work function
    once, or joined it, and then ran nothing. *)
Lemma returned_record s t th :
  Inv s → callers s !! t = Some th →
  terminal (pc th) ∨ (∃ v e, pc th = Get_Check v e) →
  ∃ c r tho,
    used th = Some c ∧ heap s !! c = Some r ∧ wg r = 0 ∧
    callers s !! owner r = Some tho ∧ key_of (op tho) = key_of (op th) ∧
    own_log tho r Signalled ∧
    ((owner r = t ∧ returned_from th false r) ∨
     (owner r ≠ t ∧ returned_from th true r ∧ invoked th = [] ∧ created th = [])).
Proof.
  intros HI Hth Hret.
  assert (¬ pre (pc th)) as Hnp.
  { destruct Hret as [Ht|(v & e & ->)]; [|simpl; tauto].
    destruct (pc th); simpl in *; tauto. }
  destruct (used th) as [c|] eqn:Hu;
    [|by destruct Hnp; apply (inv_pre _ HI _ _ Hth)].
  destruct (inv_rec _ HI _ _ _ Hth Hu) as (r & tho & Hr & Htho & Hk).
  destruct (inv_own _ HI _ _ Hr) as (tho' & ph & Htho' & Hu' & Hph & Hwg & _ & Hopc & Hlog).
  assert (tho' = tho) as -> by congruence.
  destruct (decide (owner r = t)) as [Ho|Ho].
  - rewrite Ho, Hth in Htho. injection Htho as <-.
    assert (ph = Signalled) as ->.
    { destruct Hret as [Ht|(v & e & Hpc)]; [|rewrite Hpc in Hph; simpl in Hph; congruence].
      destruct (pc th); try done; simpl in Hph; congruence. }
    exists c, r, th. rewrite Ho. repeat (split; [done|]). left. split; [done|].
    destruct Hopc as [Hpc|Hrf]; [|done].
    destruct Hret as [Ht|(v & e & Hpc')]; [by rewrite Hpc in Ht|congruence].
  - destruct (inv_join _ HI _ _ _ _ Hth Hu Hr Ho) as (Hi & Hc & Hpc).
    assert (wg r = 0 ∧ returned_from th true r) as (Hz & Hrf).
    { destruct Hpc as [Hpc|[Hpc|(Hz & [Hpc|Hrf])]]; [| | |done];
        (destruct Hret as [Ht|(v & e & Hpc')]; [by rewrite Hpc in Ht|congruence]). }
    assert (ph = Signalled) as -> by (destruct ph; simpl in Hwg; congruence).
    exists c, r, tho. repeat (split; [done|]). right. done.
Qed.

(** The result read from a record, as each entry point returns it. *)
Lemma returned_from_DoEx th done r k fn v fresh e :
  op th = OpDoEx k fn → pc th = Finished (RDoEx v fresh e) →
  returned_from th done r → v = val r ∧ e = err r ∧ fresh = negb done.
Proof.
  intros Hop Hpc [Hrf|(Hget & _)]; [|by rewrite Hop in Hget].
  rewrite Hop, Hpc in Hrf. simpl in Hrf. by injection Hrf as -> -> ->.
Qed.

Lemma returned_from_Do th done r k fn v e :
  op th = OpDo k fn → pc th = Finished (RDo v e) →
  returned_from th done r → v = val r ∧ e = err r.
Proof.
  intros Hop Hpc [Hrf|(Hget & _)]; [|by rewrite Hop in Hget].
  rewrite Hop, Hpc in Hrf. simpl in Hrf. by injection Hrf as -> ->.
Qed.

(** C1: in every state reached from a new flight group, a caller of [DoEx]
    that has returned [(v, fresh, e)] read them from a call record [c]
    whose WaitGroup has fired.  If it found no call in flight for its key
    it created [c]: it ran its work function exactly once, [(v, e)] is the
    result of that run, and [fresh] is true.  Otherwise it joined [c]: it
    ran nothing, [fresh] is false, and the creator of [c], a caller with
    the same key, ran its work function once with result [(v, e)].  Among
    the callers sharing a record exactly its creator is fresh, and all get
    the values held by the record.  Some schedule makes every call
    return. *)
Theorem DoEx_shares_one_execution (w : W) (tbl : gmap string io_Closer)
    (ops : list Op) (s : state) :
  reachable (init w tbl ops) s →
  (∀ t th k fn v fresh e,
     callers s !! t = Some th → op th = OpDoEx k fn →
     pc th = Finished (RDoEx v fresh e) →
     ∃ c r tho,
       used th = Some c ∧ heap s !! c = Some r ∧ wg r = 0 ∧
       v = val r ∧ e = err r ∧ fresh = bool_decide (owner r = t) ∧
       callers s !! owner r = Some tho ∧ key_of (op tho) = k ∧
       (¬ is_get (op tho) → invoked tho = [(v, e)]) ∧
       (fresh = true → invoked th = [(v, e)]) ∧
       (fresh = false → invoked th = [])) ∧
  (∀ c r, heap s !! c = Some r →
     ∃ tho, callers s !! owner r = Some tho ∧ used tho = Some c ∧
       ∀ t th k fn v fresh e,
         callers s !! t = Some th → used th = Some c → op th = OpDoEx k fn →
         pc th = Finished (RDoEx v fresh e) →
         (fresh = true ↔ t = owner r) ∧ v = val r ∧ e = err r) ∧
  (∃ sched, all_returned (exec sched s)).
Proof.
  intros Hreach. pose proof (init_reachable_Inv _ _ _ _ Hreach) as HI.
  assert (∀ t th k fn v fresh e,
     callers s !! t = Some th → op th = OpDoEx k fn →
     pc th = Finished (RDoEx v fresh e) →
     ∃ c r tho,
       used th = Some c ∧ heap s !! c = Some r ∧ wg r = 0 ∧
       v = val r ∧ e = err r ∧ fresh = bool_decide (owner r = t) ∧
       callers s !! owner r = Some tho ∧ key_of (op tho) = k ∧
       (¬ is_get (op tho) → invoked tho = [(v, e)]) ∧
       (fresh = true → invoked th = [(v, e)]) ∧
       (fresh = false → invoked th = [])) as Hone.
  { intros t th k fn v fresh e Hth Hop Hpc.
    destruct (returned_record _ _ _ HI Hth) as (c & r & tho & Hu & Hr & Hwg & Htho & Hk & Hlog & Hcase).
    { left. by rewrite Hpc. }
    assert (¬ is_get (op tho) → invoked tho = [(val r, err r)]) as Hinv.
    { intros Hng. unfold own_log in Hlog.
      destruct (inv_own _ HI _ _ Hr) as (tho' & ph & Htho' & _ & Hph & Hwg' & _).
      assert (tho' = tho) as -> by congruence.
      destruct (op tho); try done; destruct (pc tho); simpl in *; try done;
        destruct ph; simpl in *; congruence. }
    exists c, r, tho.
    destruct Hcase as [(Ho & Hrf)|(Ho & Hrf & Hi & _)];
      destruct (returned_from_DoEx _ _ _ _ _ _ _ _ Hop Hpc Hrf) as (-> & -> & ->); simpl.
    - rewrite bool_decide_eq_true_2 by done.
      rewrite Hop in Hk. change (key_of (OpDoEx k fn)) with k in Hk.
      repeat (split; [done|]). split; [|done]. intros _.
      rewrite Ho, Hth in Htho. injection Htho as <-. apply Hinv.
      rewrite Hop. simpl. tauto.
    - rewrite bool_decide_eq_false_2 by done.
      rewrite Hop in Hk. change (key_of (OpDoEx k fn)) with k in Hk.
      repeat (split; [done|]). done. }
  split; [done|]. split.
  - intros c r Hr.
    destruct (inv_own _ HI _ _ Hr) as (tho & ph & Htho & Hu & _).
    exists tho. split; [done|]. split; [done|].
    intros t th k fn v fresh e Hth Hut Hop Hpc.
    destruct (Hone _ _ _ _ _ _ _ Hth Hop Hpc) as (c' & r' & _ & Hu' & Hr' & _ & -> & -> & -> & _).
    assert (c' = c) as -> by congruence. assert (r' = r) as -> by congruence.
    split; [|done]. rewrite bool_decide_eq_true. split; congruence.
  - destruct (all_return _ HI) as (sched & Hall & _). eauto.
Qed.
(** ** Do and DoEx *)

(** Two states are twins at caller [t] when they are the same except that
    [t] calls [Do] in the first and [DoEx], with the same key and function,
    in the second; where [t] has returned [(v, e)] from [Do] it has
    returned [(v, fresh, e)] from [DoEx]. *)
Definition twin_pc (p1 p2 : PC) : Prop :=
  match p1 with
  | Finished (RDo v e) => ∃ fresh, p2 = Finished (RDoEx v fresh e)
  | Finished _ | Get_Check _ _ => False
  | _ => p2 = p1
  end.

Definition twin_caller (th1 th2 : caller) : Prop :=
  ∃ k fn, op th1 = OpDo k fn ∧ op th2 = OpDoEx k fn ∧
          invoked th1 = invoked th2 ∧ created th1 = created th2 ∧
          used th1 = used th2 ∧ twin_pc (pc th1) (pc th2).

Definition twin (t : tid) (s1 s2 : state) : Prop :=
  world s1 = world s2 ∧ g_lock s1 = g_lock s2 ∧ g_calls s1 = g_calls s2 ∧
  heap s1 = heap s2 ∧ m_readers s1 = m_readers s2 ∧
  m_writer s1 = m_writer s2 ∧ resources s1 = resources s2 ∧
  ∃ th1 th2, callers s1 !! t = Some th1 ∧
             callers s2 = <[t := th2]> (callers s1) ∧ twin_caller th1 th2.

Ltac same_branch :=
  repeat match goal with
    | H : ?x = _ |- context [?x] => rewrite H; simpl
    | H : ?P |- context [decide ?P] => rewrite (decide_True (P := P)) by exact H; simpl
    | H : ¬ ?P |- context [decide ?P] => rewrite (decide_False (P := P)) by exact H; simpl
    | H : ?x ≠ ?y |- context [decide (?x = ?y)] =>
        rewrite (decide_False (P := x = y)) by exact H; simpl
    end.

Lemma step_twin t t' s1 s2 s1' :
  twin t s1 s2 → step t' s1 = Some s1' →
  ∃ s2', step t' s2 = Some s2' ∧ twin t s1' s2'.
Proof.
  intros (Hw & Hgl & Hgc & Hh & Hmr & Hmw & Hres & th1 & th2 & Hth1 & Hcs & Htw) Hstep.
  destruct s1 as [w1 gl1 gc1 h1 mr1 mw1 res1 cs1].
  destruct s2 as [w2 gl2 gc2 h2 mr2 mw2 res2 cs2].
  simpl in *. subst.
  destruct Htw as (k & fn & Hop1 & Hop2 & Hi & Hc & Hu & Hpc).
  destruct (decide (t = t')) as [<-|Hne].
  - step_cases Hstep; simpl in *.
    all: assert (th = th1) as -> by congruence.
    all: rewrite Hpc0 in Hpc; simpl in Hpc.
    all: try (exfalso; exact Hpc).
    all: rewrite ?Hop1 in *; simplify_eq.
    all: unfold step; simpl;
      rewrite (callers_insert _ _ _ _ _ Hth1), decide_True by done; simpl;
      rewrite Hpc, ?Hop2; unfold key_of in *; simpl; same_branch.
    all: eexists; (split; [reflexivity|]); unfold twin; simpl.
    all: repeat (split; [done|]).
    all: rewrite (callers_insert _ _ _ _ _ Hth1), decide_True by done.
    all: eexists _, _; (split; [reflexivity|]).
    all: rewrite !list_insert_insert_eq; (split; [reflexivity|]).
    all: unfold twin_caller; simpl; eexists _, _; rewrite ?Hi, ?Hc, ?Hu.
    all: (split; [eassumption|]); (split; [eassumption|]).
    all: repeat (split; [done|]); simpl; try done; eauto.
  - step_cases Hstep; simpl in *.
    all: unfold step; simpl; rewrite list_lookup_insert_ne by done; rewrite Hth; simpl;
      rewrite Hpc0; simpl; same_branch.
    all: eexists; (split; [reflexivity|]); unfold twin; simpl.
    all: repeat (split; [done|]).
    all: rewrite list_lookup_insert_ne by done.
    all: eexists _, _; (split; [exact Hth1|]).
    all: (split; [by apply list_insert_insert_ne|]).
    all: exists k, fn; done.
Qed.

Lemma step_twin_blocked t t' s1 s2 :
  twin t s1 s2 → step t' s1 = None → step t' s2 = None.
Proof.
  intros (Hw & Hgl & Hgc & Hh & Hmr & Hmw & Hres & th1 & th2 & Hth1 & Hcs & Htw) Hstep.
  destruct s1 as [w1 gl1 gc1 h1 mr1 mw1 res1 cs1].
  destruct s2 as [w2 gl2 gc2 h2 mr2 mw2 res2 cs2].
  simpl in *. subst.
  destruct Htw as (k & fn & Hop1 & Hop2 & Hi & Hc & Hu & Hpc).
  revert Hstep. unfold step. simpl.
  rewrite (callers_insert _ _ _ _ _ Hth1).
  destruct (decide (t = t')) as [<-|Hne].
  - rewrite Hth1. simpl. rewrite Hop1, Hop2.
    destruct (pc th1) as [| | | | | | | | | | | | | | | | | | | | |[]|]; simpl in Hpc;
      try (destruct Hpc as (fresh & Hpc)); try done; rewrite Hpc; try done.
    all: unfold key_of; simpl.
    all: try (destruct (gc2 !! k); done).
    all: try (destruct gl2; done).
    all: try (destruct mw2; done).
    all: try (destruct mw2; [done|]; destruct (decide (mr2 = ∅)); done).
    all: try (destruct (h2 !! c); simpl; [|done]; try done;
              destruct (decide (wg _ = 0)); done).
    all: try (destruct (fn w2); done).
  - destruct (cs1 !! t') as [th'|]; simpl; [|done].
    destruct (pc th'); try done.
    all: try (destruct gl2; done).
    all: try (destruct (gc2 !! _); done).
    all: try (destruct mw2; done).
    all: try (destruct mw2; [done|]; destruct (decide (mr2 = ∅)); done).
    all: try (destruct (h2 !! c); simpl; [|done]; try done;
              destruct (decide (wg _ = 0)); done).
    all: try (destruct (op th'); try done; destruct (fn0 w2); done).
    all: try (destruct (op th'); try done; destruct (create w2); done).
Qed.

Lemma exec_twin t sched s1 s2 :
  twin t s1 s2 → twin t (exec sched s1) (exec sched s2).
Proof.
  revert s1 s2. induction sched as [|t' sched IH]; intros s1 s2 Htw; [done|].
  simpl. apply IH. unfold exec_step.
  destruct (step t' s1) as [s1'|] eqn:E1.
  - destruct (step_twin _ _ _ _ _ Htw E1) as (s2' & -> & Htw'). done.
  - by rewrite (step_twin_blocked _ _ _ _ Htw E1).
Qed.

(** C6: from the same state of the engine, with the same key and work
    function and under the same schedule, a caller returns [(v, e)] from
    [Do] exactly when it returns [(v, fresh, e)] from [DoEx] for some flag
    [fresh]; the two runs leave the engine and the world in the same
    state. *)
Theorem Do_agrees_with_DoEx (t : tid) (s1 s2 : state) (sched : list tid) :
  twin t s1 s2 →
  let s1' := exec sched s1 in
  let s2' := exec sched s2 in
  world s1' = world s2' ∧ g_lock s1' = g_lock s2' ∧ g_calls s1' = g_calls s2' ∧
  heap s1' = heap s2' ∧
  (∀ t', t' ≠ t → callers s1' !! t' = callers s2' !! t') ∧
  (∀ v e,
     (∃ th1, callers s1' !! t = Some th1 ∧ pc th1 = Finished (RDo v e)) ↔
     (∃ th2 fresh, callers s2' !! t = Some th2 ∧
                   pc th2 = Finished (RDoEx v fresh e))).
Proof.
  intros Htw s1' s2'.
  destruct (exec_twin t sched _ _ Htw)
    as (Hw & Hgl & Hgc & Hh & _ & _ & _ & th1 & th2 & Hth1 & Hcs & Htc).
  fold s1' s2' in Hw, Hgl, Hgc, Hh, Hth1, Hcs.
  repeat (split; [done|]). split.
  - intros t' Hne. rewrite Hcs. by rewrite list_lookup_insert_ne.
  - intros v e. rewrite Hcs, (callers_insert _ _ _ _ _ Hth1), decide_True by done.
    destruct Htc as (k & fn & _ & _ & _ & _ & _ & Hpc). split.
    + intros (th & Hth & Hp). assert (th = th1) as -> by congruence.
      rewrite Hp in Hpc. destruct Hpc as (fresh & Hpc). eauto.
    + intros (th & fresh & [= <-] & Hp). exists th1. split; [done|].
      destruct (pc th1) as [| | | | | | | | | | | | | | | | | | | | |[]|]; simpl in Hpc;
        try (destruct Hpc as (fresh' & Hpc)); try done; congruence.
Qed.
(** ** Callers of GetResource *)

(** The flight group of a [ResourceManager] is private to it: all its
    callers come from [GetResource]. *)
Definition only_get (s : state) : Prop :=
  ∀ t th, callers s !! t = Some th → is_get (op th).

Lemma init_only_get w tbl ops : Forall is_get ops → only_get (init w tbl ops).
Proof.
  intros Hall t th. simpl. intros (o & -> & Ho)%list_lookup_fmap_Some. simpl.
  rewrite Forall_forall in Hall. apply Hall. by eapply list_elem_of_lookup_2.
Qed.

Lemma step_only_get s t s' : only_get s → step t s = Some s' → only_get s'.
Proof.
  intros Hg Hstep t' th' Ht'.
  destruct (step_op _ _ _ _ _ Hstep Ht') as (th & Hth & <- & _). by eapply Hg.
Qed.

(** The three invariants of a manager whose table is the one of [init]. *)
Record MInv (s : state) : Prop := mkMInv {
  minv_inv : Inv s;
  minv_ginv : GInv s;
  minv_get : only_get s
}.

Lemma init_MInv w tbl ops : Forall is_get ops → MInv (init w tbl ops).
Proof.
  intros H. split; [apply init_Inv|apply init_GInv|by apply init_only_get].
Qed.

Lemma step_MInv s t s' : MInv s → step t s = Some s' → MInv s'.
Proof.
  intros [HI HG Hget] Hstep.
  split; [by eapply step_Inv|by eapply step_GInv|by eapply step_only_get].
Qed.

Lemma reachable_MInv s0 s : MInv s0 → reachable s0 s → MInv s.
Proof. intros H0 Hr. induction Hr; [done|]. by eapply step_MInv. Qed.

(** The create function runs only at [Fn_Create]. *)
Lemma step_created s t s' t' th th' :
  step t s = Some s' → callers s !! t' = Some th → callers s' !! t' = Some th' →
  created th' = created th ∨
  (t' = t ∧ ∃ c x, pc th = Fn_Create c ∧ created th' = created th ++ [x] ∧
                   (x.2 = None → pc th' = Fn_Lock c x.1)).
Proof.
  intros Hstep Hth0 Hth'.
  destruct (decide (t = t')) as [<-|Hne];
    [|rewrite (step_callers_other _ _ _ _ Hstep) in Hth' by done; left; congruence].
  step_cases Hstep.
  all: assert (th0 = th) as -> by congruence.
  all: simpl in Hth'; rewrite (callers_insert _ _ _ _ _ Hth), decide_True in Hth' by done;
    injection Hth' as <-; simpl.
  all: try (by left).
  all: right; split; [done|]; eexists _, _; split; [done|]; split; [done|]; done.
Qed.

(** The record of a caller that has run its create function: it is the
    creator of the record it uses. *)
Lemma created_owner s t th :
  MInv s → callers s !! t = Some th → created th ≠ [] →
  ∃ c r ph, used th = Some c ∧ heap s !! c = Some r ∧ owner r = t ∧
            phase_of (pc th) = Some ph ∧ wg r = wg_of ph ∧
            (registered ph → g_calls s !! key_of (op th) = Some c) ∧
            get_at s th r.
Proof.
  intros [HI HG Hget] Hth Hne.
  destruct (used th) as [c|] eqn:Hu.
  2: { destruct Hne. apply (inv_pre _ HI _ _ Hth). by apply (inv_pre _ HI _ _ Hth). }
  destruct (inv_rec _ HI _ _ _ Hth Hu) as (r & _ & Hr & _).
  destruct (decide (owner r = t)) as [Ho|Ho].
  2: { destruct Hne. by apply (inv_join _ HI _ _ _ _ Hth Hu Hr Ho). }
  pose proof (HG _ _ _ _ Hth (Hget _ _ Hth) Hu Hr Ho) as Hat.
  destruct (inv_own _ HI _ _ Hr) as (th' & ph & Hth' & _ & Hph & Hwg & Hreg & _).
  rewrite Ho, Hth in Hth'. injection Hth' as <-.
  exists c, r, ph. done.
Qed.

(** A caller whose create function succeeded is about to store the
    resource, registered for its key, or the resource is in the table. *)
Lemma success_place s t th x :
  MInv s → callers s !! t = Some th → created th = [(x, None)] →
  (phase_of (pc th) = Some Running ∧ resources s !! key_of (op th) = None) ∨
  resources s !! key_of (op th) = Some x.
Proof.
  intros HM Hth Hc.
  destruct (created_owner _ _ _ HM Hth) as (c & r & ph & _ & _ & _ & Hph & _ & _ & Hat);
    [by rewrite Hc|].
  pose proof (inv_fnpc _ (minv_inv _ HM) _ _ Hth) as Hfn.
  pose proof (minv_get _ HM _ _ Hth) as Hget.
  unfold get_at, get_final in Hat. rewrite Hc in Hat.
  destruct (pc th); simpl in Hph; try done.
  all: repeat match goal with
      | H : match ?e with Some _ => _ | None => _ end |- _ => destruct e eqn:?
      | H : ∃ _, _ |- _ => destruct H
      | H : _ ∨ _ |- _ => destruct H
      | H : _ ∧ _ |- _ => destruct H
      end; simplify_eq.
  all: try (by left); try (by right).
Qed.

(** A caller whose create function failed: its record gets nil and the
    error, and the table has no entry for the key while the call is
    registered. *)
Lemma failure_place s t th x e :
  MInv s → callers s !! t = Some th → created th = [(x, Some e)] →
  ∃ c r ph, used th = Some c ∧ heap s !! c = Some r ∧ owner r = t ∧
            phase_of (pc th) = Some ph ∧ wg r = wg_of ph ∧
            (registered ph → g_calls s !! key_of (op th) = Some c ∧
                             resources s !! key_of (op th) = None) ∧
            (pc th = MakeCall_Assign c any_nil (Some e) ∨
             (ph ≠ Running ∧ val r = any_nil ∧ err r = Some e)).
Proof.
  intros HM Hth Hc.
  destruct (created_owner _ _ _ HM Hth) as (c & r & ph & Hu & Hr & Ho & Hph & Hwg & Hreg & Hat);
    [by rewrite Hc|].
  assert (∀ c', pc_call (pc th) = Some (c', false) → c' = c) as Hcc.
  { intros c' Hpcc. pose proof (inv_used _ (minv_inv _ HM) _ _ _ _ Hth Hpcc). congruence. }
  exists c, r, ph. repeat (split; [done|]).
  pose proof (inv_fnpc _ (minv_inv _ HM) _ _ Hth) as Hfn.
  pose proof (minv_get _ HM _ _ Hth) as Hget.
  unfold get_at, get_final in Hat. rewrite Hc in Hat.
  destruct (pc th) eqn:Hpc; simpl in Hph; try done.
  all: repeat match goal with
      | H : match ?e with Some _ => _ | None => _ end |- _ => destruct e eqn:?
      | H : ∃ _, _ |- _ => destruct H
      | H : _ ∨ _ |- _ => destruct H
      | H : _ ∧ _ |- _ => destruct H
      end; simplify_eq; try congruence.
  all: try (rewrite (Hcc _ eq_refl)).
  all: try (split; [intros Hrg; split; [by apply Hreg|by auto]|]).
  all: try (by left).
  all: try (right; done).
  all: try (split; [done|right; done]).
  destruct done; simplify_eq. split; [done|]. right. done.
Qed.
(** An entry of the table is never overwritten (absent [Inject] and
    [Close]). *)
Lemma resources_stable s t s' k ro :
  MInv s → step t s = Some s' →
  resources s !! k = Some ro → resources s' !! k = Some ro.
Proof.
  intros [HI HG Hget] Hstep Hk.
  destruct (step_callers _ _ _ Hstep) as (th & _ & Hth & _ & _).
  destruct (step_resources _ _ _ _ Hstep Hth) as [->|(c & x & Hpc & ->)]; [done|].
  destruct (decide (key_of (op th) = k)) as [Heq|Hne];
    [|by rewrite lookup_insert_ne].
  destruct (creator_record _ _ _ _ HI Hth ltac:(by rewrite Hpc)) as (r & Hu & Hr & Ho).
  pose proof (HG _ _ _ _ Hth (Hget _ _ Hth) Hu Hr Ho) as Hat.
  unfold get_at in Hat. rewrite Hpc in Hat. destruct Hat as (_ & Hnone). congruence.
Qed.

Lemma resources_stable_reachable s s' k ro :
  MInv s → reachable s s' →
  resources s !! k = Some ro → resources s' !! k = Some ro.
Proof.
  intros HM Hr Hk. induction Hr as [|s1 t s2 Hr IH Hstep]; [done|].
  eapply resources_stable; [by eapply reachable_MInv|done|done].
Qed.

(** The caller at [Fn_Create]: registered, with no entry for its key. *)
Lemma at_create s t th c :
  MInv s → callers s !! t = Some th → pc th = Fn_Create c →
  created th = [] ∧ resources s !! key_of (op th) = None.
Proof.
  intros [HI HG Hget] Hth Hpc.
  destruct (creator_record _ _ _ _ HI Hth ltac:(by rewrite Hpc)) as (r & Hu & Hr & Ho).
  pose proof (HG _ _ _ _ Hth (Hget _ _ Hth) Hu Hr Ho) as Hat.
  unfold get_at in Hat. by rewrite Hpc in Hat.
Qed.

(** Every caller has run its create function at most once. *)
Definition created_once (s : state) : Prop :=
  ∀ t th, callers s !! t = Some th → length (created th) ≤ 1.

Lemma step_created_once s t s' :
  MInv s → created_once s → step t s = Some s' → created_once s'.
Proof.
  intros HM H1 Hstep t' th' Ht'.
  destruct (step_op _ _ _ _ _ Hstep Ht') as (th & Hth & _ & _).
  destruct (step_created _ _ _ _ _ _ Hstep Hth Ht') as [->|(-> & c & x & Hpc & -> & _)].
  - by eapply H1.
  - destruct (at_create _ _ _ _ HM Hth Hpc) as (-> & _). simpl. lia.
Qed.

(** For each key at most one caller has seen its create function
    succeed. *)
Definition success_unique (s : state) : Prop :=
  ∀ t1 t2 th1 th2 x1 x2,
    callers s !! t1 = Some th1 → callers s !! t2 = Some th2 →
    key_of (op th1) = key_of (op th2) →
    created th1 = [(x1, None)] → created th2 = [(x2, None)] → t1 = t2.

Lemma step_success_unique s t s' :
  MInv s → success_unique s → step t s = Some s' → success_unique s'.
Proof.
  intros HM HU Hstep.
  assert (∀ t1 t2 th1' th2' x1 x2,
    callers s' !! t1 = Some th1' → callers s' !! t2 = Some th2' →
    key_of (op th1') = key_of (op th2') →
    created th1' = [(x1, None)] → created th2' = [(x2, None)] →
    ∀ th1, callers s !! t1 = Some th1 → created th1' ≠ created th1 → t1 = t2) as Hnew.
  { intros t1 t2 th1' th2' x1 x2 Ht1' Ht2' Hk Hc1 Hc2 th1 Hth1 Hch.
    destruct (step_created _ _ _ _ _ _ Hstep Hth1 Ht1') as [?|(-> & c & x & Hpc & Hcr & _)];
      [done|].
    destruct (at_create _ _ _ _ HM Hth1 Hpc) as (Hnil & Hnone).
    destruct (decide (t = t2)) as [|Hne]; [done|]. exfalso.
    destruct (step_op _ _ _ _ _ Hstep Ht1') as (th1b & Hth1b & Hop1 & _).
    assert (th1b = th1) as -> by congruence.
    rewrite (step_callers_other _ _ _ _ Hstep) in Ht2' by done.
    destruct (success_place _ _ _ _ HM Ht2' Hc2) as [(Hph & _)|Hsome].
    - apply Hne.
      eapply (registered_unique _ _ _ _ _ Running Running (minv_inv _ HM) Hth1 Ht2');
        try done; [by rewrite Hpc|congruence].
    - rewrite <- Hk, <- Hop1 in Hsome. congruence. }
  intros t1 t2 th1' th2' x1 x2 Ht1' Ht2' Hk Hc1 Hc2.
  destruct (step_op _ _ _ _ _ Hstep Ht1') as (th1 & Hth1 & Hop1 & _).
  destruct (step_op _ _ _ _ _ Hstep Ht2') as (th2 & Hth2 & Hop2 & _).
  destruct (decide (created th1' = created th1)) as [He1|Hn1];
    [|by eapply (Hnew t1 t2)].
  destruct (decide (created th2' = created th2)) as [He2|Hn2];
    [|symmetry; by eapply (Hnew t2 t1)].
  eapply (HU t1 t2 th1 th2 x1 x2); try done; congruence.
Qed.

Record CInv (s : state) : Prop := mkCInv {
  cinv_minv : MInv s;
  cinv_once : created_once s;
  cinv_unique : success_unique s
}.

Lemma init_CInv w tbl ops : Forall is_get ops → CInv (init w tbl ops).
Proof.
  intros H. split; [by apply init_MInv| |].
  - intros t th. simpl. intros (o & -> & _)%list_lookup_fmap_Some. simpl. lia.
  - intros t1 t2 th1 th2 x1 x2. simpl.
    intros (o & -> & _)%list_lookup_fmap_Some. done.
Qed.

Lemma reachable_CInv s0 s : CInv s0 → reachable s0 s → CInv s.
Proof.
  intros H0 Hr. induction Hr as [|s1 t s2 Hr [HM H1 HU] Hstep]; [done|].
  split; [by eapply step_MInv|by eapply step_created_once|by eapply step_success_unique].
Qed.

(** ** Counting the invocations of create *)

(** The number of results satisfying [P] in the logs of the callers with
    key [k]. *)
Definition count_created (P : io_Closer * error → bool) (k : string)
    (s : state) : nat :=
  sum_list_with
    (λ th, if decide (key_of (op th) = k)
           then length (filter (λ x, P x = true) (created th)) else 0)
    (callers s).

Definition succeeded (x : io_Closer * error) : bool :=
  match x.2 with
  | None => true
  | Some _ => false
  end.

Definition any_result (x : io_Closer * error) : bool := true.

Lemma sum_list_with_le_one {A} (f : A → nat) (l : list A) :
  (∀ i x, l !! i = Some x → f x ≤ 1) →
  (∀ i j x y, l !! i = Some x → l !! j = Some y → 0 < f x → 0 < f y → i = j) →
  sum_list_with f l ≤ 1.
Proof.
  induction l as [|a l IH]; intros Hle Huniq; simpl; [lia|].
  pose proof (Hle 0 a eq_refl) as Ha.
  destruct (decide (f a = 0)) as [Hz|Hnz].
  - rewrite Hz. simpl. apply IH.
    + intros i x Hi. by apply (Hle (S i)).
    + intros i j x y Hi Hj Hx Hy.
      assert (S i = S j) by (by eapply (Huniq (S i) (S j))). lia.
  - assert (sum_list_with f l = 0) as ->; [|lia].
    destruct (decide (sum_list_with f l = 0)) as [|Hpos]; [done|].
    destruct (sum_list_with_pos f l) as (i & x & Hi & Hx); [lia|].
    assert (0 = S i) by (eapply (Huniq 0 (S i) a x); try done; lia). lia.
Qed.
Lemma succeeded_single (l : list (io_Closer * error)) :
  length l ≤ 1 → 0 < length (filter (λ x, succeeded x = true) l) →
  ∃ x, l = [(x, None)].
Proof.
  destruct l as [|[x e] [|? ?]]; simpl; try lia.
  intros _. rewrite filter_cons. unfold succeeded at 1. simpl.
  destruct e; simpl; [lia|]. eauto.
Qed.

Lemma count_succeeded_le_one s k : CInv s → count_created succeeded k s ≤ 1.
Proof.
  intros [HM H1 HU]. unfold count_created. apply sum_list_with_le_one.
  - intros i th Hth. case_decide; [|lia].
    etrans; [apply length_filter|]. by eapply H1.
  - intros i j th1 th2 Hth1 Hth2 Hp1 Hp2.
    destruct (decide (key_of (op th1) = k)) as [Hk1|]; [|lia].
    destruct (decide (key_of (op th2) = k)) as [Hk2|]; [|lia].
    destruct (succeeded_single _ (H1 _ _ Hth1) Hp1) as (x1 & Hx1).
    destruct (succeeded_single _ (H1 _ _ Hth2) Hp2) as (x2 & Hx2).
    eapply (HU i j th1 th2 x1 x2); try done. congruence.
Qed.

(** ** Calls that start once the resource is stored *)

(** [settled k ro t s]: the table holds [ro] for [k]; caller [t], with key
    [k], has not run its create function, and neither has failed the
    creator of the record it uses, if any. *)
Definition settled (k : string) (ro : io_Closer) (t : tid) (s : state) : Prop :=
  resources s !! k = Some ro ∧
  ∃ th, callers s !! t = Some th ∧ key_of (op th) = k ∧ created th = [] ∧
        ∀ c r tho, used th = Some c → heap s !! c = Some r →
                   callers s !! owner r = Some tho →
                   ∀ x e, created tho ≠ [(x, Some e)].

Lemma step_settled k ro t s t' s' :
  MInv s → settled k ro t s → step t' s = Some s' → settled k ro t s'.
Proof.
  intros HM (Hres & th & Hth & Hk & Hcr & Hown) Hstep.
  pose proof (minv_inv _ HM) as HI.
  split; [by eapply resources_stable|].
  destruct (step_callers _ _ _ Hstep) as (tht & _ & Htht & _ & _).
  assert (∃ th', callers s' !! t = Some th') as (th' & Hth').
  { destruct (step_callers _ _ _ Hstep) as (? & th1 & Hx & -> & _).
    rewrite (callers_insert _ _ _ _ _ Hx). case_decide; eauto. }
  destruct (step_op _ _ _ _ _ Hstep Hth') as (th0 & Hth0 & Hop & Hsame).
  assert (th0 = th) as -> by congruence.
  assert (∀ to tho tho', callers s !! to = Some tho → callers s' !! to = Some tho' →
            key_of (op tho) = k → created tho' = created tho) as Hkeep.
  { intros to tho tho' Hto Hto' Hko.
    destruct (step_created _ _ _ _ _ _ Hstep Hto Hto') as [?|(-> & c & x & Hpc & _)]; [done|].
    destruct (at_create _ _ _ _ HM Hto Hpc) as (_ & Hnone). congruence. }
  exists th'. split; [done|]. split; [congruence|].
  split; [by rewrite (Hkeep _ _ _ Hth Hth' Hk)|].
  intros c r tho' Hu' Hr' Htho' x e Hfail.
  assert (∀ r0 tho, heap s !! c = Some r0 → callers s !! owner r0 = Some tho →
            key_of (op tho) = k → created tho = [(x, Some e)] ∧ owner r0 = owner r) as Hback.
  { intros r0 tho Hr0 Htho Hko.
    destruct (step_heap_fwd _ _ _ _ _ HI Hstep Hr0) as (r1 & Hr1 & Ho1 & _).
    assert (r1 = r) as -> by congruence. split; [|done].
    rewrite Ho1 in Htho'. by rewrite <- (Hkeep _ _ _ Htho Htho' Hko). }
  destruct (decide (t' = t)) as [->|Hne].
  - destruct (step_used_effect _ _ _ _ _ Hstep Hth Hth')
      as [Hsm|[(Hpc & c' & Hg & Hu2 & _)|(Hpc & Hu2)]].
    + rewrite Hsm in Hu'.
      destruct (inv_rec _ HI _ _ _ Hth Hu') as (r0 & tho & Hr0 & Htho & Hko).
      destruct (Hback r0 tho Hr0 Htho ltac:(congruence)) as (Hf & _).
      by eapply (Hown c r0 tho).
    + assert (c' = c) as -> by congruence.
      destruct (inv_reg _ HI _ _ Hg) as (r0 & tho & ph & Hr0 & Htho & Hko & Hph & Hrg).
      destruct (Hback r0 tho Hr0 Htho ltac:(congruence)) as (Hf & _).
      destruct (failure_place _ _ _ _ _ HM Htho Hf) as (? & ? & ph' & _ & _ & _ & Hph' & _ & Hreg & _).
      assert (ph' = ph) as -> by congruence.
      destruct (Hreg Hrg) as (_ & Hnone). congruence.
    + assert (c = length (heap s)) as -> by congruence.
      destruct (step_heap_bwd _ _ _ _ _ Hstep Hr') as [(r0 & Hr0 & _)|(_ & Ho & _)].
      * apply lookup_lt_Some in Hr0. lia.
      * rewrite Ho, Hth' in Htho'. injection Htho' as <-.
        rewrite (Hkeep _ _ _ Hth Hth' Hk), Hcr in Hfail. done.
  - rewrite <- (Hsame ltac:(done)) in Hu'.
    destruct (inv_rec _ HI _ _ _ Hth Hu') as (r0 & tho & Hr0 & Htho & Hko).
    destruct (Hback r0 tho Hr0 Htho ltac:(congruence)) as (Hf & _).
    by eapply (Hown c r0 tho).
Qed.

Lemma reachable_settled k ro t s s' :
  MInv s → settled k ro t s → reachable s s' → settled k ro t s'.
Proof.
  intros HM Hs Hr. induction Hr as [|s1 t' s2 Hr IH Hstep]; [done|].
  eapply step_settled; [by eapply reachable_MInv|done|done].
Qed.

(** What a call of [GetResource] has read once past its call of [Do]: the
    results that the closure of the creator of its record computed. *)
Lemma get_result s t th :
  MInv s → callers s !! t = Some th →
  terminal (pc th) ∨ (∃ v e, pc th = Get_Check v e) →
  ∃ c r tho,
    used th = Some c ∧ heap s !! c = Some r ∧ wg r = 0 ∧
    callers s !! owner r = Some tho ∧ key_of (op tho) = key_of (op th) ∧
    get_final s tho (val r) (err r) False ∧
    (pc th = Get_Check (val r) (err r) ∨ pc th = check (val r) (err r)).
Proof.
  intros HM Hth Hret. pose proof (minv_inv _ HM) as HI.
  destruct (returned_record _ _ _ HI Hth Hret)
    as (c & r & tho & Hu & Hr & Hwg & Htho & Hk & _ & Hcase).
  exists c, r, tho. repeat (split; [done|]).
  pose proof (minv_get _ HM _ _ Hth) as Hget.
  split.
  - destruct (inv_own _ HI _ _ Hr) as (tho' & ph & Htho' & Hu' & Hph & Hwg' & _).
    assert (tho' = tho) as -> by congruence.
    assert (ph = Signalled) as -> by (destruct ph; simpl in Hwg'; congruence).
    pose proof (minv_ginv _ HM _ _ _ _ Htho (minv_get _ HM _ _ Htho) Hu' Hr eq_refl) as Hat.
    unfold get_at in Hat.
    destruct (pc tho) as [| | | | | | | | | | | | | | | | | | |? []| | |];
      simpl in Hph; simplify_eq; done.
  - assert (∀ d, returned_from th d r →
              pc th = Get_Check (val r) (err r) ∨ pc th = check (val r) (err r)) as Hrf.
    { intros d [Hp|(_ & Hp)]; [|by right]. left. by destruct (op th). }
    destruct Hcase as [(_ & H)|(_ & H & _)]; by eapply Hrf.
Qed.
(** ** A call running on its own *)

Lemma solo_succ t n (s : state) : solo t (S n) s = solo t n (exec_step s t).
Proof. reflexivity. Qed.

Lemma solo_zero t (s : state) : solo t 0 s = s.
Proof. reflexivity. Qed.

#[local] Arguments solo : simpl never.
#[local] Arguments exec_step : simpl never.

Lemma exec_step_Some (s : state) t s' : step t s = Some s' → exec_step s t = s'.
Proof. intros H. unfold exec_step. by rewrite H. Qed.

Lemma heap_last (h : list call) (r : call) : (h ++ [r]) !! length h = Some r.
Proof. by rewrite heap_snoc, decide_True. Qed.

Lemma heap_set_last (h : list call) (r r' : call) :
  <[length h := r']> (h ++ [r]) = h ++ [r'].
Proof.
  replace (length h) with (length h + 0) at 1 by lia. by rewrite insert_app_r.
Qed.

(** One statement of a caller on an explicit state; [tac] rewrites with the
    facts that decide the branch taken. *)
Ltac explicit_state :=
  unfold set_caller, set_g_lock, set_g_calls, set_heap, set_world,
    set_m_readers, set_m_writer, set_resources, goto, set_used, log_invoked,
    log_created, assign, wg_done; simpl;
  rewrite ?list_insert_insert_eq, ?heap_set_last.

Ltac solo_step Hlt tac :=
  rewrite solo_succ;
  erewrite exec_step_Some;
  [|unfold step, key_of; simpl;
    rewrite ?(list_lookup_insert_eq _ _ _ Hlt); simpl;
    rewrite ?heap_last; simpl;
    tac; simpl; rewrite ?decide_True by set_solver; simpl; reflexivity];
  explicit_state.

Lemma readers_released (t : tid) : ({[t]} ∪ ∅) ∖ {[t]} = (∅ : gset nat).
Proof. set_solver. Qed.

Lemma solo_failure (s0 : state) (t : tid) k create x e w' :
  g_lock s0 = None → m_writer s0 = None → m_readers s0 = ∅ →
  g_calls s0 !! k = None → resources s0 !! k = None →
  callers s0 !! t = Some (spawn (OpGetResource k create)) →
  create (world s0) = (w', (x, Some e)) →
  solo t 15 s0 =
  {| world := w'; g_lock := None; g_calls := g_calls s0;
     heap := heap s0 ++ [{| wg := 0; val := any_nil; err := Some e; owner := t |}];
     m_readers := ∅; m_writer := None; resources := resources s0;
     callers := <[t := {| op := OpGetResource k create;
                          pc := Finished (RGetResource None (Some e));
                          invoked := []; created := [(x, Some e)];
                          used := Some (length (heap s0)) |}]> (callers s0) |}.
Proof.
  destruct s0 as [w gl gc h mr mw res cs]. simpl.
  intros -> -> -> Hk Hres Hth Hcreate.
  assert (t < length cs) as Hlt by (by eapply lookup_lt_Some).
  solo_step Hlt ltac:(rewrite Hth).
  solo_step Hlt ltac:(rewrite Hk).
  solo_step Hlt idtac.
  solo_step Hlt idtac.
  solo_step Hlt idtac.
  solo_step Hlt idtac.
  solo_step Hlt ltac:(rewrite Hres).
  solo_step Hlt ltac:(rewrite Hcreate).
  solo_step Hlt idtac.
  solo_step Hlt idtac.
  solo_step Hlt idtac.
  solo_step Hlt idtac.
  solo_step Hlt idtac.
  solo_step Hlt idtac.
  solo_step Hlt idtac.
  rewrite solo_zero, readers_released.
  rewrite delete_insert_id by done.
  reflexivity.
Qed.

(** The statements of a call that finds neither a call in flight nor a
    resource for its key, up to the return of its create function. *)
Lemma solo_retry (s0 : state) (t : tid) k create w' r :
  g_lock s0 = None → m_writer s0 = None → m_readers s0 = ∅ →
  g_calls s0 !! k = None → resources s0 !! k = None →
  callers s0 !! t = Some (spawn (OpGetResource k create)) →
  create (world s0) = (w', r) →
  solo t 8 s0 =
  {| world := w'; g_lock := None;
     g_calls := <[k := length (heap s0)]> (g_calls s0);
     heap := heap s0 ++ [{| wg := 1; val := any_nil; err := None; owner := t |}];
     m_readers := ∅; m_writer := None; resources := resources s0;
     callers := <[t := {| op := OpGetResource k create;
                          pc := match r.2 with
                                | Some e => MakeCall_Assign (length (heap s0)) any_nil (Some e)
                                | None => Fn_Lock (length (heap s0)) r.1
                                end;
                          invoked := []; created := [r];
                          used := Some (length (heap s0)) |}]> (callers s0) |}.
Proof.
  destruct s0 as [w gl gc h mr mw res cs]. simpl.
  intros -> -> -> Hk Hres Hth Hcreate.
  assert (t < length cs) as Hlt by (by eapply lookup_lt_Some).
  destruct r as [x [e|]].
  all: solo_step Hlt ltac:(rewrite Hth).
  all: solo_step Hlt ltac:(rewrite Hk).
  all: solo_step Hlt idtac.
  all: solo_step Hlt idtac.
  all: solo_step Hlt idtac.
  all: solo_step Hlt idtac.
  all: solo_step Hlt ltac:(rewrite Hres).
  all: solo_step Hlt ltac:(rewrite Hcreate).
  all: rewrite solo_zero, readers_released; reflexivity.
Qed.
(** ** Removal from the registry and completion signal *)

(** C2 (amended): when an execution finishes, whatever the work function
    returned, its creator removes the key from the registry under the
    lock, releases the lock, and only then fires the completion signal:
    three statements, in that order.  In every reachable state a record is
    registered under the key of its creator exactly in the phases before
    the removal, and its WaitGroup has fired exactly in the last phase, so
    a fired record is never registered; between the two lies the phase
    [Removed], where the key is absent and the signal not yet fired.  A
    caller that finds the key absent creates a new record and becomes its
    creator: it starts a new execution and joins no earlier one. *)
Theorem removal_before_signal (w : W) (tbl : gmap string io_Closer)
    (ops : list Op) (s : state) :
  reachable (init w tbl ops) s →
  (∀ c r, heap s !! c = Some r →
     ∃ tho ph, callers s !! owner r = Some tho ∧ phase_of (pc tho) = Some ph ∧
       (∀ k, g_calls s !! k = Some c ↔ k = key_of (op tho) ∧ registered ph) ∧
       (wg r = 0 ↔ ph = Signalled)) ∧
  (∀ t th c, callers s !! t = Some th → pc th = MakeCall_Delete c →
     ∃ r, heap s !! c = Some r ∧ wg r = 1 ∧
          solo t 1 s =
            set_caller t (goto (MakeCall_DeferUnlock c) th)
              (set_g_calls (delete (key_of (op th)) (g_calls s)) s)) ∧
  (∀ t th c, callers s !! t = Some th → pc th = MakeCall_DeferUnlock c →
     ∃ r, heap s !! c = Some r ∧ wg r = 1 ∧ (∀ k, g_calls s !! k ≠ Some c) ∧
          solo t 1 s =
            set_caller t (goto (MakeCall_Done c) th) (set_g_lock None s)) ∧
  (∀ t th c, callers s !! t = Some th → pc th = MakeCall_Done c →
     ∃ r, heap s !! c = Some r ∧ wg r = 1 ∧ (∀ k, g_calls s !! k ≠ Some c) ∧
          solo t 1 s =
            set_caller t (goto (Return_ c false) th)
              (set_heap (<[c := wg_done r]> (heap s)) s)) ∧
  (∀ t th, callers s !! t = Some th → pc th = CreateCall_Lookup →
     g_calls s !! key_of (op th) = None →
     let c := length (heap s) in
     solo t 2 s =
       set_caller t (goto (CreateCall_UnlockNew c) (set_used c th))
         (set_g_calls (<[key_of (op th) := c]> (g_calls s))
            (set_heap (heap s ++ [{| wg := 1; val := any_nil; err := None;
                                     owner := t |}]) s))).
Proof.
  intros Hreach. pose proof (init_reachable_Inv _ _ _ _ Hreach) as HI.
  assert (∀ t th c ph, callers s !! t = Some th → pc_call (pc th) = Some (c, false) →
            phase_of (pc th) = Some ph →
            ∃ r, heap s !! c = Some r ∧ wg r = wg_of ph ∧
                 (¬ registered ph → ∀ k, g_calls s !! k ≠ Some c)) as Hcre.
  { intros t th c ph Hth Hpcc Hph.
    destruct (creator_record _ _ _ _ HI Hth Hpcc) as (r & Hu & Hr & Ho).
    destruct (inv_own _ HI _ _ Hr) as (th' & ph' & Hth' & _ & Hph' & Hwg & _).
    rewrite Ho, Hth in Hth'. injection Hth' as <-.
    assert (ph' = ph) as -> by congruence.
    exists r. split; [done|]. split; [done|]. intros Hnr k Hk.
    destruct (inv_reg _ HI _ _ Hk) as (r' & th' & ph' & Hr' & Hth' & _ & Hph'' & Hrg).
    assert (r' = r) as -> by congruence. rewrite Ho, Hth in Hth'.
    injection Hth' as <-. assert (ph' = ph) as -> by congruence. done. }
  split; [|split; [|split; [|split]]].
  - intros c r Hr.
    destruct (inv_own _ HI _ _ Hr) as (tho & ph & Htho & Hu & Hph & Hwg & Hreg & _).
    exists tho, ph. split; [done|]. split; [done|]. split.
    + intros k. split.
      * intros Hk.
        destruct (inv_reg _ HI _ _ Hk) as (r' & th' & ph' & Hr' & Hth' & Hk' & Hph' & Hrg).
        assert (r' = r) as -> by congruence.
        assert (th' = tho) as -> by congruence.
        assert (ph' = ph) as -> by congruence. done.
      * intros (-> & Hrg). by apply Hreg.
    + rewrite Hwg. destruct ph; simpl; split; (done || lia).
  - intros t th c Hth Hpc.
    destruct (Hcre t th c Assigned Hth) as (r & Hr & Hwg & _); try (by rewrite Hpc).
    exists r. split; [done|]. split; [done|].
    rewrite solo_succ. erewrite exec_step_Some; [reflexivity|].
    unfold step. rewrite Hth. simpl. by rewrite Hpc.
  - intros t th c Hth Hpc.
    destruct (Hcre t th c Removed Hth) as (r & Hr & Hwg & Hnr); try (by rewrite Hpc).
    exists r. split; [done|]. split; [done|]. split; [apply Hnr; simpl; tauto|].
    pose proof (proj2 (inv_lock_g _ HI _ _ Hth)) as Hg. rewrite Hpc in Hg.
    rewrite solo_succ. erewrite exec_step_Some; [reflexivity|].
    unfold step. rewrite Hth. simpl. by rewrite Hpc, (Hg I).
  - intros t th c Hth Hpc.
    destruct (Hcre t th c Removed Hth) as (r & Hr & Hwg & Hnr); try (by rewrite Hpc).
    exists r. split; [done|]. split; [done|]. split; [apply Hnr; simpl; tauto|].
    rewrite solo_succ. erewrite exec_step_Some; [reflexivity|].
    unfold step. rewrite Hth. simpl. rewrite Hpc, Hr. simpl.
    rewrite decide_False; [done|]. simpl in Hwg. lia.
  - intros t th Hth Hpc Hk c.
    assert (t < length (callers s)) as Hlt by (by eapply lookup_lt_Some).
    rewrite solo_succ. erewrite exec_step_Some;
      [|unfold step; rewrite Hth; simpl; rewrite Hpc, Hk; reflexivity].
    rewrite solo_succ. erewrite exec_step_Some;
      [|unfold step; simpl; rewrite (list_lookup_insert_eq _ _ _ Hlt); simpl; reflexivity].
    unfold solo, exec, set_caller. simpl. by rewrite list_insert_insert_eq.
Qed.

(** ** GetResource *)

Lemma get_reachable_CInv (w : W) tbl ops s :
  Forall is_get ops → reachable (init w tbl ops) s → CInv s.
Proof. intros Hg Hr. eapply reachable_CInv; [by apply init_CInv|done]. Qed.

(** C3 (amended): for every key at most one invocation of a create
    function succeeds over the life of the manager (absent [Inject] and
    [Close]); once a resource is stored for a key, every call of
    [GetResource] for that key that starts afterwards never calls its
    create function and, when it returns, returns that stored resource with
    a nil error.  Some schedule makes every call return. *)
Theorem create_succeeds_at_most_once (w : W) (tbl : gmap string io_Closer)
    (ops : list Op) (s : state) :
  Forall is_get ops → reachable (init w tbl ops) s →
  (∀ k, count_created succeeded k s ≤ 1) ∧
  (∀ k r t th,
     resources s !! k = Some (Some r) → callers s !! t = Some th →
     key_of (op th) = k → pc th = CreateCall_Lock →
     ∀ s' th', reachable s s' → callers s' !! t = Some th' →
       resources s' !! k = Some (Some r) ∧ created th' = [] ∧
       (terminal (pc th') → pc th' = Finished (RGetResource (Some r) None))) ∧
  (∃ sched, all_returned (exec sched s)).
Proof.
  intros Hget Hreach. pose proof (get_reachable_CInv _ _ _ _ Hget Hreach) as HC.
  pose proof (cinv_minv _ HC) as HM. pose proof (minv_inv _ HM) as HI.
  split; [intros k; by apply count_succeeded_le_one|]. split.
  - intros k r t th Hres Hth Hk Hpc s' th' Hreach' Hth'.
    assert (settled k (Some r) t s) as Hset.
    { split; [done|]. exists th. split; [done|]. split; [done|].
      destruct (inv_pre _ HI _ _ Hth) as (Hpre & Hlogs). rewrite Hpc in Hpre, Hlogs.
      split; [by apply Hlogs|]. intros c r0 tho Hu. rewrite (proj1 Hpre I) in Hu. done. }
    pose proof (reachable_settled _ _ _ _ _ HM Hset Hreach')
      as (Hres' & th1 & Hth1 & Hk1 & Hcr1 & Hown1).
    assert (th1 = th') as -> by congruence.
    split; [done|]. split; [done|]. intros Hterm.
    pose proof (reachable_MInv _ _ HM Hreach') as HM'.
    destruct (get_result _ _ _ HM' Hth' (or_introl Hterm))
      as (c & r0 & tho & Hu & Hr0 & _ & Htho & Hko & Hfin & Hpc').
    destruct Hpc' as [Hpc'|Hpc']; [by rewrite Hpc' in Hterm|].
    rewrite Hpc'. unfold get_final in Hfin.
    destruct (err r0) as [e|] eqn:He.
    + destruct Hfin as (_ & (x & Hx) & _). by destruct (Hown1 c r0 tho Hu Hr0 Htho x e).
    + destruct Hfin as (ro & -> & Hro & _). rewrite Hko, Hk1, Hres' in Hro.
      injection Hro as <-. done.
  - destruct (all_return _ HI) as (sched & Hall & _). eauto.
Qed.

(** C4: when the create function of a call of [GetResource] has returned
    an error, the call returns nil and that error; it never writes the
    table, which has no entry for the key as long as the call is
    registered; when it has returned, its registry entry is cleared.  Run
    on its own from a state with nothing in flight or stored for the key,
    the failed call leaves the registry, the table and the locks as they
    were, and a call for the same key that follows invokes its create
    function again. *)
Theorem create_failure (w : W) (tbl : gmap string io_Closer)
    (ops : list Op) (s : state) :
  Forall is_get ops → reachable (init w tbl ops) s →
  (∀ t th x e,
     callers s !! t = Some th → created th = [(x, Some e)] →
     (terminal (pc th) → pc th = Finished (RGetResource None (Some e))) ∧
     (∀ s', step t s = Some s' → resources s' = resources s) ∧
     (∀ ph, phase_of (pc th) = Some ph → registered ph →
            resources s !! key_of (op th) = None) ∧
     (terminal (pc th) →
      ∀ c, used th = Some c → ∀ k, g_calls s !! k ≠ Some c)) ∧
  (∀ t k create x e w',
     g_lock s = None → m_writer s = None → m_readers s = ∅ →
     g_calls s !! k = None → resources s !! k = None →
     callers s !! t = Some (spawn (OpGetResource k create)) →
     create (world s) = (w', (x, Some e)) →
     let s1 := solo t 15 s in
     (∃ th1, callers s1 !! t = Some th1 ∧
             pc th1 = Finished (RGetResource None (Some e)) ∧
             created th1 = [(x, Some e)]) ∧
     g_calls s1 = g_calls s ∧ resources s1 = resources s ∧
     g_lock s1 = g_lock s ∧ m_writer s1 = m_writer s ∧
     m_readers s1 = m_readers s ∧ world s1 = w' ∧
     (∀ t', t' ≠ t → callers s1 !! t' = callers s !! t') ∧
     (∀ t2 create2,
        t2 ≠ t → callers s !! t2 = Some (spawn (OpGetResource k create2)) →
        ∃ th2, callers (solo t2 8 s1) !! t2 = Some th2 ∧
               created th2 = [(create2 w').2])).
Proof.
  intros Hget Hreach. pose proof (get_reachable_CInv _ _ _ _ Hget Hreach) as HC.
  pose proof (cinv_minv _ HC) as HM. pose proof (minv_inv _ HM) as HI.
  split.
  - intros t th x e Hth Hcr.
    destruct (failure_place _ _ _ _ _ HM Hth Hcr)
      as (c & r & ph & Hu & Hr & Ho & Hph & Hwg & Hreg & Hwhere).
    split; [|split; [|split]].
    + intros Hterm.
      destruct (get_result _ _ _ HM Hth (or_introl Hterm))
        as (c' & r' & tho & Hu' & Hr' & _ & _ & _ & _ & Hpc').
      assert (c' = c) as -> by congruence. assert (r' = r) as -> by congruence.
      destruct Hpc' as [Hpc'|Hpc']; [by rewrite Hpc' in Hterm|].
      destruct Hwhere as [Hpc|(_ & Hv & He)]; [by rewrite Hpc in Hterm|].
      by rewrite Hpc', Hv, He.
    + intros s' Hstep.
      destruct (step_resources _ _ _ _ Hstep Hth) as [?|(c' & x' & Hpc & _)]; [done|].
      destruct (creator_record _ _ _ _ HI Hth ltac:(by rewrite Hpc)) as (r' & Hu' & Hr' & Ho').
      pose proof (minv_ginv _ HM _ _ _ _ Hth (minv_get _ HM _ _ Hth) Hu' Hr' Ho') as Hat.
      unfold get_at in Hat. rewrite Hpc in Hat. destruct Hat as (Hc' & _). congruence.
    + intros ph' Hph' Hrg. assert (ph' = ph) as -> by congruence. by apply Hreg.
    + intros Hterm c' Hu' k Hk. assert (c' = c) as -> by congruence.
      destruct (inv_reg _ HI _ _ Hk) as (r' & th' & ph' & Hr' & Hth' & _ & Hph' & Hrg).
      assert (r' = r) as -> by congruence. rewrite Ho, Hth in Hth'.
      injection Hth' as <-. destruct (pc th); simpl in *; simplify_eq; done.
  - intros t k create x e w' Hg Hmw Hmr Hk Hres Hth Hcreate s1.
    unfold s1. rewrite (solo_failure s t k create x e w') by done.
    cbn [world g_lock g_calls heap m_readers m_writer resources callers].
    assert (t < length (callers s)) as Hlt by (by eapply lookup_lt_Some).
    split; [rewrite (list_lookup_insert_eq _ _ _ Hlt); by eexists|].
    repeat (split; [done|]).
    split; [intros t' Hne; by rewrite list_lookup_insert_ne|].
    intros t2 create2 Hne Hth2.
    assert (t2 < length (callers s)) as Hlt2 by (by eapply lookup_lt_Some).
    destruct (create2 w') as [w2 r2] eqn:Hc2.
    rewrite (solo_retry _ t2 k create2 w2 r2);
      cbn [world g_lock g_calls heap m_readers m_writer resources callers];
      try done.
    + rewrite list_lookup_insert_eq by (by rewrite length_insert).
      eexists. split; [done|]. done.
    + by rewrite list_lookup_insert_ne.
Qed.
(** ** The type assertion of GetResource *)

(** A create function that never returns a nil resource with a nil
    error. *)
Definition never_nil (o : Op) : Prop :=
  match o with
  | OpGetResource _ create => ∀ w, (create w).2 ≠ (None, None)
  | _ => True
  end.

(** The table holds no nil interface, and no caller is about to store
    one. *)
Definition NInv (s : state) : Prop :=
  (∀ k, resources s !! k ≠ Some None) ∧
  ∀ t th, callers s !! t = Some th →
    never_nil (op th) ∧
    match pc th with
    | Fn_Lock _ r | Fn_Store _ r | Fn_Unlock _ r => r ≠ None
    | _ => True
    end.

Lemma init_NInv (w : W) tbl ops :
  (∀ k, tbl !! k ≠ Some None) → Forall never_nil ops → NInv (init w tbl ops).
Proof.
  intros Htbl Hnn. split; [done|]. intros t th. simpl.
  intros (o & -> & Ho)%list_lookup_fmap_Some. simpl. split; [|done].
  rewrite Forall_forall in Hnn. apply Hnn. by eapply list_elem_of_lookup_2.
Qed.

Lemma step_NInv (s : state) t s' : NInv s → step t s = Some s' → NInv s'.
Proof.
  intros (Hres & Hcs) Hstep. split.
  - intros k.
    destruct (step_callers _ _ _ Hstep) as (th & _ & Hth & _ & _).
    destruct (step_resources _ _ _ _ Hstep Hth) as [->|(c & x & Hpc & ->)]; [done|].
    destruct (Hcs _ _ Hth) as (_ & Hx). rewrite Hpc in Hx.
    destruct (decide (key_of (op th) = k)) as [<-|Hne].
    + rewrite lookup_insert_eq. congruence.
    + by rewrite lookup_insert_ne.
  - step_cases Hstep.
    all: destruct (Hcs _ _ Hth) as (Hnn & Hx); rewrite Hpc in Hx.
    all: simpl; intros t' th'; rewrite (callers_insert _ _ _ _ _ Hth).
    all: case_decide; [intros [= <-]; simpl|by apply Hcs].
    all: try (split; [done|]); try done.
    rewrite Heqo in Hnn. simpl in Hnn. specialize (Hnn (world s)).
    rewrite Heqp in Hnn. simpl in Hnn. intros ->. by apply Hnn.
Qed.

Lemma reachable_NInv (s0 : state) s : NInv s0 → reachable s0 s → NInv s.
Proof. intros H0 Hr. induction Hr; [done|]. by eapply step_NInv. Qed.

(** C10 (amended): in [GetResource], whenever the deduplicated work
    function has returned a nil error, the value it returned is the
    conversion to [any] of the [io.Closer] that the table holds for the key,
    found there or just created and stored.  The type assertion of line 226
    succeeds when that [io.Closer] is not nil, which is always so when the
    table was given no nil entry and no create function returns a nil
    resource with a nil error; it panics when that [io.Closer] is nil. *)
Theorem assertion_on_stored_closer (w : W) (tbl : gmap string io_Closer)
    (ops : list Op) (s : state) :
  Forall is_get ops → reachable (init w tbl ops) s →
  ∀ t th v, callers s !! t = Some th → pc th = Get_Check v None →
    ∃ ro, v = to_any ro ∧ resources s !! key_of (op th) = Some ro ∧
          check v None =
            match ro with
            | Some r => Finished (RGetResource (Some r) None)
            | None => Panicked
            end ∧
          ((∀ k, tbl !! k ≠ Some None) → Forall never_nil ops →
           ∃ r, ro = Some r ∧ assert_Closer v = Some (Some r)).
Proof.
  intros Hget Hreach t th v Hth Hpc.
  pose proof (get_reachable_CInv _ _ _ _ Hget Hreach) as HC.
  pose proof (cinv_minv _ HC) as HM.
  destruct (get_result _ _ _ HM Hth) as (c & r & tho & _ & _ & _ & _ & Hk & Hfin & Hpc').
  { right. eauto. }
  assert (v = val r ∧ err r = None) as (-> & He).
  { destruct Hpc' as [Hpc'|Hpc']; [split; congruence|].
    rewrite Hpc in Hpc'. unfold check in Hpc'.
    destruct (err r); [done|]. by destruct (assert_Closer (val r)). }
  unfold get_final in Hfin. rewrite He in Hfin.
  destruct Hfin as (ro & Hv & Hro & _). rewrite Hk in Hro.
  exists ro. split; [done|]. split; [done|]. rewrite Hv. split.
  - by destruct ro.
  - intros Htbl Hnn.
    destruct (reachable_NInv _ _ (init_NInv w tbl ops Htbl Hnn) Hreach) as (Hres & _).
    destruct ro as [x|]; [by eauto|]. by destruct (Hres (key_of (op th))).
Qed.
(** ** Further properties of the flight group *)

(** X5: The registry changes only in a statement of the caller that holds
    [g.lock], and no other caller is inside a section guarded by it. *)
Theorem registry_changes_under_lock (w : W) (tbl : gmap string io_Closer)
    (ops : list Op) (s s' : state) (t : tid) :
  reachable (init w tbl ops) s → step t s = Some s' →
  g_calls s' ≠ g_calls s →
  g_lock s = Some t ∧
  ∀ t' th', callers s !! t' = Some th' → holds_g (pc th') → t' = t.
Proof.
  intros Hreach Hstep Hne. pose proof (init_reachable_Inv _ _ _ _ Hreach) as HI.
  destruct (step_callers _ _ _ Hstep) as (th & _ & Hth & _ & _).
  assert (g_lock s = Some t) as Hg.
  { apply (inv_lock_g _ HI _ _ Hth).
    destruct (step_calls _ _ _ _ Hstep Hth) as [?|Hpc _|c Hpc _];
      [done|by rewrite Hpc..]. }
  split; [done|]. intros t' th' Hth' Hh.
  apply (inv_lock_g _ HI _ _ Hth') in Hh. congruence.
Qed.

(** X6: The table changes only in a statement of the caller that holds
    [manager.lock] for writing, while no caller holds it for reading and no
    other caller is inside a section guarded by it. *)
Theorem table_changes_under_write_lock (w : W) (tbl : gmap string io_Closer)
    (ops : list Op) (s s' : state) (t : tid) :
  reachable (init w tbl ops) s → step t s = Some s' →
  resources s' ≠ resources s →
  m_writer s = Some t ∧ m_readers s = ∅ ∧
  ∀ t' th', callers s !! t' = Some th' →
    holds_w (pc th') ∨ holds_r (pc th') → t' = t.
Proof.
  intros Hreach Hstep Hne. pose proof (init_reachable_Inv _ _ _ _ Hreach) as HI.
  destruct (step_callers _ _ _ Hstep) as (th & _ & Hth & _ & _).
  assert (m_writer s = Some t) as Hw.
  { apply (inv_lock_w _ HI _ _ Hth).
    destruct (step_resources _ _ _ _ Hstep Hth) as [?|(c & r & Hpc & _)];
      [done|by rewrite Hpc]. }
  destruct (inv_lock_live _ HI) as (_ & Hlw & _).
  destruct (Hlw _ Hw) as (_ & Hr).
  split; [done|]. split; [done|]. intros t' th' Hth' [Hh|Hh].
  - apply (inv_lock_w _ HI _ _ Hth') in Hh. congruence.
  - apply (inv_lock_r _ HI _ _ Hth') in Hh. rewrite Hr in Hh. set_solver.
Qed.

(** X7: No deadlock: as long as one caller has not returned, some caller can
    execute its next statement. *)
Theorem some_caller_can_run (w : W) (tbl : gmap string io_Closer)
    (ops : list Op) (s : state) (t : tid) (th : caller) :
  reachable (init w tbl ops) s →
  callers s !! t = Some th → ¬ terminal (pc th) →
  ∃ t' s', step t' s = Some s'.
Proof.
  intros Hreach Hth Hnt. pose proof (init_reachable_Inv _ _ _ _ Hreach) as HI.
  destruct (no_deadlock _ _ _ HI Hth Hnt) as (t' & s' & Hs'). eauto.
Qed.

(** X8: When every caller has returned, nothing is left behind: the registry
    is empty, the locks are free, every WaitGroup has fired, and no
    statement remains to run. *)
Theorem quiescent_when_all_returned (w : W) (tbl : gmap string io_Closer)
    (ops : list Op) (s : state) :
  reachable (init w tbl ops) s → all_returned s →
  g_calls s = ∅ ∧ g_lock s = None ∧ m_writer s = None ∧ m_readers s = ∅ ∧
  (∀ c r, heap s !! c = Some r → wg r = 0) ∧
  ∀ t, step t s = None.
Proof.
  intros Hreach Hall. pose proof (init_reachable_Inv _ _ _ _ Hreach) as HI.
  destruct (inv_lock_live _ HI) as (Hlg & Hlw & Hlr).
  assert (∀ t th, callers s !! t = Some th → phase_of (pc th) = Some Signalled)
    as Hsig.
  { intros t th Hth. specialize (Hall _ _ Hth). by destruct (pc th). }
  repeat split.
  - apply map_empty. intros k. destruct (g_calls s !! k) as [c|] eqn:Hk; [|done].
    destruct (inv_reg _ HI _ _ Hk) as (r & th & ph & _ & Hth & _ & Hph & Hrg).
    rewrite (Hsig _ _ Hth) in Hph. injection Hph as <-. done.
  - destruct (g_lock s) as [t|] eqn:Hg; [|done].
    destruct (Hlg _ eq_refl) as (th & Hth).
    apply (inv_lock_g _ HI _ _ Hth) in Hg. specialize (Hall _ _ Hth).
    by destruct (pc th).
  - destruct (m_writer s) as [t|] eqn:Hw; [|done].
    destruct (Hlw _ eq_refl) as ((th & Hth) & _).
    apply (inv_lock_w _ HI _ _ Hth) in Hw. specialize (Hall _ _ Hth).
    by destruct (pc th).
  - apply leibniz_equiv, elem_of_equiv_empty. intros t Ht.
    destruct (Hlr _ Ht) as (th & Hth).
    apply (inv_lock_r _ HI _ _ Hth) in Ht. specialize (Hall _ _ Hth).
    by destruct (pc th).
  - intros c r Hr.
    destruct (inv_own _ HI _ _ Hr) as (th & ph & Hth & _ & Hph & Hwg & _).
    rewrite (Hsig _ _ Hth) in Hph. injection Hph as <-. done.
  - intros t. unfold step. destruct (callers s !! t) as [th|] eqn:Hth; [|done].
    specialize (Hall _ _ Hth). simpl. by destruct (pc th).
Qed.

(** X9: Once the WaitGroup of a record has fired the record never changes:
    every caller that joined reads the same result and error, whenever it
    wakes up. *)
Theorem signalled_record_is_final (w : W) (tbl : gmap string io_Closer)
    (ops : list Op) (s s' : state) (c : ptr) (r : call) :
  reachable (init w tbl ops) s → reachable s s' →
  heap s !! c = Some r → wg r = 0 → heap s' !! c = Some r.
Proof.
  intros Hreach Hreach' Hr Hwg.
  pose proof (init_reachable_Inv _ _ _ _ Hreach) as HI.
  induction Hreach' as [|s1 t s2 Hr1 IH Hstep]; [done|].
  destruct (step_heap_fwd _ _ _ _ _ (reachable_Inv _ _ HI Hr1) Hstep IH)
    as (r' & Hr' & _ & _ & Hsame).
  by rewrite Hr', (Hsame Hwg).
Qed.

(** X10: Callers that share a record called with the same key. *)
Theorem shared_record_same_key (w : W) (tbl : gmap string io_Closer)
    (ops : list Op) (s : state) (t1 t2 : tid) (th1 th2 : caller) (c : ptr) :
  reachable (init w tbl ops) s →
  callers s !! t1 = Some th1 → callers s !! t2 = Some th2 →
  used th1 = Some c → used th2 = Some c →
  key_of (op th1) = key_of (op th2).
Proof.
  intros Hreach Hth1 Hth2 Hu1 Hu2.
  pose proof (init_reachable_Inv _ _ _ _ Hreach) as HI.
  destruct (inv_rec _ HI _ _ _ Hth1 Hu1) as (r1 & tho1 & Hr1 & Ho1 & Hk1).
  destruct (inv_rec _ HI _ _ _ Hth2 Hu2) as (r2 & tho2 & Hr2 & Ho2 & Hk2).
  assert (r2 = r1) as -> by congruence.
  assert (tho2 = tho1) as -> by congruence. congruence.
Qed.

(** X11: A caller runs its work function at most once, and not at all before
    it has a record or when it joined the record of another caller. *)
Theorem work_function_runs_at_most_once (w : W) (tbl : gmap string io_Closer)
    (ops : list Op) (s : state) (t : tid) (th : caller) :
  reachable (init w tbl ops) s → callers s !! t = Some th →
  length (invoked th) ≤ 1 ∧
  (used th = None → invoked th = [] ∧ created th = []) ∧
  (∀ c r, used th = Some c → heap s !! c = Some r → owner r ≠ t →
          invoked th = [] ∧ created th = []).
Proof.
  intros Hreach Hth. pose proof (init_reachable_Inv _ _ _ _ Hreach) as HI.
  destruct (inv_pre _ HI _ _ Hth) as (Hpre & Hlogs).
  assert (∀ c r, used th = Some c → heap s !! c = Some r → owner r ≠ t →
            invoked th = [] ∧ created th = []) as Hjoin.
  { intros c r Hu Hr Ho.
    destruct (inv_join _ HI _ _ _ _ Hth Hu Hr Ho) as (? & ? & _). done. }
  split; [|split; [|done]].
  - destruct (used th) as [c|] eqn:Hu.
    + destruct (inv_rec _ HI _ _ _ Hth Hu) as (r & _ & Hr & _).
      destruct (decide (owner r = t)) as [Ho|Ho].
      * destruct (inv_own _ HI _ _ Hr) as (th' & ph & Hth' & _ & _ & _ & _ & _ & Hlog).
        rewrite Ho, Hth in Hth'. injection Hth' as <-.
        pose proof (inv_logs _ HI _ _ Hth) as Hl. unfold own_log in Hlog.
        destruct (op th); [| |rewrite Hl; simpl; lia].
        all: destruct (pc th); try (rewrite Hlog; simpl; lia).
        all: destruct ph; rewrite Hlog; simpl; lia.
      * destruct (Hjoin _ _ eq_refl Hr Ho) as (-> & _). simpl. lia.
    + destruct (Hlogs (proj2 Hpre eq_refl)) as (-> & _). simpl. lia.
  - intros Hu. by apply Hlogs, Hpre.
Qed.

(** X12: A caller that has returned from [Do] returns the result and the error
    held by the record it used, whose WaitGroup has fired; they are the
    results of the one run of the work function of the caller that created
    the record, which called with the same key; a caller that joined has
    run nothing. *)
Theorem Do_returns_shared_result (w : W) (tbl : gmap string io_Closer)
    (ops : list Op) (s : state) (t : tid) (th : caller) k fn v e :
  reachable (init w tbl ops) s →
  callers s !! t = Some th → op th = OpDo k fn → pc th = Finished (RDo v e) →
  ∃ c r tho,
    used th = Some c ∧ heap s !! c = Some r ∧ wg r = 0 ∧
    v = val r ∧ e = err r ∧
    callers s !! owner r = Some tho ∧ key_of (op tho) = k ∧
    (¬ is_get (op tho) → invoked tho = [(v, e)]) ∧
    (owner r ≠ t → invoked th = []).
Proof.
  intros Hreach Hth Hop Hpc. pose proof (init_reachable_Inv _ _ _ _ Hreach) as HI.
  destruct (returned_record _ _ _ HI Hth)
    as (c & r & tho & Hu & Hr & Hwg & Htho & Hk & Hlog & Hcase).
  { left. by rewrite Hpc. }
  assert (¬ is_get (op tho) → invoked tho = [(val r, err r)]) as Hinv.
  { intros Hng. unfold own_log in Hlog.
    destruct (inv_own _ HI _ _ Hr) as (tho' & ph & Htho' & _ & Hph & Hwg' & _).
    assert (tho' = tho) as -> by congruence.
    destruct (op tho); try done; destruct (pc tho); simpl in *; try done;
      destruct ph; simpl in *; congruence. }
  rewrite Hop in Hk. change (key_of (OpDo k fn)) with k in Hk.
  exists c, r, tho.
  destruct Hcase as [(Ho & Hrf)|(Ho & Hrf & Hi & _)];
    destruct (returned_from_Do _ _ _ _ _ _ _ Hop Hpc Hrf) as (-> & ->).
  - repeat (split; [done|]). done.
  - repeat (split; [done|]). done.
Qed.

(** *** Calls one after the other *)

(** The statements of a call of [DoEx] that runs on its own from a state
    where [g.lock] is free and no call is in flight for its key. *)
Lemma solo_DoEx (s0 : state) (t : tid) k fn w' v e :
  g_lock s0 = None → g_calls s0 !! k = None →
  callers s0 !! t = Some (spawn (OpDoEx k fn)) →
  fn (world s0) = (w', (v, e)) →
  solo t 11 s0 =
  {| world := w'; g_lock := None; g_calls := g_calls s0;
     heap := heap s0 ++ [{| wg := 0; val := v; err := e; owner := t |}];
     m_readers := m_readers s0; m_writer := m_writer s0;
     resources := resources s0;
     callers := <[t := {| op := OpDoEx k fn;
                          pc := Finished (RDoEx v true e);
                          invoked := [(v, e)]; created := [];
                          used := Some (length (heap s0)) |}]> (callers s0) |}.
Proof.
  destruct s0 as [w gl gc h mr mw res cs]. simpl.
  intros -> Hk Hth Hfn.
  assert (t < length cs) as Hlt by (by eapply lookup_lt_Some).
  solo_step Hlt ltac:(rewrite Hth).
  solo_step Hlt ltac:(rewrite Hk).
  solo_step Hlt idtac.
  solo_step Hlt idtac.
  solo_step Hlt ltac:(rewrite Hfn).
  solo_step Hlt idtac.
  solo_step Hlt idtac.
  solo_step Hlt idtac.
  solo_step Hlt idtac.
  solo_step Hlt idtac.
  solo_step Hlt idtac.
  rewrite solo_zero. rewrite delete_insert_id by done. reflexivity.
Qed.

(** X13: Results are not kept: a call of [DoEx] that runs on its own while no
    call is in flight for its key runs its work function on the current
    world and returns its results with the fresh flag true, and leaves
    the registry and the lock as they were; a second call for the same
    key that runs after it runs its own work function, on the world the
    first left. *)
Theorem calls_in_sequence_both_run (s0 : state) (t1 t2 : tid) k fn1 fn2
    w1 v1 e1 w2 v2 e2 :
  g_lock s0 = None → g_calls s0 !! k = None → t1 ≠ t2 →
  callers s0 !! t1 = Some (spawn (OpDoEx k fn1)) →
  callers s0 !! t2 = Some (spawn (OpDoEx k fn2)) →
  fn1 (world s0) = (w1, (v1, e1)) → fn2 w1 = (w2, (v2, e2)) →
  let s1 := solo t1 11 s0 in
  let s2 := solo t2 11 s1 in
  (∃ th1, callers s1 !! t1 = Some th1 ∧ pc th1 = Finished (RDoEx v1 true e1) ∧
          invoked th1 = [(v1, e1)]) ∧
  world s1 = w1 ∧ g_calls s1 = g_calls s0 ∧ g_lock s1 = None ∧
  (∃ th2, callers s2 !! t2 = Some th2 ∧ pc th2 = Finished (RDoEx v2 true e2) ∧
          invoked th2 = [(v2, e2)]) ∧
  world s2 = w2 ∧ g_calls s2 = g_calls s0 ∧ g_lock s2 = None ∧
  heap s2 = heap s0 ++ [{| wg := 0; val := v1; err := e1; owner := t1 |};
                        {| wg := 0; val := v2; err := e2; owner := t2 |}].
Proof.
  intros Hg Hk Hne Hth1 Hth2 Hfn1 Hfn2 s1 s2.
  assert (t1 < length (callers s0)) as Hlt1 by (by eapply lookup_lt_Some).
  assert (t2 < length (callers s0)) as Hlt2 by (by eapply lookup_lt_Some).
  pose proof (solo_DoEx s0 t1 k fn1 w1 v1 e1 Hg Hk Hth1 Hfn1) as H1.
  fold s1 in H1.
  assert (callers s1 !! t2 = Some (spawn (OpDoEx k fn2))) as Hth2'.
  { rewrite H1. cbn [callers]. by rewrite list_lookup_insert_ne. }
  assert (g_lock s1 = None) as Hg1 by (by rewrite H1).
  assert (g_calls s1 = g_calls s0) as Hc1 by (by rewrite H1).
  assert (world s1 = w1) as Hw1 by (by rewrite H1).
  assert (heap s1 = heap s0 ++ [{| wg := 0; val := v1; err := e1; owner := t1 |}])
    as Hh1 by (by rewrite H1).
  pose proof (solo_DoEx s1 t2 k fn2 w2 v2 e2 Hg1) as H2.
  rewrite Hc1, Hw1 in H2. specialize (H2 Hk Hth2' Hfn2). fold s2 in H2.
  split.
  { rewrite H1. cbn [callers]. rewrite list_lookup_insert_eq by done.
    eexists. split; [done|]. done. }
  repeat (split; [done|]).
  split.
  { rewrite H2. cbn [callers].
    assert (t2 < length (callers s1)) as Hlt2' by (by eapply lookup_lt_Some).
    rewrite list_lookup_insert_eq by done. eexists. split; [done|]. done. }
  rewrite H2. cbn [world g_calls g_lock heap]. rewrite Hh1.
  repeat (split; [done|]). by rewrite <-(assoc_L (++)).
Qed.

(** ** Further properties of GetResource *)

(** X14: As long as the manager is used through [GetResource] alone (no
    [Inject], no [Close]), every call of [GetResource] that returns a
    resource for a key returns the same one, the one the table holds for
    the key. *)
Theorem GetResource_same_instance (w : W) (tbl : gmap string io_Closer)
    (ops : list Op) (s : state) (t1 t2 : tid) (th1 th2 : caller)
    (x1 x2 : io_Closer) :
  Forall is_get ops → reachable (init w tbl ops) s →
  callers s !! t1 = Some th1 → callers s !! t2 = Some th2 →
  key_of (op th1) = key_of (op th2) →
  pc th1 = Finished (RGetResource x1 None) →
  pc th2 = Finished (RGetResource x2 None) →
  x1 = x2 ∧ resources s !! key_of (op th1) = Some x1 ∧ x1 ≠ None.
Proof.
  intros Hget Hreach Hth1 Hth2 Hk Hpc1 Hpc2.
  pose proof (get_reachable_CInv _ _ _ _ Hget Hreach) as HC.
  pose proof (cinv_minv _ HC) as HM.
  assert (∀ t th x, callers s !! t = Some th →
            pc th = Finished (RGetResource x None) →
            resources s !! key_of (op th) = Some x ∧ x ≠ None) as Hone.
  { intros t th x Hth Hpc.
    destruct (get_result _ _ _ HM Hth) as (c & r & tho & _ & _ & _ & _ & Hko & Hfin & Hpc').
    { left. by rewrite Hpc. }
    destruct Hpc' as [Hpc'|Hpc']; [congruence|].
    rewrite Hpc in Hpc'. unfold check in Hpc'. unfold get_final in Hfin.
    destruct (err r) as [e|]; [done|].
    destruct Hfin as (ro & Hv & Hro & _). rewrite Hv in Hpc'.
    destruct ro as [x'|]; simpl in Hpc'; [|done].
    injection Hpc' as ->. by rewrite <-Hko. }
  destruct (Hone _ _ _ Hth1 Hpc1) as (H1 & Hn1).
  destruct (Hone _ _ _ Hth2 Hpc2) as (H2 & _).
  rewrite <-Hk in H2. split; [congruence|done].
Qed.

(** X15: A call of [GetResource] that returns an error returns no resource, and
    the error is the one returned by the create function of the caller
    whose execution it shares; a caller that joined has not called its own
    create function. *)
Theorem GetResource_error_is_shared (w : W) (tbl : gmap string io_Closer)
    (ops : list Op) (s : state) (t : tid) (th : caller) (x : io_Closer)
    (e : string) :
  Forall is_get ops → reachable (init w tbl ops) s →
  callers s !! t = Some th → pc th = Finished (RGetResource x (Some e)) →
  x = None ∧
  ∃ c r tho x',
    used th = Some c ∧ heap s !! c = Some r ∧ err r = Some e ∧ wg r = 0 ∧
    callers s !! owner r = Some tho ∧ key_of (op tho) = key_of (op th) ∧
    created tho = [(x', Some e)] ∧
    (owner r ≠ t → created th = []).
Proof.
  intros Hget Hreach Hth Hpc.
  pose proof (get_reachable_CInv _ _ _ _ Hget Hreach) as HC.
  pose proof (cinv_minv _ HC) as HM. pose proof (minv_inv _ HM) as HI.
  destruct (get_result _ _ _ HM Hth) as (c & r & tho & Hu & Hr & Hwg & Htho & Hko & Hfin & Hpc').
  { left. by rewrite Hpc. }
  destruct Hpc' as [Hpc'|Hpc']; [congruence|].
  rewrite Hpc in Hpc'. unfold check in Hpc'. unfold get_final in Hfin.
  destruct (err r) as [e'|] eqn:He; [|by destruct (assert_Closer (val r))].
  injection Hpc' as -> ->. split; [done|].
  destruct Hfin as (_ & (x' & Hx') & _).
  exists c, r, tho, x'. repeat (split; [done|]).
  intros Ho. by destruct (inv_join _ HI _ _ _ _ Hth Hu Hr Ho) as (_ & ? & _).
Qed.

(** X16: The table only grows, and by results of create functions: the entries
    given at the start stay as they are, and every other entry is the
    resource that the create function of a caller for that key returned
    with a nil error. *)
Theorem table_entries_come_from_create (w : W) (tbl : gmap string io_Closer)
    (ops : list Op) (s : state) :
  Forall is_get ops → reachable (init w tbl ops) s →
  (∀ k ro, tbl !! k = Some ro → resources s !! k = Some ro) ∧
  (∀ k ro, resources s !! k = Some ro →
     tbl !! k = Some ro ∨
     (tbl !! k = None ∧
      ∃ t th, callers s !! t = Some th ∧ key_of (op th) = k ∧
              created th = [(ro, None)])).
Proof.
  intros Hget Hreach. pose proof (init_MInv w tbl ops Hget) as HM0.
  split.
  { intros k ro Hk. by apply (resources_stable_reachable _ _ _ _ HM0 Hreach). }
  induction Hreach as [|s1 t s2 Hr1 IH Hstep]; [by left|].
  pose proof (reachable_MInv _ _ HM0 Hr1) as HM.
  pose proof (minv_inv _ HM) as HI.
  destruct (step_callers _ _ _ Hstep) as (th & th1 & Hth & Hcs & Hop).
  assert (callers s2 !! t = Some th1) as Hth1.
  { rewrite Hcs. apply list_lookup_insert_eq. by eapply lookup_lt_Some. }
  assert (∀ t' th' ro, callers s1 !! t' = Some th' → created th' = [(ro, None)] →
            ∃ th'', callers s2 !! t' = Some th'' ∧ op th'' = op th' ∧
                    created th'' = [(ro, None)]) as Hkeep.
  { intros t' th' ro Hth' Hcr.
    destruct (decide (t' = t)) as [->|Hne].
    - assert (th' = th) as -> by congruence. exists th1.
      split; [done|]. split; [done|].
      destruct (step_created _ _ _ _ _ _ Hstep Hth Hth1) as [->|(_ & c & x & Hpc & _)];
        [done|].
      destruct (at_create _ _ _ _ HM Hth Hpc) as (Hnil & _). congruence.
    - exists th'. rewrite (step_callers_other _ _ _ _ Hstep) by done. done. }
  intros k ro Hk.
  destruct (step_resources _ _ _ _ Hstep Hth) as [Hsame|(c & x & Hpc & Hres)].
  - rewrite Hsame in Hk. destruct (IH k ro Hk) as [?|(Hn & t' & th' & Hth' & Hk' & Hcr)];
      [by left|right]. split; [done|].
    destruct (Hkeep _ _ _ Hth' Hcr) as (th'' & ? & Hop'' & ?).
    exists t', th''. by rewrite Hop''.
  - rewrite Hres in Hk.
    destruct (decide (key_of (op th) = k)) as [Heq|Hne].
    + subst k. rewrite lookup_insert_eq in Hk. injection Hk as <-.
      destruct (creator_record _ _ _ _ HI Hth ltac:(by rewrite Hpc)) as (r & Hu & Hr & Ho).
      pose proof (minv_ginv _ HM _ _ _ _ Hth (minv_get _ HM _ _ Hth) Hu Hr Ho) as Hat.
      unfold get_at in Hat. rewrite Hpc in Hat. destruct Hat as (Hcr & Hnone).
      right. split.
      * destruct (tbl !! key_of (op th)) as [ro|] eqn:Ht; [|done].
        pose proof (resources_stable_reachable _ _ _ _ HM0 Hr1 Ht). congruence.
      * destruct (Hkeep _ _ _ Hth Hcr) as (th'' & ? & Hop'' & ?).
        exists t, th''. by rewrite Hop''.
    + rewrite lookup_insert_ne in Hk by done.
      destruct (IH k ro Hk) as [?|(Hn & t' & th' & Hth' & Hk' & Hcr)]; [by left|right].
      split; [done|].
      destruct (Hkeep _ _ _ Hth' Hcr) as (th'' & ? & Hop'' & ?).
      exists t', th''. by rewrite Hop''.
Qed.
End machine.

Arguments Op : clear implicits.
Arguments caller : clear implicits.
Arguments state : clear implicits.

(** ** Runs on concrete calls

    The world is a counter that every work function increments; a work
    function returns the value of the counter it saw. *)

Definition fnA : nat → nat * (any * error) :=
  λ w, (S w, (any_other (Z.of_nat w), None)).

Definition create_fails : nat → nat * (io_Closer * error) :=
  λ w, (S w, (None, Some "boom"%string)).

Definition create_ok : nat → nat * (io_Closer * error) :=
  λ w, (S w, (Some w, None)).

Definition create_nil : nat → nat * (io_Closer * error) :=
  λ w, (S w, (None, None)).

(** Three concurrent calls of [DoEx] with one key. *)
Definition three_DoEx : state nat :=
  init 10 ∅ [OpDoEx "k"%string fnA; OpDoEx "k"%string fnA; OpDoEx "k"%string fnA].

(** Caller 0 creates the call and callers 1 and 2 join it; caller 0 then
    runs the work function, stores the result and removes the key. *)
Definition sched_removed : list tid :=
  [0; 0; 0; 0; 1; 1; 1; 1; 2; 2; 2; 0; 0; 0; 0; 0].

(** Then caller 0 fires the signal and all return. *)
Definition sched_returned : list tid :=
  sched_removed ++ [0; 0; 1; 1; 2; 2].

(** Three calls of [GetResource] with one key: the create function of the
    first fails. *)
Definition three_Get : state nat :=
  init 10 ∅ [OpGetResource "k"%string create_fails;
             OpGetResource "k"%string create_ok;
             OpGetResource "k"%string create_ok].

Lemma solo_reachable {W} t n (s : state W) : reachable s (solo t n s).
Proof. apply exec_reachable. Qed.

Lemma three_Get_is_get :
  Forall is_get [OpGetResource "k"%string create_fails;
                 OpGetResource "k"%string create_ok;
                 OpGetResource "k"%string create_ok].
Proof. repeat constructor. Defined.

Lemma DoEx_shares_one_execution_witness :
  let s := exec sched_returned three_DoEx in
  reachable three_DoEx s ∧
  ∃ th, callers s !! 1 = Some th ∧
        pc th = Finished (RDoEx (any_other 10) false None) ∧
    ∃ c r tho,
      used th = Some c ∧ heap s !! c = Some r ∧ wg r = 0 ∧
      any_other 10 = val r ∧ None = err r ∧
      false = bool_decide (owner r = 1) ∧
      callers s !! owner r = Some tho ∧ key_of (op tho) = "k"%string ∧
      (¬ is_get (op tho) → invoked tho = [(any_other 10, None)]) ∧
      (false = true → invoked th = [(any_other 10, None)]) ∧
      (false = false → invoked th = []).
Proof.
  intros s. split; [apply exec_reachable|].
  eexists. split; [vm_compute; reflexivity|]. split; [reflexivity|].
  apply (proj1 (DoEx_shares_one_execution 10 ∅ _ s (exec_reachable _ _))
           1 _ "k"%string fnA); reflexivity.
Defined.

Lemma Do_agrees_with_DoEx_witness :
  let s1 := init 10 ∅ [OpDo "k"%string fnA; OpDoEx "k"%string fnA] in
  let s2 := init 10 ∅ [OpDoEx "k"%string fnA; OpDoEx "k"%string fnA] in
  let sched := [1; 1; 1; 1; 0; 0; 0; 1; 1; 1; 1; 1; 1; 1; 1; 0; 0] in
  twin 0 s1 s2 ∧
  ∃ th2 fresh, callers (exec sched s2) !! 0 = Some th2 ∧
               pc th2 = Finished (RDoEx (any_other 10) fresh None).
Proof.
  intros s1 s2 sched.
  assert (twin 0 s1 s2) as Htwin.
  { repeat (split; [reflexivity|]). eexists _, _.
    split; [reflexivity|]. split; [reflexivity|].
    exists "k"%string, fnA. repeat (split; [reflexivity|]). reflexivity. }
  split; [exact Htwin|].
  destruct (Do_agrees_with_DoEx 0 s1 s2 sched Htwin) as (_ & _ & _ & _ & _ & Hres).
  apply Hres. eexists. split; vm_compute; reflexivity.
Defined.

(** C2 as stated fails: after caller 0 has removed the key and released the
    lock, and before it fires the signal, the key is absent, the WaitGroup
    of its record still counts one, and the callers that joined are still
    blocked; caller 3, arriving then, registers a second record while the
    first has not fired. *)
Lemma removal_before_signal_counterexample :
  let s0 := init 10 ∅ [OpDoEx "k"%string fnA; OpDoEx "k"%string fnA;
                       OpDoEx "k"%string fnA; OpDoEx "k"%string fnA] in
  let s := exec sched_removed s0 in
  reachable s0 s ∧
  g_calls s !! "k"%string = None ∧ g_lock s = None ∧
  heap s = [{| wg := 1; val := any_other 10; err := None; owner := 0 |}] ∧
  pc <$> callers s =
    [MakeCall_Done 0; CreateCall_Wait 0; CreateCall_Wait 0; CreateCall_Lock] ∧
  step 1 s = None ∧ step 2 s = None ∧
  let s' := solo 3 3 s in
  g_calls s' !! "k"%string = Some 1 ∧
  heap s' = [{| wg := 1; val := any_other 10; err := None; owner := 0 |};
             {| wg := 1; val := any_nil; err := None; owner := 3 |}].
Proof.
  intros s0 s. split; [apply exec_reachable|]. vm_compute. done.
Qed.

Lemma removal_before_signal_witness :
  let s := exec sched_removed three_DoEx in
  reachable three_DoEx s ∧
  ∃ th, callers s !! 0 = Some th ∧ pc th = MakeCall_Done 0 ∧
    ∃ r, heap s !! 0 = Some r ∧ wg r = 1 ∧
         (∀ k, g_calls s !! k ≠ Some 0) ∧
         solo 0 1 s =
           set_caller 0 (goto (Return_ 0 false) th)
             (set_heap (<[0 := wg_done r]> (heap s)) s).
Proof.
  intros s. split; [apply exec_reachable|].
  eexists. split; [vm_compute; reflexivity|]. split; [reflexivity|].
  destruct (removal_before_signal 10 ∅ _ s (exec_reachable _ _))
    as (_ & _ & _ & Hdone & _).
  apply Hdone; reflexivity.
Defined.

(** C3 as stated fails: the create function of the first call fails, and
    the second call, for the same key, invokes its create function too:
    two invocations for one key. *)
Lemma create_succeeds_at_most_once_counterexample :
  let s := solo 1 18 (solo 0 15 three_Get) in
  reachable three_Get s ∧
  count_created any_result "k"%string s = 2 ∧
  created <$> callers s = [[(None, Some "boom"%string)]; [(Some 11, None)]; []] ∧
  pc <$> callers s =
    [Finished (RGetResource None (Some "boom"%string));
     Finished (RGetResource (Some 11) None); CreateCall_Lock].
Proof.
  intros s. split.
  - apply (reachable_trans _ (solo 0 15 three_Get)); apply solo_reachable.
  - vm_compute. done.
Qed.

Lemma create_succeeds_at_most_once_witness :
  let s := solo 1 18 (solo 0 15 three_Get) in
  reachable three_Get s ∧
  (∀ k, count_created succeeded k s ≤ 1) ∧
  ∃ th, callers s !! 2 = Some th ∧ pc th = CreateCall_Lock ∧
    ∀ s' th', reachable s s' → callers s' !! 2 = Some th' →
      resources s' !! "k"%string = Some (Some 11) ∧ created th' = [] ∧
      (terminal (pc th') → pc th' = Finished (RGetResource (Some 11) None)).
Proof.
  intros s.
  assert (reachable three_Get s) as Hreach
    by (apply (reachable_trans _ (solo 0 15 three_Get)); apply solo_reachable).
  split; [exact Hreach|].
  destruct (create_succeeds_at_most_once 10 ∅ _ s three_Get_is_get Hreach)
    as (Hcount & Hlater & _).
  split; [exact Hcount|].
  eexists. split; [vm_compute; reflexivity|]. split; [reflexivity|].
  eapply (Hlater "k"%string 11 2); vm_compute; reflexivity.
Defined.

Lemma create_failure_witness :
  let s1 := solo 0 15 three_Get in
  (∃ th1, callers s1 !! 0 = Some th1 ∧
          pc th1 = Finished (RGetResource None (Some "boom"%string)) ∧
          created th1 = [(None, Some "boom"%string)]) ∧
  g_calls s1 = g_calls three_Get ∧ resources s1 = resources three_Get ∧
  g_lock s1 = g_lock three_Get ∧ m_writer s1 = m_writer three_Get ∧
  m_readers s1 = m_readers three_Get ∧ world s1 = 11 ∧
  (∀ t', t' ≠ 0 → callers s1 !! t' = callers three_Get !! t') ∧
  (∀ t2 create2,
     t2 ≠ 0 →
     callers three_Get !! t2 = Some (spawn (OpGetResource "k"%string create2)) →
     ∃ th2, callers (solo t2 8 s1) !! t2 = Some th2 ∧
            created th2 = [(create2 11).2]).
Proof.
  apply (proj2 (create_failure 10 ∅ _ three_Get three_Get_is_get
                  (reachable_refl _)) 0 "k"%string create_fails None
           "boom"%string 11); reflexivity.
Defined.

(** C10 as stated fails: a create function that returns a nil resource
    with a nil error stores a nil [io.Closer]; the work function returns it
    with a nil error and the type assertion panics. *)
Lemma assertion_on_stored_closer_counterexample :
  let s0 := init 10 ∅ [OpGetResource "k"%string create_nil] in
  reachable s0 (solo 0 17 s0) ∧
  pc <$> callers (solo 0 17 s0) = [Get_Check any_nil None] ∧
  assert_Closer any_nil = None ∧
  resources (solo 0 17 s0) !! "k"%string = Some None ∧
  pc <$> callers (solo 0 18 s0) = [Panicked].
Proof.
  intros s0. split; [apply exec_reachable|]. vm_compute. done.
Qed.

Lemma assertion_on_stored_closer_witness :
  let s := solo 1 17 (solo 0 15 three_Get) in
  reachable three_Get s ∧
  ∃ th, callers s !! 1 = Some th ∧ pc th = Get_Check (any_closer 11) None ∧
    ∃ ro, any_closer 11 = to_any ro ∧
          resources s !! key_of (op th) = Some ro ∧
          check (any_closer 11) None =
            match ro with
            | Some r => Finished (RGetResource (Some r) None)
            | None => Panicked
            end ∧
          ((∀ k, (∅ : gmap string io_Closer) !! k ≠ Some None) →
           Forall never_nil
             [OpGetResource "k"%string create_fails;
              OpGetResource "k"%string create_ok;
              OpGetResource "k"%string create_ok] →
           ∃ r, ro = Some r ∧ assert_Closer (any_closer 11) = Some (Some r)).
Proof.
  intros s.
  assert (reachable three_Get s) as Hreach
    by (apply (reachable_trans _ (solo 0 15 three_Get)); apply solo_reachable).
  split; [exact Hreach|].
  eexists. split; [vm_compute; reflexivity|]. split; [reflexivity|].
  apply (assertion_on_stored_closer 10 ∅ _ s three_Get_is_get Hreach 1);
    reflexivity.
Defined.

(** *** Runs for the further properties *)

(** The second caller joins the call of the first, whose create function
    fails. *)
Definition sched_joined_failure : list tid :=
  [0; 0; 0; 0; 1; 1; 1; 0; 0; 0; 0; 0; 0; 0; 0; 0; 0; 0; 1; 1; 1].

Lemma registry_changes_under_lock_witness :
  let s := solo 0 2 three_DoEx in
  let s' := solo 0 3 three_DoEx in
  reachable three_DoEx s ∧ step 0 s = Some s' ∧ g_calls s' ≠ g_calls s ∧
  g_lock s = Some 0 ∧
  ∀ t' th', callers s !! t' = Some th' → holds_g (pc th') → t' = 0.
Proof.
  intros s s'.
  assert (step 0 s = Some s') as Hstep by (vm_compute; reflexivity).
  assert (g_calls s' ≠ g_calls s) as Hne.
  { intros H. apply (f_equal (λ m, m !! "k"%string)) in H.
    vm_compute in H. discriminate H. }
  split; [apply solo_reachable|]. split; [exact Hstep|]. split; [exact Hne|].
  apply (registry_changes_under_lock 10 ∅ _ s s' 0 (solo_reachable _ _ _) Hstep Hne).
Defined.

Lemma table_changes_under_write_lock_witness :
  let s := solo 1 9 (solo 0 15 three_Get) in
  let s' := solo 1 10 (solo 0 15 three_Get) in
  reachable three_Get s ∧ step 1 s = Some s' ∧ resources s' ≠ resources s ∧
  m_writer s = Some 1 ∧ m_readers s = ∅ ∧
  ∀ t' th', callers s !! t' = Some th' →
    holds_w (pc th') ∨ holds_r (pc th') → t' = 1.
Proof.
  intros s s'.
  assert (reachable three_Get s) as Hreach
    by (apply (reachable_trans _ (solo 0 15 three_Get)); apply solo_reachable).
  assert (step 1 s = Some s') as Hstep by (vm_compute; reflexivity).
  assert (resources s' ≠ resources s) as Hne.
  { intros H. apply (f_equal (λ m, m !! "k"%string)) in H.
    vm_compute in H. discriminate H. }
  split; [exact Hreach|]. split; [exact Hstep|]. split; [exact Hne|].
  apply (table_changes_under_write_lock 10 ∅ _ s s' 1 Hreach Hstep Hne).
Defined.

Lemma some_caller_can_run_witness :
  let s := exec sched_removed three_DoEx in
  reachable three_DoEx s ∧
  ∃ th, callers s !! 1 = Some th ∧ pc th = CreateCall_Wait 0 ∧
        step 1 s = None ∧ ¬ terminal (pc th) ∧
        ∃ t' s', step t' s = Some s'.
Proof.
  intros s. split; [apply exec_reachable|].
  eexists. split; [vm_compute; reflexivity|]. split; [reflexivity|].
  split; [vm_compute; reflexivity|].
  assert (¬ terminal (CreateCall_Wait 0)) as Hnt by (simpl; tauto).
  split; [exact Hnt|].
  eapply (some_caller_can_run 10 ∅ _ s 1 _ (exec_reachable _ _));
    [vm_compute; reflexivity|exact Hnt].
Defined.

Lemma three_DoEx_all_returned : all_returned (exec sched_returned three_DoEx).
Proof.
  intros t th. destruct t as [|[|[|t]]]; vm_compute; intros [= <-]; exact I.
Defined.

Lemma quiescent_when_all_returned_witness :
  let s := exec sched_returned three_DoEx in
  reachable three_DoEx s ∧ all_returned s ∧
  g_calls s = ∅ ∧ g_lock s = None ∧ m_writer s = None ∧ m_readers s = ∅ ∧
  (∀ c r, heap s !! c = Some r → wg r = 0) ∧
  ∀ t, step t s = None.
Proof.
  intros s. split; [apply exec_reachable|].
  split; [exact three_DoEx_all_returned|].
  apply (quiescent_when_all_returned 10 ∅ _ s (exec_reachable _ _)
           three_DoEx_all_returned).
Defined.

Lemma signalled_record_is_final_witness :
  let s := exec (sched_removed ++ [0]) three_DoEx in
  let s' := exec [0; 1; 1; 2; 2] s in
  let r := {| wg := 0; val := any_other 10; err := None; owner := 0 |} in
  reachable three_DoEx s ∧ reachable s s' ∧
  heap s !! 0 = Some r ∧ wg r = 0 ∧ heap s' !! 0 = Some r.
Proof.
  intros s s' r.
  assert (heap s !! 0 = Some r) as Hr by (vm_compute; reflexivity).
  split; [apply exec_reachable|]. split; [apply exec_reachable|].
  split; [exact Hr|]. split; [reflexivity|].
  apply (signalled_record_is_final 10 ∅ _ s s' 0 r (exec_reachable _ _)
           (exec_reachable _ _) Hr eq_refl).
Defined.

Lemma shared_record_same_key_witness :
  let s := exec sched_removed three_DoEx in
  reachable three_DoEx s ∧
  ∃ th1 th2, callers s !! 0 = Some th1 ∧ callers s !! 1 = Some th2 ∧
    used th1 = Some 0 ∧ used th2 = Some 0 ∧
    key_of (op th1) = key_of (op th2).
Proof.
  intros s. split; [apply exec_reachable|].
  eexists _, _. split; [vm_compute; reflexivity|].
  split; [vm_compute; reflexivity|]. split; [reflexivity|].
  split; [reflexivity|].
  eapply (shared_record_same_key 10 ∅ _ s 0 1 _ _ 0 (exec_reachable _ _));
    vm_compute; reflexivity.
Defined.

Lemma work_function_runs_at_most_once_witness :
  let s := exec sched_removed three_DoEx in
  reachable three_DoEx s ∧
  ∃ th, callers s !! 1 = Some th ∧
    length (invoked th) ≤ 1 ∧
    (used th = None → invoked th = [] ∧ created th = []) ∧
    (∀ c r, used th = Some c → heap s !! c = Some r → owner r ≠ 1 →
            invoked th = [] ∧ created th = []).
Proof.
  intros s. split; [apply exec_reachable|].
  eexists. split; [vm_compute; reflexivity|].
  eapply (work_function_runs_at_most_once 10 ∅ _ s 1 _ (exec_reachable _ _)).
  vm_compute; reflexivity.
Defined.

Lemma Do_returns_shared_result_witness :
  let s0 := init 10 ∅ [OpDo "k"%string fnA; OpDoEx "k"%string fnA] in
  let s := exec [1; 1; 1; 1; 0; 0; 0; 1; 1; 1; 1; 1; 1; 1; 1; 0; 0] s0 in
  reachable s0 s ∧
  ∃ th, callers s !! 0 = Some th ∧ op th = OpDo "k"%string fnA ∧
        pc th = Finished (RDo (any_other 10) None) ∧
    ∃ c r tho,
      used th = Some c ∧ heap s !! c = Some r ∧ wg r = 0 ∧
      any_other 10 = val r ∧ None = err r ∧
      callers s !! owner r = Some tho ∧ key_of (op tho) = "k"%string ∧
      (¬ is_get (op tho) → invoked tho = [(any_other 10, None)]) ∧
      (owner r ≠ 0 → invoked th = []).
Proof.
  intros s0 s. split; [apply exec_reachable|].
  eexists. split; [vm_compute; reflexivity|]. split; [reflexivity|].
  split; [reflexivity|].
  apply (Do_returns_shared_result 10 ∅ _ s 0 _ "k"%string fnA _ _
           (exec_reachable _ _)); reflexivity.
Defined.

Lemma calls_in_sequence_both_run_witness :
  let s1 := solo 0 11 three_DoEx in
  let s2 := solo 1 11 s1 in
  (∃ th1, callers s1 !! 0 = Some th1 ∧
          pc th1 = Finished (RDoEx (any_other 10) true None) ∧
          invoked th1 = [(any_other 10, None)]) ∧
  world s1 = 11 ∧ g_calls s1 = g_calls three_DoEx ∧ g_lock s1 = None ∧
  (∃ th2, callers s2 !! 1 = Some th2 ∧
          pc th2 = Finished (RDoEx (any_other 11) true None) ∧
          invoked th2 = [(any_other 11, None)]) ∧
  world s2 = 12 ∧ g_calls s2 = g_calls three_DoEx ∧ g_lock s2 = None ∧
  heap s2 = heap three_DoEx ++
            [{| wg := 0; val := any_other 10; err := None; owner := 0 |};
             {| wg := 0; val := any_other 11; err := None; owner := 1 |}].
Proof.
  assert (0 ≠ 1) as Hne by lia.
  apply (calls_in_sequence_both_run three_DoEx 0 1 "k"%string fnA fnA
           11 (any_other 10) None 12 (any_other 11) None);
    [reflexivity|reflexivity|exact Hne|reflexivity..].
Defined.

Lemma GetResource_same_instance_witness :
  let s := solo 2 20 (solo 1 18 (solo 0 15 three_Get)) in
  reachable three_Get s ∧
  ∃ th1 th2, callers s !! 1 = Some th1 ∧ callers s !! 2 = Some th2 ∧
    pc th1 = Finished (RGetResource (Some 11) None) ∧
    pc th2 = Finished (RGetResource (Some 11) None) ∧
    Some 11 = Some 11 ∧ resources s !! key_of (op th1) = Some (Some 11) ∧
    Some 11 ≠ (None : io_Closer).
Proof.
  intros s.
  assert (reachable three_Get s) as Hreach.
  { apply (reachable_trans _ (solo 1 18 (solo 0 15 three_Get)));
      [|apply solo_reachable].
    apply (reachable_trans _ (solo 0 15 three_Get)); apply solo_reachable. }
  split; [exact Hreach|].
  eexists _, _. split; [vm_compute; reflexivity|].
  split; [vm_compute; reflexivity|]. split; [reflexivity|].
  split; [reflexivity|].
  eapply (GetResource_same_instance 10 ∅ _ s 1 2 _ _ (Some 11) (Some 11)
            three_Get_is_get Hreach); vm_compute; reflexivity.
Defined.

Lemma GetResource_error_is_shared_witness :
  let s := exec sched_joined_failure three_Get in
  reachable three_Get s ∧
  ∃ th, callers s !! 1 = Some th ∧
        pc th = Finished (RGetResource None (Some "boom"%string)) ∧
    (None : io_Closer) = None ∧
    ∃ c r tho x',
      used th = Some c ∧ heap s !! c = Some r ∧
      err r = Some "boom"%string ∧ wg r = 0 ∧
      callers s !! owner r = Some tho ∧ key_of (op tho) = key_of (op th) ∧
      created tho = [(x', Some "boom"%string)] ∧
      (owner r ≠ 1 → created th = []).
Proof.
  intros s. split; [apply exec_reachable|].
  eexists. split; [vm_compute; reflexivity|]. split; [reflexivity|].
  eapply (GetResource_error_is_shared 10 ∅ _ s 1 _ None "boom"%string
            three_Get_is_get (exec_reachable _ _)); vm_compute; reflexivity.
Defined.

Lemma table_entries_come_from_create_witness :
  let s := solo 1 18 (solo 0 15 three_Get) in
  reachable three_Get s ∧
  resources s !! "k"%string = Some (Some 11) ∧
  (∀ k ro, (∅ : gmap string io_Closer) !! k = Some ro →
           resources s !! k = Some ro) ∧
  (∀ k ro, resources s !! k = Some ro →
     (∅ : gmap string io_Closer) !! k = Some ro ∨
     ((∅ : gmap string io_Closer) !! k = None ∧
      ∃ t th, callers s !! t = Some th ∧ key_of (op th) = k ∧
              created th = [(ro, None)])).
Proof.
  intros s.
  assert (reachable three_Get s) as Hreach
    by (apply (reachable_trans _ (solo 0 15 three_Get)); apply solo_reachable).
  split; [exact Hreach|]. split; [vm_compute; reflexivity|].
  apply (table_entries_come_from_create 10 ∅ _ s three_Get_is_get Hreach).
Defined.

End Flight.

(** * The resource manager, one call at a time

    [Inject] and [Close] of resourcemanager.go, and the table and the lock
    they share with [GetResource], for calls made one after the other.  A
    call that finds [manager.lock] held never returns ([Blocks]); a panic
    leaves the manager in the state of the panicking statement, after the
    deferred calls have run. *)
Module Manager.

Abbreviation Closer := Flight.Closer.
Abbreviation io_Closer := Flight.io_Closer.

(** Modelled from the spec: [errorx.BatchError], which is not among the
    sources.  It collects the individual failures; [Err] is nil when
    nothing was collected and otherwise one error that combines all of
    them, represented by the list of the errors it combines. *)
Definition BatchError := list string.

Definition Add (be : BatchError) (err : string) : BatchError := be ++ [err].

Definition Err (be : BatchError) : option (list string) :=
  match be with
  | [] => None
  | _ => Some be
  end.

(** [resources] is [None] for the nil map; [locked] tells whether
    [manager.lock] is held for writing. *)
Record ResourceManager := mkManager {
  resources : option (gmap string io_Closer);
  locked : bool
}.

Inductive result (A : Type) :=
  | Returns (a : A)
  | Panics
  | Blocks.
Arguments Returns {A} a.
Arguments Panics {A}.
Arguments Blocks {A}.

Definition NewResourceManager : ResourceManager :=
  {| resources := Some ∅; locked := false |}.

(** The entries of the table; a nil map has none. *)
Definition table (m : ResourceManager) : gmap string io_Closer :=
  default ∅ (resources m).

(** [Inject]: the lock is not released by a deferred call, so the panic of
    a write to the nil map leaves it held. *)
Definition Inject (key : string) (resource : io_Closer) (m : ResourceManager) :
    ResourceManager * result unit :=
  if locked m then (m, Blocks)
  else match resources m with
       | None => ({| resources := None; locked := true |}, Panics)
       | Some tbl =>
           ({| resources := Some (<[key := resource]> tbl); locked := false |},
            Returns tt)
       end.

Section close.
Context {W : Type}.

(** The [Close] method of every resource: its effect on the world and the
    error it returns. *)
Variable close : Closer → W → W * error.

(** The loop of [Close] over the entries in the order [order] in which
    [range] visits them.  The log lists the calls of a [Close] method made,
    with the error each returned; the result is [None] when the loop
    panics, on the method call on a nil [io.Closer]. *)
Fixpoint range_resources (order : list (string * io_Closer)) (w : W)
    (be : BatchError) (log : list (Closer * error)) :
    W * list (Closer * error) * option BatchError :=
  match order with
  | [] => (w, log, Some be)
  | (_, None) :: _ => (w, log, None)
  | (_, Some resource) :: rest =>
      let '(w', err) := close resource w in
      range_resources rest w'
        (match err with Some e => Add be e | None => be end)
        (log ++ [(resource, err)])
  end.

Definition Close (order : list (string * io_Closer)) (m : ResourceManager)
    (w : W) :
    ResourceManager * W * list (Closer * error) * result (option (list string)) :=
  if locked m then (m, w, [], Blocks)
  else match range_resources order w [] [] with
       | (w', log, Some be) =>
           ({| resources := None; locked := false |}, w', log, Returns (Err be))
       | (w', log, None) =>
           ({| resources := resources m; locked := false |}, w', log, Panics)
       end.

(** [range] visits every entry of the map once, in an order of its own. *)
Definition iterates (m : ResourceManager) (order : list (string * io_Closer)) : Prop :=
  order ≡ₚ map_to_list (table m).

(** The calls of the log are what the [Close] methods do, one after the
    other, from the world [w]; the result is the world they leave. *)
Fixpoint replay (log : list (Closer * error)) (w : W) : option W :=
  match log with
  | [] => Some w
  | (r, err) :: rest =>
      let '(w', err') := close r w in
      if decide (err' = err) then replay rest w' else None
  end.

(** The errors of the failed calls of a log. *)
Definition failures (log : list (Closer * error)) : list string :=
  omap snd log.

Lemma replay_snoc log w w1 r :
  replay log w = Some w1 →
  replay (log ++ [(r, (close r w1).2)]) w = Some (close r w1).1.
Proof.
  revert w. induction log as [|[r0 e0] log IH]; intros w; simpl.
  - intros [= ->]. destruct (close r w1) as [w' e']. simpl.
    by rewrite decide_True.
  - destruct (close r0 w) as [w' e']. case_decide; [|done]. apply IH.
Qed.

Lemma failures_snoc log r err :
  failures (log ++ [(r, err)]) =
  match err with Some e => Add (failures log) e | None => failures log end.
Proof.
  unfold failures, Add. rewrite omap_app. simpl.
  destruct err; simpl; [done|by rewrite app_nil_r].
Qed.

Lemma range_resources_complete order : ∀ w w0 log,
  Forall (λ kr, kr.2 ≠ None) order → replay log w0 = Some w →
  ∃ w' log',
    range_resources order w (failures log) log =
      (w', log ++ log', Some (failures (log ++ log'))) ∧
    log'.*1 = omap snd order ∧ replay (log ++ log') w0 = Some w'.
Proof.
  induction order as [|[k [r|]] order IH]; intros w w0 log Hnn Hlog;
    cbn [range_resources].
  - exists w, []. by rewrite app_nil_r.
  - apply Forall_cons in Hnn as [_ Hnn].
    pose proof (replay_snoc _ _ _ r Hlog) as Hlog'.
    destruct (close r w) as [w1 e1] eqn:Hc. cbn [fst snd] in Hlog'.
    destruct (IH w1 w0 (log ++ [(r, e1)]) Hnn Hlog') as (w' & log' & Hrun & Hrs & Hre).
    match goal with
    | |- context [range_resources _ _ ?be _] =>
        replace be with (failures (log ++ [(r, e1)])) by apply failures_snoc
    end.
    exists w', ((r, e1) :: log'). rewrite Hrun.
    rewrite <-!(assoc_L (++)) in *. simpl in *.
    split; [done|]. split; [by f_equal|done].
  - apply Forall_cons in Hnn as [Hk _]. by destruct Hk.
Qed.

Lemma held_resources (order : list (string * io_Closer)) :
  Forall (λ kr, kr.2 ≠ None) order → Some <$> omap snd order = order.*2.
Proof.
  induction 1 as [|[k [r|]] order Hk _ IH]; simpl in *; [done| |done].
  by f_equal.
Qed.

Lemma Err_None (be : BatchError) : Err be = None ↔ be = [].
Proof. by destruct be. Qed.

Lemma failures_nil log : failures log = [] ↔ ∀ r err, (r, err) ∈ log → err = None.
Proof.
  unfold failures. induction log as [|[r e] log IH]; simpl.
  - split; [|done]. intros _ r err Hin. by apply elem_of_nil in Hin.
  - destruct e as [e|]; simpl.
    + split; [done|]. intros H. specialize (H r (Some e)).
      discriminate H. by left.
    + rewrite IH. split.
      * intros H r' err [[= -> ->]|Hin]%elem_of_cons; [done|by eapply H].
      * intros H r' err Hin. eapply H. by right.
Qed.

Lemma elem_of_failures log e : e ∈ failures log ↔ ∃ r, (r, Some e) ∈ log.
Proof.
  unfold failures. rewrite list_elem_of_omap. split.
  - intros ([r err] & Hin & Herr). simpl in Herr. subst. by exists r.
  - intros (r & Hin). by exists (r, Some e).
Qed.

(** C5 (amended): [Close], called on a manager whose lock is free and whose
    table holds no nil entry, calls the [Close] method of every resource of the
    table, once for each entry, whatever the calls before returned; it
    returns nil when no call failed and otherwise one error that combines
    the errors of all the failed calls, and it leaves the manager with the
    nil table and the lock free. *)
Theorem Close_closes_every_resource (m : ResourceManager)
    (order : list (string * io_Closer)) (w : W) :
  locked m = false → iterates m order → Forall (λ kr, kr.2 ≠ None) order →
  ∃ w' log,
    Close order m w =
      ({| resources := None; locked := false |}, w', log,
       Returns (Err (failures log))) ∧
    Some <$> log.*1 ≡ₚ (map_to_list (table m)).*2 ∧
    replay log w = Some w' ∧
    (Err (failures log) = None ↔ ∀ r err, (r, err) ∈ log → err = None) ∧
    (∀ errs, Err (failures log) = Some errs →
       ∀ e, e ∈ errs ↔ ∃ r, (r, Some e) ∈ log).
Proof.
  intros Hl Hit Hnn. unfold Close. rewrite Hl.
  destruct (range_resources_complete order w w [] Hnn eq_refl)
    as (w' & log & Hrun & Hrs & Hre).
  change (range_resources order w [] [] = (w', log, Some (failures log))) in Hrun.
  change (replay log w = Some w') in Hre. rewrite Hrun.
  exists w', log. split; [done|]. split; [|split; [done|split]].
  - rewrite Hrs, (held_resources _ Hnn). unfold iterates in Hit. by rewrite Hit.
  - by rewrite Err_None, failures_nil.
  - intros errs Herr e. rewrite <-elem_of_failures.
    destruct (failures log); simpl in Herr; [done|]. by injection Herr as <-.
Qed.

End close.

(** A world that lists the resources closed so far, and resources whose
    [Close] fails on the odd ones. *)
Definition close_odd_fails : Closer → list Closer → list Closer * error :=
  λ r w, (w ++ [r], if Nat.even r then None else Some "odd"%string).

Definition two_resources : ResourceManager :=
  {| resources := Some {[ "r1"%string := Some 2; "r2"%string := Some 1 ]};
     locked := false |}.

Lemma Close_closes_every_resource_witness :
  let order := map_to_list (table two_resources) in
  locked two_resources = false ∧ iterates two_resources order ∧
  Forall (λ kr, kr.2 ≠ None) order ∧
  ∃ w' log,
    Close close_odd_fails order two_resources [] =
      ({| resources := None; locked := false |}, w', log,
       Returns (Err (failures log))) ∧
    Some <$> log.*1 ≡ₚ (map_to_list (table two_resources)).*2 ∧
    replay close_odd_fails log [] = Some w' ∧
    (Err (failures log) = None ↔ ∀ r err, (r, err) ∈ log → err = None) ∧
    (∀ errs, Err (failures log) = Some errs →
       ∀ e, e ∈ errs ↔ ∃ r, (r, Some e) ∈ log).
Proof.
  intros order.
  assert (Forall (λ kr : string * io_Closer, kr.2 ≠ None) order) as Hnn.
  { vm_compute. repeat constructor; discriminate. }
  assert (iterates two_resources order) as Hit by (unfold iterates; reflexivity).
  split; [reflexivity|]. split; [exact Hit|]. split; [exact Hnn|].
  apply (Close_closes_every_resource close_odd_fails two_resources order []);
    [reflexivity|exact Hit|exact Hnn].
Defined.

(** C5 as stated fails on a table with a nil entry, which [Inject] with a
    nil resource makes: when [range] visits the nil entry first, the call of
    its [Close] method panics, the resource under the other key is not
    closed, and the table is not set to nil. *)
Lemma Close_closes_every_resource_counterexample :
  let m := (Inject "b"%string None
              (Inject "a"%string (Some 2) NewResourceManager).1).1 in
  let order := [("b"%string, None); ("a"%string, Some 2)] in
  locked m = false ∧ table m !! "a"%string = Some (Some 2) ∧
  iterates m order ∧
  Close close_odd_fails order m [] = (m, [], [], Panics) ∧
  resources m ≠ None.
Proof.
  intros m order. split; [reflexivity|]. split; [vm_compute; reflexivity|].
  split.
  - unfold iterates. etransitivity; [apply perm_swap|].
    vm_compute. reflexivity.
  - split; [vm_compute; reflexivity|]. vm_compute. discriminate.
Qed.

(** ** Further properties of the manager *)

Section close_more.
Context {W : Type}.
Variable close : Closer → W → W * error.

Lemma range_resources_app (before rest : list (string * io_Closer)) : ∀ w w0 log,
  Forall (λ kr, kr.2 ≠ None) before → replay close log w0 = Some w →
  ∃ w' log',
    range_resources close (before ++ rest) w (failures log) log =
      range_resources close rest w' (failures (log ++ log')) (log ++ log') ∧
    log'.*1 = omap snd before ∧ replay close (log ++ log') w0 = Some w'.
Proof.
  induction before as [|[k [r|]] before IH]; intros w w0 log Hnn Hlog;
    cbn [range_resources app].
  - exists w, []. by rewrite app_nil_r.
  - apply Forall_cons in Hnn as [_ Hnn].
    pose proof (replay_snoc close _ _ _ r Hlog) as Hlog'.
    destruct (close r w) as [w1 e1] eqn:Hc. cbn [fst snd] in Hlog'.
    destruct (IH w1 w0 (log ++ [(r, e1)]) Hnn Hlog') as (w' & log' & Hrun & Hrs & Hre).
    match goal with
    | |- context [range_resources _ _ _ ?be _] =>
        replace be with (failures (log ++ [(r, e1)])) by apply failures_snoc
    end.
    exists w', ((r, e1) :: log'). rewrite Hrun.
    rewrite <-!(assoc_L (++)) in *. simpl in *.
    split; [done|]. split; [by f_equal|done].
  - apply Forall_cons in Hnn as [Hk _]. by destruct Hk.
Qed.

Lemma Close_returns (m : ResourceManager) (order : list (string * io_Closer))
    (w : W) :
  locked m = false → Forall (λ kr, kr.2 ≠ None) order →
  ∃ w' log, Close close order m w =
    ({| resources := None; locked := false |}, w', log,
     Returns (Err (failures log))) ∧ log.*1 = omap snd order.
Proof.
  intros Hl Hnn. unfold Close. rewrite Hl.
  destruct (range_resources_app order [] w w [] Hnn eq_refl)
    as (w' & log & Hrun & Hrs & _).
  rewrite app_nil_r in Hrun.
  change (range_resources close order w [] [] =
          (w', log, Some (failures log))) in Hrun.
  rewrite Hrun. eauto.
Qed.

(** X17: A second [Close] does nothing: after [Close] has returned, another
    [Close] calls no [Close] method, leaves the world as it is and returns
    nil. *)
Theorem Close_twice_closes_nothing (m m1 : ResourceManager)
    (order order2 : list (string * io_Closer)) (w w1 : W) log1 res :
  locked m = false → Forall (λ kr, kr.2 ≠ None) order →
  Close close order m w = (m1, w1, log1, res) → iterates m1 order2 →
  Close close order2 m1 w1 = (m1, w1, [], Returns None).
Proof.
  intros Hl Hnn Hclose Hit.
  destruct (Close_returns m order w Hl Hnn) as (w' & log & Hc & _).
  rewrite Hc in Hclose. injection Hclose as <- <- <- <-.
  unfold iterates, table in Hit. simpl in Hit. rewrite map_to_list_empty in Hit.
  apply Permutation_nil_r in Hit. by subst order2.
Qed.

(** X18: Use after [Close]: [Inject] panics on the write to the nil map, and
    the lock it took stays held, so that every later [Inject] or [Close]
    blocks for ever. *)
Theorem Inject_after_Close_panics (m m1 : ResourceManager)
    (order : list (string * io_Closer)) (w w1 : W) log1 res
    (key : string) (resource : io_Closer) :
  locked m = false → Forall (λ kr, kr.2 ≠ None) order →
  Close close order m w = (m1, w1, log1, res) →
  let m2 := {| resources := None; locked := true |} in
  Inject key resource m1 = (m2, Panics) ∧
  (∀ key' resource', Inject key' resource' m2 = (m2, Blocks)) ∧
  (∀ order' w', Close close order' m2 w' = (m2, w', [], Blocks)).
Proof.
  intros Hl Hnn Hclose m2.
  destruct (Close_returns m order w Hl Hnn) as (w' & log & Hc & _).
  rewrite Hc in Hclose. injection Hclose as <- <- <- <-. done.
Qed.

(** X19: [Close] on a table with a nil entry panics at that entry: the
    resources visited before it have been closed, the others have not; the
    table stays in place, and the lock is released. *)
Theorem Close_panics_on_nil_entry (m : ResourceManager)
    (before after : list (string * io_Closer)) (key : string) (w : W) :
  locked m = false → Forall (λ kr, kr.2 ≠ None) before →
  ∃ w' log,
    Close close (before ++ (key, None) :: after) m w =
      ({| resources := resources m; locked := false |}, w', log, Panics) ∧
    log.*1 = omap snd before ∧ replay close log w = Some w'.
Proof.
  intros Hl Hnn. unfold Close. rewrite Hl.
  destruct (range_resources_app before ((key, None) :: after) w w [] Hnn eq_refl)
    as (w' & log & Hrun & Hrs & Hre).
  change (range_resources close (before ++ (key, None) :: after) w [] [] =
          (w', log, None)) in Hrun.
  rewrite Hrun. exists w', log. done.
Qed.

Lemma nil_entry_split (order : list (string * io_Closer)) :
  Forall (λ kr, kr.2 ≠ None) order ∨
  ∃ before key after,
    order = before ++ (key, None) :: after ∧ Forall (λ kr, kr.2 ≠ None) before.
Proof.
  induction order as [|[k [r|]] order IH].
  - left. constructor.
  - destruct IH as [Hnn|(before & key & after & -> & Hnn)].
    + left. by constructor.
    + right. exists ((k, Some r) :: before), key, after. split; [done|].
      by constructor.
  - right. exists [], k, order. split; [done|]. constructor.
Qed.

(** [Close] calls the [Close] method of resources of the table only. *)
Lemma Close_log_held (m m1 : ResourceManager)
    (order : list (string * io_Closer)) (w w1 : W) log res :
  locked m = false → Close close order m w = (m1, w1, log, res) →
  ∀ r, r ∈ log.*1 → r ∈ omap snd order.
Proof.
  intros Hl Hclose r Hr.
  destruct (nil_entry_split order) as [Hnn|(before & key & after & -> & Hnn)].
  - destruct (Close_returns m order w Hl Hnn) as (w' & log' & Hc & Hrs).
    rewrite Hc in Hclose. injection Hclose as <- <- <- <-. by rewrite <-Hrs.
  - unfold Close in Hclose. rewrite Hl in Hclose.
    destruct (range_resources_app before ((key, None) :: after) w w [] Hnn eq_refl)
      as (w' & log' & Hrun & Hrs & _).
    change (range_resources close (before ++ (key, None) :: after) w [] [] =
            (w', log', None)) in Hrun.
    rewrite Hrun in Hclose. injection Hclose as <- <- <- <-.
    rewrite omap_app, elem_of_app. left. by rewrite <-Hrs.
Qed.

(** X20: [Inject] replaces the entry of its key without closing the resource
    it replaces: a [Close] that follows does not close that resource unless
    the table holds it under another key; when the table holds no nil
    entry, that [Close] returns and has closed the injected resource. *)
Theorem Inject_replaces_without_closing (m : ResourceManager)
    (tbl : gmap string io_Closer) (key : string) (old new : Closer)
    (order : list (string * io_Closer)) (w : W) :
  locked m = false → resources m = Some tbl →
  (∀ k, k ≠ key → tbl !! k ≠ Some (Some old)) → old ≠ new →
  let m1 := (Inject key (Some new) m).1 in
  iterates m1 order →
  (Inject key (Some new) m).2 = Returns tt ∧
  ∃ m2 w' log res,
    Close close order m1 w = (m2, w', log, res) ∧
    (old ∉ log.*1) ∧
    (Forall (λ kr, kr.2 ≠ None) order →
     m2 = {| resources := None; locked := false |} ∧
     res = Returns (Err (failures log)) ∧ new ∈ log.*1).
Proof.
  intros Hl Hres Hold Hne m1 Hit. unfold m1, Inject in *.
  rewrite Hl, Hres in *. simpl in *. split; [done|].
  unfold iterates, table in Hit. simpl in Hit.
  assert (∀ r, r ∈ omap snd order ↔
               ∃ k, <[key := Some new]> tbl !! k = Some (Some r)) as Hin.
  { intros r. rewrite list_elem_of_omap. split.
    - intros ([k ro] & Hkr & Hro). simpl in Hro. subst ro. exists k.
      rewrite Hit in Hkr. by apply elem_of_map_to_list in Hkr.
    - intros (k & Hk). exists (k, Some r). split; [|done].
      rewrite Hit. by apply elem_of_map_to_list. }
  destruct (Close close order
              {| resources := Some (<[key := Some new]> tbl); locked := false |} w)
    as [[[m2 w'] log] res] eqn:Hclose.
  exists m2, w', log, res. split; [done|]. split.
  - intros Hr. eapply Close_log_held in Hr; [|..|exact Hclose]; [|reflexivity].
    apply Hin in Hr as (k & Hk). destruct (decide (k = key)) as [->|Hk'].
    + rewrite lookup_insert_eq in Hk. congruence.
    + rewrite lookup_insert_ne in Hk by done. by eapply Hold.
  - intros Hnn.
    destruct (Close_returns {| resources := Some (<[key := Some new]> tbl);
                              locked := false |} order w eq_refl Hnn)
      as (w'' & log' & Hc & Hrs).
    rewrite Hc in Hclose. injection Hclose as <- <- <- <-.
    split; [done|]. split; [done|]. rewrite Hrs.
    apply Hin. exists key. by rewrite lookup_insert_eq.
Qed.

End close_more.

Lemma Close_twice_closes_nothing_witness :
  let order := map_to_list (table two_resources) in
  let '(m1, w1, log1, res) := Close close_odd_fails order two_resources [] in
  locked two_resources = false ∧ Forall (λ kr, kr.2 ≠ None) order ∧
  iterates m1 [] ∧
  Close close_odd_fails [] m1 w1 = (m1, w1, [], Returns None).
Proof.
  intros order.
  assert (Forall (λ kr : string * io_Closer, kr.2 ≠ None) order) as Hnn.
  { vm_compute. repeat constructor; discriminate. }
  destruct (Close close_odd_fails order two_resources []) as [[[m1 w1] log1] res] eqn:Hc.
  assert (iterates m1 []) as Hit.
  { vm_compute in Hc. injection Hc as <- _ _ _. unfold iterates. reflexivity. }
  split; [reflexivity|]. split; [exact Hnn|]. split; [exact Hit|].
  apply (Close_twice_closes_nothing close_odd_fails two_resources m1 order []
           [] w1 log1 res); [reflexivity|exact Hnn|exact Hc|exact Hit].
Defined.

Lemma Inject_after_Close_panics_witness :
  let order := map_to_list (table two_resources) in
  let m2 := {| resources := None; locked := true |} in
  locked two_resources = false ∧ Forall (λ kr, kr.2 ≠ None) order ∧
  Inject "r3"%string (Some 3)
    (Close close_odd_fails order two_resources []).1.1.1 = (m2, Panics) ∧
  (∀ key' resource', Inject key' resource' m2 = (m2, Blocks)) ∧
  (∀ order' w', Close close_odd_fails order' m2 w' = (m2, w', [], Blocks)).
Proof.
  intros order m2.
  assert (Forall (λ kr : string * io_Closer, kr.2 ≠ None) order) as Hnn.
  { vm_compute. repeat constructor; discriminate. }
  split; [reflexivity|]. split; [exact Hnn|].
  destruct (Close close_odd_fails order two_resources []) as [[[m1 w1] log1] res] eqn:Hc.
  apply (Inject_after_Close_panics close_odd_fails two_resources m1 order []
           w1 log1 res "r3"%string (Some 3)); [reflexivity|exact Hnn|exact Hc].
Defined.

Lemma Close_panics_on_nil_entry_witness :
  let m := {| resources := Some {[ "a"%string := Some 2; "b"%string := None ]};
              locked := false |} in
  locked m = false ∧ Forall (λ kr : string * io_Closer, kr.2 ≠ None) [("a"%string, Some 2)] ∧
  ∃ w' log,
    Close close_odd_fails ([("a"%string, Some 2)] ++ ("b"%string, None) :: []) m [] =
      ({| resources := resources m; locked := false |}, w', log, Panics) ∧
    log.*1 = omap snd [("a"%string, Some 2)] ∧
    replay close_odd_fails log [] = Some w'.
Proof.
  intros m.
  assert (Forall (λ kr : string * io_Closer, kr.2 ≠ None) [("a"%string, Some 2)])
    as Hnn by (repeat constructor; discriminate).
  split; [reflexivity|]. split; [exact Hnn|].
  apply (Close_panics_on_nil_entry close_odd_fails m [("a"%string, Some 2)] []
           "b"%string []); [reflexivity|exact Hnn].
Defined.

Lemma Inject_replaces_without_closing_witness :
  let tbl : gmap string io_Closer := {[ "r1"%string := Some 2; "r2"%string := Some 1 ]} in
  let m1 := (Inject "r1"%string (Some 4) two_resources).1 in
  let order := map_to_list (table m1) in
  locked two_resources = false ∧ resources two_resources = Some tbl ∧
  (∀ k, k ≠ "r1"%string → tbl !! k ≠ Some (Some 2)) ∧ 2 ≠ 4 ∧
  iterates m1 order ∧ Forall (λ kr, kr.2 ≠ None) order ∧
  (Inject "r1"%string (Some 4) two_resources).2 = Returns tt ∧
  ∃ m2 w' log res,
    Close close_odd_fails order m1 [] = (m2, w', log, res) ∧
    (2 ∉ log.*1) ∧
    (Forall (λ kr, kr.2 ≠ None) order →
     m2 = {| resources := None; locked := false |} ∧
     res = Returns (Err (failures log)) ∧ 4 ∈ log.*1).
Proof.
  intros tbl m1 order.
  assert (∀ k, k ≠ "r1"%string → tbl !! k ≠ Some (Some 2)) as Hold.
  { intros k Hk. unfold tbl. rewrite lookup_insert_ne by done.
    destruct (decide (k = "r2"%string)) as [->|Hk2].
    - rewrite lookup_singleton_eq. discriminate.
    - rewrite lookup_singleton_ne by done. discriminate. }
  assert (Forall (λ kr : string * io_Closer, kr.2 ≠ None) order) as Hnn.
  { vm_compute. repeat constructor; discriminate. }
  assert (iterates m1 order) as Hit by (unfold iterates; reflexivity).
  assert (2 ≠ 4) as Hne by lia.
  split; [reflexivity|]. split; [reflexivity|]. split; [exact Hold|].
  split; [exact Hne|]. split; [exact Hit|]. split; [exact Hnn|].
  apply (Inject_replaces_without_closing close_odd_fails two_resources tbl
           "r1"%string 2 4 order []);
    [reflexivity|reflexivity|exact Hold|exact Hne|exact Hit].
Defined.

End Manager.
